(** * logcarrier: the line-integrity writer (package logio), the raw
      bufferer (package bufferer) and the file registry with its flusher
      (FileOp, package main)

    A shallow embedding of the Go sources and the properties of their
    specification.

    Conventions of the embedding.
    - A byte slice is a [list byte]; the unread part of a [bytes.Buffer] is
      the list of its bytes.
    - Go's [int] is the 64-bit integer of the 64-bit targets.  Lengths of
      slices and sums of two such lengths are kept in [Z] as they are (a
      slice cannot be longer than the address space); the line counter is
      incremented once per line for the life of the process and its
      increment is reduced with [int_wrap].  The [uint32] conversions of
      [DumpState] are reduced modulo 2^32.
    - A method with a pointer receiver takes the receiver's state and
      returns the new one next to its Go results; a Go [error] is an
      [option error], [None] being [nil].
    - A panic is a result of its own ([Panicked]), carrying the state at the
      point of the panic. *)

From Stdlib Require Import ZArith Lia.
From Stdlib Require Import Strings.Byte.
From stdpp Require Import base list strings gmap.

Local Open Scope Z_scope.

Abbreviation byte := Corelib.Init.Byte.byte.

(** The byte ['\n']. *)
Definition nl : byte := Byte.x0a.

(** The bytes of a string literal. *)
Definition bytes_of (s : string) : list byte := String.list_byte_of_string s.

#[global] Instance byte_eq_dec : EqDecision byte := Byte.byte_eq_dec.

(** Two's complement reduction to Go's 64-bit [int]. *)
Definition int_wrap (z : Z) : Z := (z + 2 ^ 63) mod 2 ^ 64 - 2 ^ 63.

(** The conversion [uint32(x)] of an [int]. *)
Definition uint32 (z : Z) : Z := z mod 2 ^ 32.

Definition max_int : Z := 2 ^ 63 - 1.

(** ** Package io: errors and the underlying writer *)

Module io.

(** Go's [error] values: [io.ErrShortWrite], the errors made with
    [fmt.Errorf], and the errors of the world outside (files, codecs). *)
Inductive error : Type :=
| ErrShortWrite
| Errorf (msg : string)
| ErrExternal (code : nat).

(** What one call of the underlying writer's [Write] does with its
    argument: take all of it and return [nil], or take only its first [m]
    bytes and return [e] ([e = None] is a short write without an error).
    The count a writer returns is between 0 and [len(p)], as the contract
    of [io.Writer] has it. *)
Inductive outcome : Type :=
| Accept
| Refuse (m : nat) (e : option error).

(** An [io.Writer]: the bytes it has taken so far and how its next calls
    turn out; with the script used up, every call is accepted. *)
Record Writer : Type := mkWriter {
  received : list byte;
  script : list outcome
}.

Definition Write (k : Writer) (p : list byte) : Writer * Z * option error :=
  match script k with
  | [] => (mkWriter (received k ++ p) [], Z.of_nat (length p), None)
  | Accept :: s => (mkWriter (received k ++ p) s, Z.of_nat (length p), None)
  | Refuse m e :: s =>
      (mkWriter (received k ++ take m p) s, Z.of_nat (length (take m p)), e)
  end.

End io.

(** ** Package bytes: [bytes.Buffer] and [bytes.IndexByte] *)

Module bytes.

(** The unread bytes of a [bytes.Buffer]. *)
Abbreviation Buffer := (list byte).

Definition Len (b : Buffer) : Z := Z.of_nat (length b).

Definition Reset (b : Buffer) : Buffer := [].

Definition Bytes (b : Buffer) : list byte := b.

(** [Buffer.Write] appends and always returns [len(p), nil]. *)
Definition Write (b : Buffer) (p : list byte) : Buffer * Z * option io.error :=
  (b ++ p, Z.of_nat (length p), None).

(** [Buffer.WriteTo]: one [Write] of the whole content to [k]; the bytes
    [k] took are consumed; an error of [k] is returned, and a short count
    without an error is [io.ErrShortWrite]; the buffer is reset when
    everything was taken. *)
Definition WriteTo (b : Buffer) (k : io.Writer)
  : Buffer * io.Writer * Z * option io.error :=
  let nBytes := Len b in
  if 0 <? nBytes then
    let '(k', m, e) := io.Write k b in
    let b' := drop (Z.to_nat m) b in
    match e with
    | Some e => (b', k', m, Some e)
    | None =>
        if negb (m =? nBytes) then (b', k', m, Some io.ErrShortWrite)
        else (Reset b', k', m, None)
    end
  else (Reset b, k, 0, None).

Fixpoint index_from (i : Z) (s : list byte) (c : byte) : Z :=
  match s with
  | [] => -1
  | x :: s' => if bool_decide (x = c) then i else index_from (i + 1) s' c
  end.

(** [bytes.IndexByte(s, c)]: the index of the first [c] in [s], or -1. *)
Definition IndexByte (s : list byte) (c : byte) : Z := index_from 0 s c.

End bytes.

(** ** Packages binenc and bindec: the binary fields of a checkpoint *)

Module binenc.

Definition byte_of_Z (z : Z) : byte :=
  default Byte.x00 (Byte.of_N (Z.to_N (z mod 256))).

(** Modelled from the spec: package binenc is not among the sources.  The
    checkpoint format has [u32] fields "in a fixed, documented endianness
    chosen by the implementation"; the four bytes are written here with
    the least significant byte first. *)
Definition Uint32 (v : Z) : list byte :=
  [byte_of_Z v; byte_of_Z (v / 2 ^ 8); byte_of_Z (v / 2 ^ 16);
   byte_of_Z (v / 2 ^ 24)].

(** Modelled from the spec: package binenc is not among the sources.  A
    boolean is one byte, 0 or 1 ("u8 finished (0/1)"). *)
Definition Bool (b : bool) : list byte :=
  [if b then Byte.x01 else Byte.x00].

End binenc.

Module bindec.

Definition Z_of_byte (b : byte) : Z := Z.of_N (Byte.to_N b).

(** The decoder holds the bytes that are still to be read. *)
Abbreviation Decoder := (list byte).

Definition New (data : list byte) : Decoder := data.

(** Modelled from the spec: package bindec is not among the sources.  The
    reader of a [u32] field: the value, whether four bytes were there, and
    the decoder after them. *)
Definition Uint32 (rr : Decoder) : Z * bool * Decoder :=
  match rr with
  | b0 :: b1 :: b2 :: b3 :: rest =>
      (Z_of_byte b0 + 2 ^ 8 * Z_of_byte b1 + 2 ^ 16 * Z_of_byte b2
       + 2 ^ 24 * Z_of_byte b3, true, rest)
  | _ => (0, false, rr)
  end.

(** Modelled from the spec: package bindec is not among the sources.  The
    reader of [n] raw bytes, refusing when fewer than [n] are left. *)
Definition Bytes (rr : Decoder) (n : Z) : list byte * bool * Decoder :=
  if (n <? 0) || (Z.of_nat (length rr) <? n) then ([], false, rr)
  else (take (Z.to_nat n) rr, true, drop (Z.to_nat n) rr).

(** Modelled from the spec: package bindec is not among the sources.  The
    reader of a one-byte boolean: zero is false, anything else true.  The
    format gives the flag bytes as 0 or 1; no theorem below rests on what
    the reader makes of another byte. *)
Definition Bool (rr : Decoder) : bool * bool * Decoder :=
  match rr with
  | b :: rest => (negb (bool_decide (b = Byte.x00)), true, rest)
  | [] => (false, false, rr)
  end.

End bindec.

(** How a call that may panic ends. *)
Inductive completion : Type :=
| Returned
| Panicked (msg : string).

(** ** Package logio: the line-integrity writer *)

Module logio.

Import io.

Record Writer : Type := mkWriter {
  bufsize : Z;
  writer : io.Writer;
  buffer : bytes.Buffer;       (* committed data: finalized lines *)
  linebuf : bytes.Buffer;      (* data not yet followed by '\n' *)
  finished : bool;
  lineCount : Z;
  savedLineCount : Z;
  prevLineCount : Z;
  worthFlushing : bool
}.

Definition set_bufsize (w : Writer) (v : Z) : Writer :=
  mkWriter v (writer w) (buffer w) (linebuf w) (finished w)
           (lineCount w) (savedLineCount w) (prevLineCount w) (worthFlushing w).
Definition set_writer (w : Writer) (v : io.Writer) : Writer :=
  mkWriter (bufsize w) v (buffer w) (linebuf w) (finished w)
           (lineCount w) (savedLineCount w) (prevLineCount w) (worthFlushing w).
Definition set_buffer (w : Writer) (v : bytes.Buffer) : Writer :=
  mkWriter (bufsize w) (writer w) v (linebuf w) (finished w)
           (lineCount w) (savedLineCount w) (prevLineCount w) (worthFlushing w).
Definition set_linebuf (w : Writer) (v : bytes.Buffer) : Writer :=
  mkWriter (bufsize w) (writer w) (buffer w) v (finished w)
           (lineCount w) (savedLineCount w) (prevLineCount w) (worthFlushing w).
Definition set_finished (w : Writer) (v : bool) : Writer :=
  mkWriter (bufsize w) (writer w) (buffer w) (linebuf w) v
           (lineCount w) (savedLineCount w) (prevLineCount w) (worthFlushing w).
Definition set_lineCount (w : Writer) (v : Z) : Writer :=
  mkWriter (bufsize w) (writer w) (buffer w) (linebuf w) (finished w)
           v (savedLineCount w) (prevLineCount w) (worthFlushing w).
Definition set_savedLineCount (w : Writer) (v : Z) : Writer :=
  mkWriter (bufsize w) (writer w) (buffer w) (linebuf w) (finished w)
           (lineCount w) v (prevLineCount w) (worthFlushing w).
Definition set_prevLineCount (w : Writer) (v : Z) : Writer :=
  mkWriter (bufsize w) (writer w) (buffer w) (linebuf w) (finished w)
           (lineCount w) (savedLineCount w) v (worthFlushing w).
Definition set_worthFlushing (w : Writer) (v : bool) : Writer :=
  mkWriter (bufsize w) (writer w) (buffer w) (linebuf w) (finished w)
           (lineCount w) (savedLineCount w) (prevLineCount w) v.

Definition defaultBufferSize : Z := 128 * 1024 * 1024.

(** [NewWriterSize]: [buffer.Grow(size)] panics on a negative size, so
    there is no writer then. *)
Definition NewWriterSize (k : io.Writer) (size : Z) : option Writer :=
  if size <? 0 then None
  else Some (mkWriter size k [] [] true 0 0 0 true).

Definition NewWriter (k : io.Writer) : option Writer :=
  NewWriterSize k defaultBufferSize.

(** [Flush]: all full lines go to the underlying writer. *)
Definition Flush (w : Writer) : Writer * option error :=
  let finish (w : Writer) :=
    (set_savedLineCount (set_buffer w (bytes.Reset (buffer w))) (lineCount w),
     None) in
  if bytes.Len (buffer w) >? 0 then
    let '(b, k, _, err) := bytes.WriteTo (buffer w) (writer w) in
    let w := set_writer (set_buffer w b) k in
    match err with
    | Some e => (w, Some e)
    | None => finish w
    end
  else finish w.

(** [FlushAll]: [io.Copy] from a [*bytes.Buffer] is its [WriteTo]. *)
Definition FlushAll (w : Writer) : Writer * option error :=
  match Flush w with
  | (w, Some e) => (w, Some e)
  | (w, None) =>
      if bytes.Len (linebuf w) >? 0 then
        let '(b, k, _, err) := bytes.WriteTo (linebuf w) (writer w) in
        let w := set_writer (set_linebuf w b) k in
        match err with
        | Some e => (w, Some e)
        | None => (set_linebuf w (bytes.Reset (linebuf w)), None)
        end
      else (set_linebuf w (bytes.Reset (linebuf w)), None)
  end.

(** The body of [Write]'s loop for a chunk [line] that ends with the first
    newline of the data, in the three steps the source takes. *)

(** With an unfinished line pending, the chunk joins the staging area and
    the whole staged line is taken out of it.  ([line] is a view of the
    staging area that is copied into the committed buffer before the
    staging area is written again, so the value is what is copied.) *)
Definition stage_line (w : Writer) (line : list byte)
  : Writer * list byte * option error :=
  if negb (finished w) then
    let '(lb, _, err) := bytes.Write (linebuf w) line in
    let w := set_linebuf w lb in
    match err with
    | Some e => (w, line, Some e)
    | None =>
        let line := bytes.Bytes (linebuf w) in
        (set_linebuf w (bytes.Reset (linebuf w)), line, None)
    end
  else (w, line, None).

(** The capacity check: the committed bytes are flushed when the line does
    not fit next to them. *)
Definition make_room (w : Writer) (line : list byte) : Writer * option error :=
  if bytes.Len (buffer w) + Z.of_nat (length line) >? bufsize w then
    Flush (set_worthFlushing w false)
  else (w, None).

(** The line is appended to the committed buffer and counted. *)
Definition commit_line (w : Writer) (line : list byte) : Writer * option error :=
  let '(b, _, err) := bytes.Write (buffer w) line in
  let w := set_buffer w b in
  match err with
  | Some e => (w, Some e)
  | None => (set_finished (set_lineCount w (int_wrap (lineCount w + 1))) true, None)
  end.

(** [Write]'s loop; every round consumes at least one byte of [data], so
    [length data] rounds are enough ([Write_returns]). *)
Fixpoint Write_loop (fuel : nat) (w : Writer) (data : list byte) (nn : Z)
  : option (Writer * Z * option error) :=
  if Z.of_nat (length data) >? 0 then
    match fuel with
    | O => None
    | S fuel =>
        let pos := bytes.IndexByte data nl in
        if pos <? 0 then
          let '(lb, n, err) := bytes.Write (linebuf w) data in
          let w := set_linebuf w lb in
          let nn := nn + n in
          match err with
          | Some e => Some (w, nn, Some e)
          | None => Some (set_finished w false, nn, None)
          end
        else
          let line := take (Z.to_nat (pos + 1)) data in
          match stage_line w line with
          | (w, _, Some e) => Some (w, nn, Some e)
          | (w, line, None) =>
              match make_room w line with
              | (w, Some e) => Some (w, nn, Some e)
              | (w, None) =>
                  match commit_line w line with
                  | (w, Some e) => Some (w, nn, Some e)
                  | (w, None) =>
                      Write_loop fuel w (drop (Z.to_nat (pos + 1)) data)
                                 (nn + (pos + 1))
                  end
              end
          end
    end
  else Some (w, nn, None).

Definition Write (w : Writer) (data : list byte)
  : option (Writer * Z * option error) :=
  Write_loop (length data) w data 0.

Definition LinesBuffered (w : Writer) : Z :=
  int_wrap (lineCount w - savedLineCount w).

Definition LinesWritten (w : Writer) : Z := savedLineCount w.

(** [WorthFlushing]: has anything been written after the last check? *)
Definition WorthFlushing (w : Writer) : bool * Writer :=
  let res := worthFlushing w
             && negb (savedLineCount w =? lineCount w)
             && (savedLineCount w =? prevLineCount w) in
  (res, set_worthFlushing (set_prevLineCount w (savedLineCount w)) true).

(** [DumpState] appends the checkpoint of [w] to [dest]. *)
Definition DumpState (w : Writer) (dest : bytes.Buffer) : Writer * bytes.Buffer :=
  let put (d : bytes.Buffer) (p : list byte) := (bytes.Write d p).1.1 in
  let dest := put dest (binenc.Uint32 (uint32 (bufsize w))) in
  let dest := put dest (binenc.Uint32 (uint32 (bytes.Len (buffer w)))) in
  let dest := put dest (bytes.Bytes (buffer w)) in
  let dest := put dest (binenc.Uint32 (uint32 (bytes.Len (linebuf w)))) in
  let dest := put dest (bytes.Bytes (linebuf w)) in
  let dest := put dest (binenc.Bool (finished w)) in
  let dest := put dest (binenc.Uint32 (uint32 (lineCount w))) in
  let dest := put dest (binenc.Uint32 (uint32 (savedLineCount w))) in
  let dest := put dest (binenc.Uint32 (uint32 (prevLineCount w))) in
  let dest := put dest (binenc.Bool (worthFlushing w)) in
  (w, dest).

(** [RestoreState] reads a checkpoint from [src]: every field is decoded
    first, each failure being a panic, and only then is [w] assigned. *)
Definition RestoreState (w : Writer) (src : bytes.Buffer) : Writer * completion :=
  let rr := bindec.New (bytes.Bytes src) in
  match bindec.Uint32 rr with
  | (_, false, _) => (w, Panicked "Cannot restore bufsize")
  | (bufsize, true, rr) =>
  match bindec.Uint32 rr with
  | (_, false, _) => (w, Panicked "Cannot restore buffer length")
  | (buflen, true, rr) =>
  match bindec.Bytes rr buflen with
  | (_, false, _) => (w, Panicked "Cannot restore a buffer")
  | (buffer, true, rr) =>
  match bindec.Uint32 rr with
  | (_, false, _) => (w, Panicked "Cannot restore line buffer length")
  | (linebuflen, true, rr) =>
  match bindec.Bytes rr linebuflen with
  | (_, false, _) => (w, Panicked "Cannot restore line buffer")
  | (linebuf, true, rr) =>
  match bindec.Bool rr with
  | (_, false, _) => (w, Panicked "Cannot restore finished state")
  | (finished, true, rr) =>
  match bindec.Uint32 rr with
  | (_, false, _) => (w, Panicked "Cannot restore line count")
  | (linecount, true, rr) =>
  match bindec.Uint32 rr with
  | (_, false, _) => (w, Panicked "Cannot restore saved line count")
  | (savedlinecount, true, rr) =>
  match bindec.Uint32 rr with
  | (_, false, _) => (w, Panicked "Cannot restore prev(ious) line count")
  | (prevlinecount, true, rr) =>
  match bindec.Bool rr with
  | (_, false, _) => (w, Panicked "Cannot restore worthflushing state")
  | (worthflushing, true, rr) =>
      let w := set_bufsize w bufsize in
      let w := set_buffer w (bytes.Reset (logio.buffer w)) in
      let w := set_buffer w (bytes.Write (logio.buffer w) buffer).1.1 in
      let w := set_linebuf w (bytes.Reset (logio.linebuf w)) in
      let w := set_linebuf w (bytes.Write (logio.linebuf w) linebuf).1.1 in
      let w := set_finished w finished in
      let w := set_lineCount w linecount in
      let w := set_savedLineCount w savedlinecount in
      let w := set_prevLineCount w prevlinecount in
      let w := set_worthFlushing w worthflushing in
      (w, Returned)
  end end end end end end end end end end.

End logio.


(** ** Sequences of calls on a writer *)

Module calls.

Import logio.

(** The calls of the line-integrity property: [Write] and [Flush]. *)
Inductive call : Type :=
| CallWrite (data : list byte)
| CallFlush.

Definition do_call (w : Writer) (c : call) : option (Writer * option io.error) :=
  match c with
  | CallWrite data =>
      match Write w data with
      | Some (w', _, err) => Some (w', err)
      | None => None
      end
  | CallFlush => Some (Flush w)
  end.

(** The calls are made one after the other, whatever each one returns;
    the result is the last state and the errors returned, in order. *)
Fixpoint run (w : Writer) (cs : list call)
  : option (Writer * list (option io.error)) :=
  match cs with
  | [] => Some (w, [])
  | c :: cs =>
      match do_call w c with
      | None => None
      | Some (w', err) =>
          match run w' cs with
          | None => None
          | Some (w'', errs) => Some (w'', err :: errs)
          end
      end
  end.

(** The bytes submitted by the [Write] calls of the sequence. *)
Fixpoint submitted (cs : list call) : list byte :=
  match cs with
  | [] => []
  | CallWrite data :: cs => data ++ submitted cs
  | CallFlush :: cs => submitted cs
  end.

(** A line: bytes without a newline, then the newline. *)
Definition line (l : list byte) : Prop :=
  ∃ body, l = body ++ [nl] ∧ nl ∉ body.

(** Whole newline-terminated lines, one after the other. *)
Definition whole_lines (l : list byte) : Prop :=
  ∃ ls, l = concat ls ∧ Forall line ls.

(** Line integrity, for a writer whose underlying writer had taken [r0]
    when the writer was made and to which [B] has been submitted since: the
    underlying writer has been handed a prefix [out] of [B] made of whole
    lines, the rest of [B] is the committed buffer, whole lines too, and
    then the staging area, which has no newline. *)
Definition line_integrity (r0 B : list byte) (w : Writer) : Prop :=
  ∃ out, io.received (writer w) = r0 ++ out
         ∧ B = out ++ buffer w ++ linebuf w
         ∧ whole_lines out
         ∧ whole_lines (buffer w)
         ∧ nl ∉ linebuf w.

(** The state between staging and appending a line [l]: what the
    underlying writer has and the committed buffer are whole lines, [l] is
    a line, the staging area is empty, and the three make up [B]. *)
Definition line_pending (r0 B : list byte) (w : Writer) (l : list byte) : Prop :=
  ∃ out, io.received (writer w) = r0 ++ out
         ∧ B = out ++ buffer w ++ l
         ∧ whole_lines out
         ∧ whole_lines (buffer w)
         ∧ line l
         ∧ linebuf w = [].

(** With [finished] set the staging area is empty. *)
Definition staging_ok (w : Writer) : Prop :=
  finished w = true → linebuf w = [].

(** The number of newlines of a chunk: the lines it closes. *)
Definition count_nl (data : list byte) : Z :=
  Z.of_nat (length (filter (λ b, b = nl) data)).

(** The states a writer goes through: made by [NewWriterSize], then any
    of its methods, whatever they return, as long as the 64-bit line
    counter has not run over. *)
Inductive Reachable : Writer → Prop :=
| reach_new k size w :
    NewWriterSize k size = Some w → Reachable w
| reach_Write w data w' n err :
    Reachable w →
    lineCount w + count_nl data <= max_int →
    Write w data = Some (w', n, err) →
    Reachable w'
| reach_Flush w w' err :
    Reachable w → Flush w = (w', err) → Reachable w'
| reach_FlushAll w w' err :
    Reachable w → FlushAll w = (w', err) → Reachable w'
| reach_WorthFlushing w res w' :
    Reachable w → WorthFlushing w = (res, w') → Reachable w'
| reach_DumpState w dest w' dest' :
    Reachable w → DumpState w dest = (w', dest') → Reachable w'.

(** The counters in order: what was saved is not more than what was
    counted, and neither is negative. *)
Definition counters_ok (w : Writer) : Prop :=
  0 <= savedLineCount w <= lineCount w.

(** With as many lines saved as counted, nothing is committed. *)
Definition settled (w : Writer) : Prop :=
  savedLineCount w = lineCount w → buffer w = [].

(** The counters count lines: for a writer whose underlying writer had
    taken [r0] when the writer was made, the saved count is the number of
    lines handed to the underlying writer since, and the line count is that
    number and the number of lines committed. *)
Definition counts_lines (r0 : list byte) (w : Writer) : Prop :=
  ∃ out, io.received (writer w) = r0 ++ out
         ∧ savedLineCount w = count_nl out
         ∧ lineCount w = count_nl out + count_nl (buffer w).

(** The committed buffer within bounds: not longer than the capacity, or
    what is left of one single line. *)
Definition bounded (w : Writer) : Prop :=
  bytes.Len (buffer w) <= bufsize w ∨ ∃ pre, line (pre ++ buffer w).

(** The value of a little-endian field. *)
Fixpoint le_value (l : list byte) : Z :=
  match l with
  | [] => 0
  | b :: l => bindec.Z_of_byte b + 2 ^ 8 * le_value l
  end.

(** [src] is long enough for a checkpoint: it starts with the ten fields,
    the two byte strings as long as their prefixes say. *)
Definition holds_checkpoint (src : list byte) : Prop :=
  ∃ (fsize flen committed fllen staging : list byte) (fin : byte)
    (fcount fsaved fprev : list byte) (worth : byte) (rest : list byte),
    src = fsize ++ flen ++ committed ++ fllen ++ staging ++ [fin]
                ++ fcount ++ fsaved ++ fprev ++ [worth] ++ rest
    ∧ length fsize = 4%nat ∧ length flen = 4%nat ∧ length fllen = 4%nat
    ∧ length fcount = 4%nat ∧ length fsaved = 4%nat ∧ length fprev = 4%nat
    ∧ Z.of_nat (length committed) = le_value flen
    ∧ Z.of_nat (length staging) = le_value fllen.

(** The checkpoint format of the specification, field by field. *)
Definition checkpoint (w : Writer) : list byte :=
  binenc.Uint32 (uint32 (bufsize w))
  ++ binenc.Uint32 (uint32 (Z.of_nat (length (buffer w)))) ++ buffer w
  ++ binenc.Uint32 (uint32 (Z.of_nat (length (linebuf w)))) ++ linebuf w
  ++ binenc.Bool (finished w)
  ++ binenc.Uint32 (uint32 (lineCount w))
  ++ binenc.Uint32 (uint32 (savedLineCount w))
  ++ binenc.Uint32 (uint32 (prevLineCount w))
  ++ binenc.Bool (worthFlushing w).

(** The numeric fields of [w] fit the [u32] fields of a checkpoint. *)
Definition fits_u32 (w : Writer) : Prop :=
  0 <= bufsize w < 2 ^ 32
  ∧ Z.of_nat (length (buffer w)) < 2 ^ 32
  ∧ Z.of_nat (length (linebuf w)) < 2 ^ 32
  ∧ 0 <= lineCount w < 2 ^ 32
  ∧ 0 <= savedLineCount w < 2 ^ 32
  ∧ 0 <= prevLineCount w < 2 ^ 32.

End calls.

(** ** Package bufferer: the interface the registry works with *)

Module bufferer.

(** The [Bufferer] interface: [B] are the values of the interface, [St]
    the state of what is behind them (buffers, codec, file). *)
Class Bufferer (B St : Type) : Type := {
  Write : B → list byte → St → St * Z * option io.error;
  Flush : B → St → St * option io.error;
  Close : B → St → St * option io.error;
  Logrotate : B → string → St → St * option io.error
}.

(** [RawBufferer]: the line-integrity writer [l] on the file [d].  The
    type of the file (package fileio) is not among the sources: it is the
    parameter [File], and [File_Close] is its [Close]. *)
Section RawBufferer.

Context {File : Type} (File_Close : File → File * option io.error).

Record RawBufferer : Type := mkRawBufferer {
  l : logio.Writer;
  d : File
}.

Definition NewRawBufferer (l : logio.Writer) (d : File) : RawBufferer :=
  mkRawBufferer l d.

Definition RawBufferer_Write (b : RawBufferer) (p : list byte)
  : option (RawBufferer * Z * option io.error) :=
  match logio.Write (l b) p with
  | Some (l', n, err) => Some (mkRawBufferer l' (d b), n, err)
  | None => None
  end.

Definition RawBufferer_Close (b : RawBufferer) : RawBufferer * option io.error :=
  match logio.Flush (l b) with
  | (l', Some e) => (mkRawBufferer l' (d b), Some e)
  | (l', None) =>
      match File_Close (d b) with
      | (d', Some e) => (mkRawBufferer l' d', Some e)
      | (d', None) => (mkRawBufferer l' d', None)
      end
  end.

Definition RawBufferer_Flush (b : RawBufferer) : RawBufferer * option io.error :=
  let '(worth, l1) := logio.WorthFlushing (l b) in
  if worth then
    match logio.Flush l1 with
    | (l2, Some e) => (mkRawBufferer l2 (d b), Some e)
    | (l2, None) => (mkRawBufferer l2 (d b), None)
    end
  else (mkRawBufferer l1 (d b), None).

End RawBufferer.

Arguments RawBufferer : clear implicits.

End bufferer.

(** ** Package main: the file registry *)

Module main.

Import io.

(** How a call ends: it returns, it waits for a mutex that is held (for
    ever, when nobody else runs), or the runtime stops the program (nil
    dereference, unlock of an unlocked mutex). *)
Inductive outcome (S A : Type) : Type :=
| Done (a : A) (s : S)
| Blocked
| Crashed.
Arguments Done {S A} a s.
Arguments Blocked {S A}.
Arguments Crashed {S A}.

Section FileOp.

Context {B St : Type} `{!bufferer.Bufferer B St}.

(** [Buf]: [Lock] is the address of the entry's [trylock.Mutex], [Buf]
    the bufferer; both are nil in the zero value. *)
Record Buf : Type := mkBuf {
  Buf_Name : string;
  Buf_Lock : option nat;
  Buf_Buf : option B
}.

Definition zero_Buf : Buf := mkBuf "" None None.

(** What is done to the world outside the registry, in order. *)
Inductive event : Type :=
| EvFactory (name : string)
| EvLock (l : nat)
| EvUnlock (l : nat)
| EvClose (b : B)
| EvLogrotate (b : B) (newpath : string).

(** The mutexes of the entries ([true]: held), the state behind the
    bufferers, and the events so far. *)
Record Heap : Type := mkHeap {
  mutexes : list bool;
  ext : St;
  trace : list event
}.

Record FileOp : Type := mkFileOp {
  items : gmap string Buf;
  itemsLock : bool;
  factory : string → St → St * option B * option error
}.

Definition NewFileOp (factory : string → St → St * option B * option error)
  : FileOp :=
  mkFileOp ∅ false factory.

Definition set_items (f : FileOp) (m : gmap string Buf) : FileOp :=
  mkFileOp m (itemsLock f) (factory f).
Definition set_itemsLock (f : FileOp) (v : bool) : FileOp :=
  mkFileOp (items f) v (factory f).

Definition log (σ : Heap) (e : event) : Heap :=
  mkHeap (mutexes σ) (ext σ) (trace σ ++ [e]).

(** [&trylock.Mutex{}]: a new mutex, not held. *)
Definition new_Mutex (σ : Heap) : nat * Heap :=
  (length (mutexes σ), mkHeap (mutexes σ ++ [false]) (ext σ) (trace σ)).

Definition Mutex_Lock (l : option nat) (σ : Heap) : outcome Heap unit :=
  match l with
  | None => Crashed
  | Some a =>
      match mutexes σ !! a with
      | None => Crashed
      | Some true => Blocked
      | Some false =>
          Done () (log (mkHeap (<[a := true]> (mutexes σ)) (ext σ) (trace σ))
                       (EvLock a))
      end
  end.

Definition Mutex_Unlock (l : option nat) (σ : Heap) : outcome Heap unit :=
  match l with
  | None => Crashed
  | Some a =>
      match mutexes σ !! a with
      | Some true =>
          Done () (log (mkHeap (<[a := false]> (mutexes σ)) (ext σ) (trace σ))
                       (EvUnlock a))
      | _ => Crashed
      end
  end.

(** A method call on an interface value; on nil it is a nil dereference. *)
Definition call_factory (f : FileOp) (name : string) (σ : Heap)
  : Heap * option B * option error :=
  let '(st, b, err) := factory f name (ext σ) in
  (log (mkHeap (mutexes σ) st (trace σ)) (EvFactory name), b, err).

Definition call_Close (b : option B) (σ : Heap) : outcome Heap (option error) :=
  match b with
  | None => Crashed
  | Some b =>
      let '(st, err) := bufferer.Close b (ext σ) in
      Done err (log (mkHeap (mutexes σ) st (trace σ)) (EvClose b))
  end.

Definition call_Logrotate (b : option B) (newpath : string) (σ : Heap)
  : outcome Heap (option error) :=
  match b with
  | None => Crashed
  | Some b =>
      let '(st, err) := bufferer.Logrotate b newpath (ext σ) in
      Done err (log (mkHeap (mutexes σ) st (trace σ)) (EvLogrotate b newpath))
  end.

(** [GetFile] retrieves (or makes) the entry of [name]. *)
Definition GetFile (f : FileOp) (name : string) (σ : Heap)
  : outcome (FileOp * Heap) (Buf * option error) :=
  let res := zero_Buf in
  if itemsLock f then Blocked else
  let f := set_itemsLock f true in
  match items f !! name with
  | Some buf =>
      let f := set_itemsLock f false in
      Done (buf, None) (f, σ)
  | None =>
      let '(σ, b, err) := call_factory f name σ in
      match err with
      | Some e =>
          let f := set_itemsLock f false in
          Done (res, Some e) (f, σ)
      | None =>
          let '(l, σ) := new_Mutex σ in
          let buf := mkBuf name (Some l) b in
          let f := set_items f (<[name := buf]> (items f)) in
          let f := set_itemsLock f false in
          Done (buf, None) (f, σ)
      end
  end.

(** [Logrotate].  The named result [err] is nil until the assignment
    from [buf.Buf.Logrotate]; the [err] of [if err := buf.Buf.Close()]
    is a variable of that [if] statement only, and [return err] after
    the label returns the named result. *)
Definition Logrotate (f : FileOp) (name newpath : string) (σ : Heap)
  : outcome (FileOp * Heap) (option error) :=
  let err : option error := None in
  if itemsLock f then Blocked else
  let f := set_itemsLock f true in
  let found := items f !! name in
  let f := set_itemsLock f false in
  match found with
  | None => Done (Some (Errorf ("file `" +:+ name +:+ "` not found"))) (f, σ)
  | Some buf =>
      match Mutex_Lock (Buf_Lock buf) σ with
      | Blocked => Blocked
      | Crashed => Crashed
      | Done _ σ =>
          match call_Close (Buf_Buf buf) σ with
          | Blocked => Blocked
          | Crashed => Crashed
          | Done err_close σ =>
              let exit (err : option error) (σ : Heap) :=
                match Mutex_Unlock (Buf_Lock buf) σ with
                | Blocked => Blocked
                | Crashed => Crashed
                | Done _ σ => Done err (f, σ)
                end in
              match err_close with
              | Some _ => exit err σ
              | None =>
                  match call_Logrotate (Buf_Buf buf) newpath σ with
                  | Blocked => Blocked
                  | Crashed => Crashed
                  | Done err σ => exit err σ
                  end
              end
          end
      end
  end.

(** The flusher, one tick: the entries of the registry are copied under
    the registry mutex ([bufs] is the copy, in the order the map gave them),
    then each entry whose mutex can be taken at once is flushed; the result
    is the numbers of entries flushed, found locked, and failed. *)

(** [TryLock]: the mutex is taken if it is free, and whether it was is
    returned. *)
Definition Mutex_TryLock (l : option nat) (σ : Heap) : outcome Heap bool :=
  match l with
  | None => Crashed
  | Some a =>
      match mutexes σ !! a with
      | None => Crashed
      | Some true => Done false σ
      | Some false =>
          Done true (log (mkHeap (<[a := true]> (mutexes σ)) (ext σ) (trace σ))
                         (EvLock a))
      end
  end.

(** A call of [Flush] on an interface value (the trace has no event for
    it). *)
Definition call_Flush (b : option B) (σ : Heap) : outcome Heap (option error) :=
  match b with
  | None => Crashed
  | Some b =>
      let '(st, err) := bufferer.Flush b (ext σ) in
      Done err (mkHeap (mutexes σ) st (trace σ))
  end.

Fixpoint flush_entries (bufs : list Buf) (σ : Heap)
    (flushed wereLocked flushErrors : nat) : outcome Heap (nat * nat * nat) :=
  match bufs with
  | [] => Done (flushed, wereLocked, flushErrors) σ
  | v :: bufs =>
      match Mutex_TryLock (Buf_Lock v) σ with
      | Blocked => Blocked
      | Crashed => Crashed
      | Done false σ => flush_entries bufs σ flushed (S wereLocked) flushErrors
      | Done true σ =>
          match call_Flush (Buf_Buf v) σ with
          | Blocked => Blocked
          | Crashed => Crashed
          | Done err σ =>
              match Mutex_Unlock (Buf_Lock v) σ with
              | Blocked => Blocked
              | Crashed => Crashed
              | Done _ σ =>
                  match err with
                  | Some _ => flush_entries bufs σ flushed wereLocked (S flushErrors)
                  | None => flush_entries bufs σ (S flushed) wereLocked flushErrors
                  end
              end
          end
      end
  end.

Definition flusher_tick (f : FileOp) (bufs : list Buf) (σ : Heap)
  : outcome (FileOp * Heap) (nat * nat * nat) :=
  if itemsLock f then Blocked else
  let f := set_itemsLock f true in
  let f := set_itemsLock f false in
  match flush_entries bufs σ 0 0 0 with
  | Blocked => Blocked
  | Crashed => Crashed
  | Done counts σ => Done counts (f, σ)
  end.

(** The flusher, ordered to stop: every entry is closed under the registry
    mutex, an error of [Close] being logged and nothing more. *)
Fixpoint close_entries (bufs : list Buf) (σ : Heap) : outcome Heap unit :=
  match bufs with
  | [] => Done () σ
  | v :: bufs =>
      match call_Close (Buf_Buf v) σ with
      | Blocked => Blocked
      | Crashed => Crashed
      | Done _ σ => close_entries bufs σ
      end
  end.

Definition flusher_stop (f : FileOp) (bufs : list Buf) (σ : Heap)
  : outcome (FileOp * Heap) unit :=
  if itemsLock f then Blocked else
  let f := set_itemsLock f true in
  match close_entries bufs σ with
  | Blocked => Blocked
  | Crashed => Crashed
  | Done _ σ => Done () (set_itemsLock f false, σ)
  end.

(** [bufs] is a copy of the entries of the registry, in some order. *)
Definition snapshot (f : FileOp) (bufs : list Buf) : Prop :=
  bufs ≡ₚ (map_to_list (items f)).*2.

(** An entry that can be worked with: its mutex is in the heap and its
    bufferer is not nil. *)
Definition usable (σ : Heap) (v : Buf) : Prop :=
  (∃ a held, Buf_Lock v = Some a ∧ mutexes σ !! a = Some held)
  ∧ is_Some (Buf_Buf v).

(** The mutex of the entry is held. *)
Definition held (σ : Heap) (v : Buf) : bool :=
  match Buf_Lock v with
  | Some a => bool_decide (mutexes σ !! a = Some true)
  | None => false
  end.

(** What [Flush] of the bufferer of an entry makes of the state behind the
    bufferers. *)
Definition flushed_state (st : St) (v : Buf) : St :=
  match Buf_Buf v with
  | Some b => (bufferer.Flush b st).1
  | None => st
  end.

(** What [Close] of the bufferer of an entry makes of it. *)
Definition closed_state (st : St) (v : Buf) : St :=
  match Buf_Buf v with
  | Some b => (bufferer.Close b st).1
  | None => st
  end.

(** The registry in order: its mutex is free, every entry is under its own
    name and has a mutex of the heap, and no two entries share a mutex. *)
Definition registry_ok (f : FileOp) (σ : Heap) : Prop :=
  itemsLock f = false
  ∧ ∀ name buf, items f !! name = Some buf →
      Buf_Name buf = name
      ∧ ∃ a, Buf_Lock buf = Some a ∧ (a < length (mutexes σ))%nat
             ∧ ∀ name' buf', items f !! name' = Some buf' →
                 Buf_Lock buf' = Some a → name' = name.

End FileOp.

Arguments Buf : clear implicits.
Arguments event : clear implicits.
Arguments Heap : clear implicits.
Arguments FileOp : clear implicits.

End main.

(** ** Values the properties are tried on *)

Module samples.

Import io.

(** A writer that takes everything. *)
Definition sink : io.Writer := io.mkWriter [] [].

(** The chunk of the documentation of [logio.Writer]. *)
Definition chunk_123456 : list byte :=
  bytes_of "1" ++ [nl] ++ bytes_of "2" ++ [nl] ++ bytes_of "3" ++ [nl]
  ++ bytes_of "456".

(** A new writer of the default capacity. *)
Definition fresh : logio.Writer :=
  logio.mkWriter logio.defaultBufferSize sink [] [] true 0 0 0 true.

(** The fresh writer after [Write] of that chunk. *)
Definition after_chunk : logio.Writer :=
  logio.mkWriter logio.defaultBufferSize sink
    (bytes_of "1" ++ [nl] ++ bytes_of "2" ++ [nl] ++ bytes_of "3" ++ [nl])
    (bytes_of "456") false 3 0 0 true.

(** A writer that takes one byte of its first call and fails (a full
    disk), and a line written and flushed to it. *)
Definition full_sink : io.Writer :=
  io.mkWriter [] [io.Refuse 1 (Some (io.ErrExternal 28))].

Definition one_line_flushed : list calls.call :=
  [calls.CallWrite (bytes_of "ab" ++ [nl]); calls.CallFlush].

(** The chunk written to a writer of capacity 4, then a [Flush]. *)
Definition chunk_flushed : list calls.call :=
  [calls.CallWrite chunk_123456; calls.CallFlush].

Definition after_chunk_flushed : logio.Writer :=
  logio.mkWriter 4
    (io.mkWriter (bytes_of "1" ++ [nl] ++ bytes_of "2" ++ [nl]
                  ++ bytes_of "3" ++ [nl]) [])
    [] (bytes_of "456") false 3 3 0 false.

(** A writer of capacity 4 with two lines committed. *)
Definition two_lines : logio.Writer :=
  logio.mkWriter 4 sink (bytes_of "1" ++ [nl] ++ bytes_of "2" ++ [nl]) []
    true 2 0 0 true.

(** The first three bytes of a checkpoint. *)
Definition three_bytes : list byte := [Byte.x00; Byte.x00; Byte.x10].

(** A writer of the default capacity after [Write] of ["hello\nwor"]. *)
Definition hello_wor : logio.Writer :=
  logio.mkWriter logio.defaultBufferSize sink (bytes_of "hello" ++ [nl])
    (bytes_of "wor") false 1 0 0 true.

(** A new writer of capacity 2^32. *)
Definition four_gigabytes : logio.Writer :=
  logio.mkWriter (2 ^ 32) sink [] [] true 0 0 0 true.

Definition two_short_lines : list calls.call :=
  [calls.CallWrite (bytes_of "a" ++ [nl] ++ bytes_of "b" ++ [nl])].

(** A bufferer that answers [Close] and [Logrotate] as it is told to; the
    state behind the bufferers is the number of calls made. *)
Record Scripted : Type := mkScripted {
  close_result : option error;
  rotate_result : option error
}.

#[global] Instance Scripted_Bufferer : bufferer.Bufferer Scripted nat := {|
  bufferer.Write _ p st := (st, Z.of_nat (length p), None);
  bufferer.Flush _ st := (st, None);
  bufferer.Close b st := (S st, close_result b);
  bufferer.Logrotate b _ st := (S st, rotate_result b)
|}.

(** A bufferer whose [Close] fails. *)
Definition failing_close : Scripted := mkScripted (Some (ErrExternal 5)) None.

(** A factory that fails for the key ["bad"]. *)
Definition factory (name : string) (st : nat) : nat * option Scripted * option error :=
  if bool_decide (name = "bad") then (st, None, Some (ErrExternal 2))
  else (S st, Some (mkScripted None None), None).

(** A registry with one entry, and the world around it: the mutex of the
    entry is free. *)
Definition registry : main.FileOp Scripted nat :=
  main.mkFileOp
    {[ "app.log" := main.mkBuf "app.log" (Some 0%nat) (Some failing_close) ]}
    false factory.

Definition heap : main.Heap Scripted nat := main.mkHeap [false] 0%nat [].

(** A file that counts how often it was closed, and a raw bufferer on it
    with two lines committed. *)
Definition close_file (closed : nat) : nat * option error := (S closed, None).

Definition raw_two_lines : bufferer.RawBufferer nat :=
  bufferer.mkRawBufferer two_lines 0%nat.

(** A writer of capacity 4 after [Write] of three lines of two bytes: the
    third line made the [Write] flush the first two, which cleared the
    hint.  A raw bufferer on it. *)
Definition busy : logio.Writer :=
  logio.mkWriter 4 (io.mkWriter (bytes_of "1" ++ [nl] ++ bytes_of "2" ++ [nl]) [])
    (bytes_of "3" ++ [nl]) [] true 3 2 0 false.

Definition raw_busy : bufferer.RawBufferer nat :=
  bufferer.mkRawBufferer busy 0%nat.

(** A bufferer that closes and rotates without an error, and a registry
    with it under the key ["web.log"]. *)
Definition well_behaved : Scripted := mkScripted None None.

Definition web_entry : main.Buf Scripted :=
  main.mkBuf "web.log" (Some 0%nat) (Some well_behaved).

Definition web_registry : main.FileOp Scripted nat :=
  main.mkFileOp {[ "web.log" := web_entry ]} false factory.

(** A writer of capacity 4 on the failing writer, with a line committed
    and two bytes staged. *)
Definition staged_on_full_sink : logio.Writer :=
  logio.mkWriter 4 full_sink (bytes_of "1" ++ [nl]) (bytes_of "ab")
    false 1 0 0 true.

End samples.

(** * Properties *)

(** ** Bytes, lines and the loop of Write *)

Lemma int_wrap_small z : - 2 ^ 63 <= z <= max_int → int_wrap z = z.
Proof.
  unfold int_wrap, max_int. intros Hz.
  rewrite Z.mod_small; lia.
Qed.

Lemma index_from_neg s c i : 0 <= i → bytes.index_from i s c < 0 → c ∉ s.
Proof.
  revert i. induction s as [|x s IH]; intros i Hi Hneg; simpl in *.
  - apply not_elem_of_nil.
  - case_bool_decide as Hx; [lia|].
    apply not_elem_of_cons. split; [congruence|].
    apply (IH (i + 1)); lia.
Qed.

Lemma index_from_split s c i :
  0 <= i → 0 <= bytes.index_from i s c →
  ∃ body rest, s = body ++ (c :: rest) ∧ (c ∉ body)
               ∧ bytes.index_from i s c = i + Z.of_nat (length body).
Proof.
  revert i. induction s as [|x s IH]; intros i Hi Hpos; simpl in *; [lia|].
  case_bool_decide as Hx.
  - subst x. exists [], s. simpl. repeat split; [apply not_elem_of_nil | lia].
  - destruct (IH (i + 1)) as (body & rest & -> & Hbody & Hidx); [lia | done |].
    exists (x :: body), rest. repeat split.
    + apply not_elem_of_cons. split; [congruence | done].
    + rewrite Hidx. simpl length. lia.
Qed.

Lemma IndexByte_neg s : bytes.IndexByte s nl < 0 → nl ∉ s.
Proof. apply index_from_neg. lia. Qed.

Lemma IndexByte_split s :
  0 <= bytes.IndexByte s nl →
  ∃ body rest, s = body ++ (nl :: rest) ∧ (nl ∉ body)
               ∧ bytes.IndexByte s nl = Z.of_nat (length body).
Proof.
  intros H. destruct (index_from_split s nl 0) as (b & r & ? & ? & ?); [lia | done |].
  exists b, r. repeat split; [done | done |]. unfold bytes.IndexByte. lia.
Qed.

Lemma take_line (body rest : list byte) :
  take (Z.to_nat (Z.of_nat (length body) + 1)) (body ++ nl :: rest) = body ++ [nl].
Proof.
  replace (Z.to_nat (Z.of_nat (length body) + 1)) with (length (body ++ [nl])).
  - rewrite (cons_middle nl body rest), app_assoc. apply take_app_length.
  - rewrite length_app. simpl. lia.
Qed.

Lemma drop_line (body rest : list byte) :
  drop (Z.to_nat (Z.of_nat (length body) + 1)) (body ++ nl :: rest) = rest.
Proof.
  replace (Z.to_nat (Z.of_nat (length body) + 1)) with (length (body ++ [nl])).
  - rewrite (cons_middle nl body rest), app_assoc. apply drop_app_length.
  - rewrite length_app. simpl. lia.
Qed.

(** One round of the loop on data with a newline, step by step. *)
Lemma Write_loop_line fuel w (body rest : list byte) nn :
  nl ∉ body →
  logio.Write_loop (S fuel) w (body ++ nl :: rest) nn =
    match logio.stage_line w (body ++ [nl]) with
    | (w1, _, Some e) => Some (w1, nn, Some e)
    | (w1, line, None) =>
        match logio.make_room w1 line with
        | (w2, Some e) => Some (w2, nn, Some e)
        | (w2, None) =>
            match logio.commit_line w2 line with
            | (w3, Some e) => Some (w3, nn, Some e)
            | (w3, None) =>
                logio.Write_loop fuel w3 rest (nn + (Z.of_nat (length body) + 1))
            end
        end
    end.
Proof.
  intros Hbody.
  assert (Hidx : bytes.IndexByte (body ++ nl :: rest) nl = Z.of_nat (length body)).
  { destruct (IndexByte_split (body ++ nl :: rest)) as (b & r & Heq & Hb & Hi).
    - destruct (Z_lt_le_dec (bytes.IndexByte (body ++ nl :: rest) nl) 0) as [Hn|]; [|done].
      apply IndexByte_neg in Hn. exfalso. apply Hn. set_solver.
    - rewrite Hi. f_equal.
      destruct (decide (length b = length body)) as [|Hne]; [done|exfalso].
      destruct (decide (length b < length body)%nat).
      + apply Hbody. apply list_elem_of_lookup. exists (length b).
        assert (Hl : (body ++ nl :: rest) !! length b = Some nl).
        { rewrite Heq. by rewrite list_lookup_middle. }
        rewrite lookup_app_l in Hl; [done | lia].
      + apply Hb. apply list_elem_of_lookup. exists (length body).
        assert (Hl : (b ++ nl :: r) !! length body = Some nl).
        { rewrite <- Heq. by rewrite list_lookup_middle. }
        rewrite lookup_app_l in Hl; [done | lia]. }
  cbn [logio.Write_loop]. rewrite Hidx.
  assert (Hlen : (Z.of_nat (length (body ++ nl :: rest)) >? 0) = true).
  { apply Z.gtb_lt. rewrite length_app. simpl. lia. }
  rewrite Hlen.
  assert (Hpos : (Z.of_nat (length body) <? 0) = false) by (apply Z.ltb_ge; lia).
  rewrite Hpos, take_line, drop_line. reflexivity.
Qed.

(** The round of the loop on data without a newline. *)
Lemma Write_loop_tail fuel w (data : list byte) nn :
  data ≠ [] → nl ∉ data →
  logio.Write_loop (S fuel) w data nn =
    Some (logio.set_finished (logio.set_linebuf w (logio.linebuf w ++ data)) false,
          nn + Z.of_nat (length data), None).
Proof.
  intros Hne Hnl. cbn [logio.Write_loop].
  assert (Hlen : (Z.of_nat (length data) >? 0) = true).
  { apply Z.gtb_lt. destruct data; [done | simpl; lia]. }
  rewrite Hlen.
  assert (Hidx : (bytes.IndexByte data nl <? 0) = true).
  { apply Z.ltb_lt.
    destruct (Z_lt_le_dec (bytes.IndexByte data nl) 0) as [|Hge]; [lia|].
    apply IndexByte_split in Hge as (b & r & -> & _ & _). exfalso. apply Hnl. set_solver. }
  rewrite Hidx. reflexivity.
Qed.

Lemma Write_loop_nil fuel w nn : logio.Write_loop fuel w [] nn = Some (w, nn, None).
Proof. destruct fuel; reflexivity. Qed.

(** Every chunk is of one of three shapes. *)
Lemma chunk_cases (data : list byte) :
  data = [] ∨ (data ≠ [] ∧ nl ∉ data)
  ∨ ∃ body rest, data = body ++ (nl :: rest) ∧ nl ∉ body.
Proof.
  destruct data as [|x data]; [by left | right].
  destruct (Z_lt_le_dec (bytes.IndexByte (x :: data) nl) 0) as [Hn|Hp].
  - left. split; [done | by apply IndexByte_neg].
  - right. apply IndexByte_split in Hp as (b & r & ? & ? & _). eauto.
Qed.

(** [Write] returns: its loop does not run out of rounds. *)
Lemma Write_loop_returns fuel w (data : list byte) nn :
  (length data ≤ fuel)%nat → is_Some (logio.Write_loop fuel w data nn).
Proof.
  revert w data nn. induction fuel as [|fuel IH]; intros w data nn Hlen.
  - destruct data; [|simpl in Hlen; lia]. by eexists.
  - destruct (chunk_cases data) as [-> | [[Hne Hnl] | (body & rest & -> & Hbody)]].
    + by eexists.
    + rewrite Write_loop_tail by done. by eexists.
    + rewrite Write_loop_line by done.
      destruct (logio.stage_line w (body ++ [nl])) as [[w1 line] [e|]]; [by eexists|].
      destruct (logio.make_room w1 line) as [w2 [e|]]; [by eexists|].
      destruct (logio.commit_line w2 line) as [w3 [e|]]; [by eexists|].
      apply IH. rewrite length_app in Hlen. simpl in Hlen. lia.
Qed.

Lemma Write_returns w (data : list byte) : is_Some (logio.Write w data).
Proof. apply Write_loop_returns. lia. Qed.

(** ** The underlying writer and Flush *)

Lemma io_Write_all k (p : list byte) k' :
  io.Write k p = (k', Z.of_nat (length p), None) →
  io.received k' = io.received k ++ p.
Proof.
  unfold io.Write. destruct (io.script k) as [|[|m e] s]; intros [= <- ]; simpl; try done.
  assert (Hlen : length (take m p) = length p) by lia.
  rewrite length_take in Hlen. rewrite take_ge; [done | lia].
Qed.

Lemma WriteTo_ok (b : list byte) k b' k' m :
  bytes.WriteTo b k = (b', k', m, None) →
  b' = [] ∧ io.received k' = io.received k ++ b.
Proof.
  unfold bytes.WriteTo.
  destruct (0 <? bytes.Len b) eqn:Hlen.
  - destruct (io.Write k b) as [[k1 m1] [e|]] eqn:Hw; [done|].
    destruct (m1 =? bytes.Len b) eqn:Hm; simpl; [|done].
    intros [= <- <- <-]. split; [done|].
    apply Z.eqb_eq in Hm. subst m1. by apply io_Write_all.
  - intros [= <- <- <-]. split; [done|].
    apply Z.ltb_ge in Hlen. unfold bytes.Len in Hlen.
    destruct b; [by rewrite app_nil_r | simpl in Hlen; lia].
Qed.

(** A [Flush] that returns nil has handed the committed bytes over, and
    nothing else has changed but the saved line count. *)
Lemma Flush_ok w w' :
  logio.Flush w = (w', None) →
  ∃ k', w' = logio.mkWriter (logio.bufsize w) k' [] (logio.linebuf w)
               (logio.finished w) (logio.lineCount w) (logio.lineCount w)
               (logio.prevLineCount w) (logio.worthFlushing w)
        ∧ io.received k' = io.received (logio.writer w) ++ logio.buffer w.
Proof.
  unfold logio.Flush.
  destruct (bytes.Len (logio.buffer w) >? 0) eqn:Hlen.
  - destruct (bytes.WriteTo (logio.buffer w) (logio.writer w))
      as [[[b k] m] [e|]] eqn:Hw; [done|].
    apply WriteTo_ok in Hw as [-> Hk]. intros [= <-]. by exists k.
  - intros [= <-]. exists (logio.writer w). split; [done|].
    assert (logio.buffer w = []) as ->; [|by rewrite app_nil_r].
    unfold bytes.Len in Hlen. destruct (logio.buffer w); [done|].
    exfalso. rewrite Z.gtb_ltb in Hlen. apply Z.ltb_ge in Hlen.
    simpl length in Hlen. lia.
Qed.

(** A [Flush] that returns an error has changed the committed buffer and
    the underlying writer only. *)
Lemma Flush_err w w' e :
  logio.Flush w = (w', Some e) →
  ∃ b k, w' = logio.set_writer (logio.set_buffer w b) k.
Proof.
  unfold logio.Flush.
  destruct (bytes.Len (logio.buffer w) >? 0); [|done].
  destruct (bytes.WriteTo (logio.buffer w) (logio.writer w)) as [[[b k] m] [e'|]];
    [|done].
  intros [= <- _]. by exists b, k.
Qed.

(** C7. Flush idempotence: after a [Flush] that succeeded, a second [Flush]
    with no [Write] in between returns nil and changes nothing: not the
    writer, and not the underlying writer, which is handed no byte. *)
Theorem Flush_idempotent w w1 :
  logio.Flush w = (w1, None) →
  logio.Flush w1 = (w1, None)
  ∧ io.received (logio.writer (logio.Flush w1).1) = io.received (logio.writer w1).
Proof.
  intros Hf. apply Flush_ok in Hf as (k & -> & _).
  split; reflexivity.
Qed.

Lemma Flush_idempotent_witness :
  logio.Flush samples.two_lines
  = (logio.mkWriter 4
       (io.mkWriter (bytes_of "1" ++ [nl] ++ bytes_of "2" ++ [nl]) [])
       [] [] true 2 2 0 true, None)
  ∧ io.received (logio.writer samples.two_lines) = []
  ∧ logio.Flush
      (logio.mkWriter 4
         (io.mkWriter (bytes_of "1" ++ [nl] ++ bytes_of "2" ++ [nl]) [])
         [] [] true 2 2 0 true)
    = (logio.mkWriter 4
         (io.mkWriter (bytes_of "1" ++ [nl] ++ bytes_of "2" ++ [nl]) [])
         [] [] true 2 2 0 true, None)
  ∧ io.received
      (logio.writer
         (logio.Flush
            (logio.mkWriter 4
               (io.mkWriter (bytes_of "1" ++ [nl] ++ bytes_of "2" ++ [nl]) [])
               [] [] true 2 2 0 true)).1)
    = io.received
        (logio.writer
           (logio.mkWriter 4
              (io.mkWriter (bytes_of "1" ++ [nl] ++ bytes_of "2" ++ [nl]) [])
              [] [] true 2 2 0 true)).
Proof.
  assert (H : logio.Flush samples.two_lines
              = (logio.mkWriter 4
                   (io.mkWriter (bytes_of "1" ++ [nl] ++ bytes_of "2" ++ [nl]) [])
                   [] [] true 2 2 0 true, None)) by reflexivity.
  split; [exact H|]. split; [reflexivity|].
  exact (Flush_idempotent samples.two_lines _ H).
Defined.

(** C10. [DumpState] is a reader of the writer: it returns the writer as it
    was, every field of it, and [dest] with the checkpoint appended, so what
    follows the call is what would have followed without it. *)
Theorem DumpState_frame w (dest : list byte) :
  logio.DumpState w dest = (w, dest ++ calls.checkpoint w).
Proof.
  unfold logio.DumpState, calls.checkpoint, bytes.Write, bytes.Bytes, bytes.Len.
  simpl. f_equal. rewrite <- !app_assoc. reflexivity.
Qed.

(** C1. On a fresh writer, [Write] of the chunk of the documentation returns
    9: the three staged bytes after the last newline are counted. *)
Theorem Write_counts_staged_bytes :
  logio.NewWriter samples.sink = Some samples.fresh
  ∧ ∃ w', logio.Write samples.fresh samples.chunk_123456 = Some (w', 9, None)
          ∧ logio.buffer w' = bytes_of "1" ++ [nl] ++ bytes_of "2" ++ [nl]
                              ++ bytes_of "3" ++ [nl]
          ∧ logio.linebuf w' = bytes_of "456".
Proof.
  split; [reflexivity|]. eexists. split; [vm_compute; reflexivity|].
  split; reflexivity.
Qed.

(** A [Write] that returns nil returns the length of its argument, whatever
    the state of the writer. *)
Lemma Write_loop_count fuel w (data : list byte) nn w' n :
  logio.Write_loop fuel w data nn = Some (w', n, None) →
  n = nn + Z.of_nat (length data).
Proof.
  revert w data nn. induction fuel as [|fuel IH]; intros w data nn.
  - destruct data; simpl; [|done]. intros [= _ <-]. lia.
  - destruct (chunk_cases data) as [-> | [[Hne Hnl] | (body & rest & -> & Hbody)]].
    + rewrite Write_loop_nil. intros [= _ <-]. simpl. lia.
    + rewrite Write_loop_tail by done. by intros [= _ <-].
    + rewrite Write_loop_line by done.
      destruct (logio.stage_line w (body ++ [nl])) as [[w1 line] [e|]]; [done|].
      destruct (logio.make_room w1 line) as [w2 [e|]]; [done|].
      destruct (logio.commit_line w2 line) as [w3 [e|]]; [done|].
      intros Hw. apply IH in Hw. rewrite length_app. simpl length. lia.
Qed.

Lemma Write_returns_length w (data : list byte) w' n :
  logio.Write w data = Some (w', n, None) → n = Z.of_nat (length data).
Proof. intros H. apply Write_loop_count in H. lia. Qed.

(** ** The steps of a round and the line counters *)

Lemma stage_line_eq w (line : list byte) :
  logio.stage_line w line =
    if logio.finished w then (w, line, None)
    else (logio.set_linebuf w [], logio.linebuf w ++ line, None).
Proof. unfold logio.stage_line. by destruct (logio.finished w). Qed.

Lemma commit_line_eq w (line : list byte) :
  logio.commit_line w line =
    (logio.set_finished
       (logio.set_lineCount (logio.set_buffer w (logio.buffer w ++ line))
          (int_wrap (logio.lineCount w + 1))) true, None).
Proof. reflexivity. Qed.

Lemma count_nl_nonneg (data : list byte) : 0 <= calls.count_nl data.
Proof. unfold calls.count_nl. lia. Qed.

Lemma count_nl_line (body rest : list byte) :
  calls.count_nl (body ++ nl :: rest) = calls.count_nl body + 1 + calls.count_nl rest.
Proof.
  unfold calls.count_nl. rewrite filter_app, filter_cons_True by done.
  rewrite length_app. simpl length. lia.
Qed.

Lemma Flush_counters w w' err :
  calls.counters_ok w → logio.Flush w = (w', err) →
  calls.counters_ok w' ∧ logio.lineCount w' = logio.lineCount w.
Proof.
  unfold calls.counters_ok. intros Hc Hf. destruct err as [e|].
  - apply Flush_err in Hf as (b & k & ->). simpl. lia.
  - apply Flush_ok in Hf as (k & -> & _). simpl. lia.
Qed.

Lemma make_room_counters w (line : list byte) w' err :
  calls.counters_ok w → logio.make_room w line = (w', err) →
  calls.counters_ok w' ∧ logio.lineCount w' = logio.lineCount w.
Proof.
  unfold logio.make_room. intros Hc.
  destruct (_ >? _).
  - intros Hf. apply Flush_counters in Hf; [done|]. exact Hc.
  - by intros [= <- _].
Qed.

Lemma Write_loop_counters fuel w (data : list byte) nn w' n err :
  calls.counters_ok w →
  logio.lineCount w + calls.count_nl data <= max_int →
  logio.Write_loop fuel w data nn = Some (w', n, err) →
  calls.counters_ok w' ∧ logio.lineCount w' <= logio.lineCount w + calls.count_nl data.
Proof.
  revert w data nn. induction fuel as [|fuel IH]; intros w data nn Hc Hmax.
  - destruct data; simpl; [|done]. intros [= <- _ _].
    pose proof (count_nl_nonneg []). split; [done | lia].
  - destruct (chunk_cases data) as [-> | [[Hne Hnl] | (body & rest & -> & Hbody)]].
    + rewrite Write_loop_nil. intros [= <- _ _].
      pose proof (count_nl_nonneg []). split; [done | lia].
    + rewrite Write_loop_tail by done. intros [= <- _ _].
      pose proof (count_nl_nonneg data). split; [exact Hc | simpl; lia].
    + rewrite Write_loop_line by done. rewrite stage_line_eq.
      rewrite count_nl_line in *.
      pose proof (count_nl_nonneg body). pose proof (count_nl_nonneg rest).
      set (w1 := if logio.finished w then w else logio.set_linebuf w []).
      set (line := if logio.finished w then body ++ [nl]
                   else logio.linebuf w ++ body ++ [nl]).
      assert (Hc1 : calls.counters_ok w1 ∧ logio.lineCount w1 = logio.lineCount w).
      { unfold w1. by destruct (logio.finished w). }
      destruct Hc1 as [Hc1 Hl1].
      assert (Hstep :
        match logio.make_room w1 line with
        | (w2, Some e) => Some (w2, nn, Some e)
        | (w2, None) =>
            match logio.commit_line w2 line with
            | (w3, Some e) => Some (w3, nn, Some e)
            | (w3, None) =>
                logio.Write_loop fuel w3 rest (nn + (Z.of_nat (length body) + 1))
            end
        end = Some (w', n, err) →
        calls.counters_ok w' ∧
        logio.lineCount w' <= logio.lineCount w + (calls.count_nl body + 1 + calls.count_nl rest)).
      { destruct (logio.make_room w1 line) as [w2 [e|]] eqn:Hroom.
        - intros [= <- _ _]. apply make_room_counters in Hroom as [? ?]; [|done].
          split; [done | lia].
        - apply make_room_counters in Hroom as [Hc2 Hl2]; [|done].
          rewrite commit_line_eq. intros Hw.
          unfold calls.counters_ok in Hc2.
          apply IH in Hw.
          + simpl in Hw. rewrite int_wrap_small in Hw by (unfold max_int in *; lia).
            destruct Hw as [? ?]. split; [done | lia].
          + unfold calls.counters_ok. simpl.
            rewrite int_wrap_small by (unfold max_int in *; lia). lia.
          + simpl. rewrite int_wrap_small by (unfold max_int in *; lia). lia. }
      unfold w1, line in Hstep. destruct (logio.finished w); exact Hstep.
Qed.

Lemma FlushAll_counters w w' err :
  calls.counters_ok w → logio.FlushAll w = (w', err) → calls.counters_ok w'.
Proof.
  unfold logio.FlushAll. intros Hc.
  destruct (logio.Flush w) as [w1 [e|]] eqn:Hf.
  - intros [= <- _]. by apply Flush_counters in Hf as [? _].
  - apply Flush_counters in Hf as [Hc1 _]; [|done].
    destruct (_ >? _).
    + destruct (bytes.WriteTo _ _) as [[[b k] m] [e|]]; by intros [= <- _].
    + by intros [= <- _].
Qed.

(** Every state a writer goes through has its counters in order. *)
Lemma Reachable_counters w : calls.Reachable w → calls.counters_ok w.
Proof.
  induction 1 as [k size w Hnew | w data w' n err _ IH Hmax Hw
                 | w w' err _ IH Hf | w w' err _ IH Hf
                 | w res w' _ IH Hwf | w dest w' dest' _ IH Hd].
  - unfold logio.NewWriterSize in Hnew. destruct (size <? 0); [done|].
    injection Hnew as <-. unfold calls.counters_ok. simpl. lia.
  - by apply Write_loop_counters in Hw as [? _].
  - by apply Flush_counters in Hf as [? _].
  - by apply FlushAll_counters in Hf.
  - unfold logio.WorthFlushing in Hwf. by injection Hwf as _ <-.
  - rewrite DumpState_frame in Hd. by injection Hd as <- _.
Qed.

(** ** WorthFlushing *)

(** C5. In every state a writer goes through, [WorthFlushing] returns true
    exactly when, at entry, the flag is set, fewer lines are saved than
    counted, and the saved count is the one of the previous check; whatever
    it returns, the previous count is afterwards the saved count, the flag
    is set, and every other field is as it was. *)
Theorem WorthFlushing_reachable w :
  calls.Reachable w →
  ((logio.WorthFlushing w).1 = true ↔
     logio.worthFlushing w = true
     ∧ logio.savedLineCount w < logio.lineCount w
     ∧ logio.savedLineCount w = logio.prevLineCount w)
  ∧ logio.prevLineCount (logio.WorthFlushing w).2 = logio.savedLineCount w
  ∧ logio.worthFlushing (logio.WorthFlushing w).2 = true
  ∧ logio.savedLineCount (logio.WorthFlushing w).2 = logio.savedLineCount w
  ∧ logio.lineCount (logio.WorthFlushing w).2 = logio.lineCount w
  ∧ logio.bufsize (logio.WorthFlushing w).2 = logio.bufsize w
  ∧ logio.writer (logio.WorthFlushing w).2 = logio.writer w
  ∧ logio.buffer (logio.WorthFlushing w).2 = logio.buffer w
  ∧ logio.linebuf (logio.WorthFlushing w).2 = logio.linebuf w
  ∧ logio.finished (logio.WorthFlushing w).2 = logio.finished w.
Proof.
  intros Hr. apply Reachable_counters in Hr. unfold calls.counters_ok in Hr.
  split; [|by split_and!].
  unfold logio.WorthFlushing. cbn [fst].
  rewrite !andb_true_iff, negb_true_iff, Z.eqb_neq, Z.eqb_eq.
  split; intros ((? & ?) & ?) || intros (? & ? & ?); repeat split; (done || lia).
Qed.

Lemma WorthFlushing_reachable_witness :
  (calls.Reachable samples.after_chunk_flushed
   ∧ ((logio.WorthFlushing samples.after_chunk_flushed).1 = true ↔
        logio.worthFlushing samples.after_chunk_flushed = true
        ∧ logio.savedLineCount samples.after_chunk_flushed
          < logio.lineCount samples.after_chunk_flushed
        ∧ logio.savedLineCount samples.after_chunk_flushed
          = logio.prevLineCount samples.after_chunk_flushed)
   ∧ logio.prevLineCount (logio.WorthFlushing samples.after_chunk_flushed).2 = 3
   ∧ logio.worthFlushing (logio.WorthFlushing samples.after_chunk_flushed).2 = true)
  ∧ (calls.Reachable samples.after_chunk
     ∧ (logio.WorthFlushing samples.after_chunk).1 = true).
Proof.
  assert (Hr : calls.Reachable samples.after_chunk_flushed).
  { apply (calls.reach_Flush
             (logio.mkWriter 4
                (io.mkWriter (bytes_of "1" ++ [nl] ++ bytes_of "2" ++ [nl]) [])
                (bytes_of "3" ++ [nl]) (bytes_of "456") false 3 2 0 false)
             _ None).
    - apply (calls.reach_Write
               (logio.mkWriter 4 samples.sink [] [] true 0 0 0 true)
               samples.chunk_123456 _ 9 None).
      + apply (calls.reach_new samples.sink 4). reflexivity.
      + vm_compute. discriminate.
      + vm_compute. reflexivity.
    - vm_compute. reflexivity. }
  assert (Hr' : calls.Reachable samples.after_chunk).
  { apply (calls.reach_Write samples.fresh samples.chunk_123456 _ 9 None).
    - apply (calls.reach_new samples.sink logio.defaultBufferSize). reflexivity.
    - vm_compute. discriminate.
    - vm_compute. reflexivity. }
  split.
  - split; [exact Hr|].
    destruct (WorthFlushing_reachable samples.after_chunk_flushed Hr)
      as (Hiff & Hprev & Hflag & _).
    split; [exact Hiff|]. split; [exact Hprev | exact Hflag].
  - split; [exact Hr'|].
    apply (proj1 (WorthFlushing_reachable samples.after_chunk Hr')).
    vm_compute. repeat split.
Defined.

(** ** Line integrity *)

Lemma whole_lines_nil : calls.whole_lines [].
Proof. exists []. by split. Qed.

Lemma whole_lines_app (a b : list byte) :
  calls.whole_lines a → calls.whole_lines b → calls.whole_lines (a ++ b).
Proof.
  intros (la & -> & Ha) (lb & -> & Hb). exists (la ++ lb). split.
  - by rewrite concat_app.
  - by apply Forall_app.
Qed.

Lemma whole_lines_line (l : list byte) : calls.line l → calls.whole_lines l.
Proof.
  intros Hl. exists [l]. split; [simpl; by rewrite app_nil_r | by constructor].
Qed.

(** Whole lines end with a newline. *)
Lemma whole_lines_last (l : list byte) :
  calls.whole_lines l → l = [] ∨ last l = Some nl.
Proof.
  intros (ls & -> & Hls). induction ls as [|x ls IH] using rev_ind; [by left|].
  right. apply Forall_app in Hls as [_ Hx].
  inversion Hx as [|? ? (body & -> & _) _]; subst.
  rewrite concat_app. simpl. rewrite app_nil_r, app_assoc. apply last_snoc.
Qed.

Lemma staged_line (staged body : list byte) :
  nl ∉ staged → nl ∉ body → calls.line (staged ++ body ++ [nl]).
Proof.
  intros Hs Hb. exists (staged ++ body). split; [by rewrite app_assoc|].
  rewrite elem_of_app. tauto.
Qed.

Lemma Flush_integrity r0 B w w' :
  calls.line_integrity r0 B w → logio.Flush w = (w', None) →
  calls.line_integrity r0 B w'
  ∧ logio.linebuf w' = logio.linebuf w ∧ logio.finished w' = logio.finished w.
Proof.
  intros (out & Hrec & HB & Hout & Hbuf & Hstaged) Hf.
  apply Flush_ok in Hf as (k & -> & Hk). simpl. split; [|done].
  exists (out ++ logio.buffer w). simpl. repeat split.
  - by rewrite Hk, Hrec, app_assoc.
  - by rewrite HB, app_assoc.
  - by apply whole_lines_app.
  - apply whole_lines_nil.
  - done.
Qed.

Lemma stage_integrity r0 B w (body : list byte) w1 l1 err :
  calls.line_integrity r0 B w → calls.staging_ok w → nl ∉ body →
  logio.stage_line w (body ++ [nl]) = (w1, l1, err) →
  err = None ∧ calls.line_pending r0 (B ++ body ++ [nl]) w1 l1.
Proof.
  intros (out & Hrec & HB & Hout & Hbuf & Hstaged) Hst Hbody.
  rewrite stage_line_eq. unfold calls.staging_ok in Hst.
  pose proof (staged_line (logio.linebuf w) body Hstaged Hbody) as Hline.
  destruct (logio.finished w); intros [= <- <- <-]; (split; [done|]); exists out.
  - rewrite Hst in * by done. simpl in Hline.
    repeat split; try done. rewrite HB, app_nil_r, <- !app_assoc. done.
  - simpl. repeat split; try done. rewrite HB, <- !app_assoc. done.
Qed.

Lemma make_room_integrity r0 B w (l : list byte) w2 :
  calls.line_pending r0 B w l → logio.make_room w l = (w2, None) →
  calls.line_pending r0 B w2 l.
Proof.
  intros (out & Hrec & HB & Hout & Hbuf & Hl & Hlb). unfold logio.make_room.
  destruct (_ >? _).
  - intros Hf. apply Flush_ok in Hf as (k & -> & Hk). simpl in *.
    exists (out ++ logio.buffer w). simpl. repeat split; try done.
    + by rewrite Hk, Hrec, app_assoc.
    + by rewrite HB, <- !app_assoc.
    + by apply whole_lines_app.
    + apply whole_lines_nil.
  - intros [= <-]. by exists out.
Qed.

Lemma commit_integrity r0 B w (l : list byte) w3 err :
  calls.line_pending r0 B w l → logio.commit_line w l = (w3, err) →
  err = None ∧ calls.line_integrity r0 B w3 ∧ calls.staging_ok w3.
Proof.
  intros (out & Hrec & HB & Hout & Hbuf & Hl & Hlb).
  rewrite commit_line_eq. intros [= <- <-]. split; [done|]. split.
  - exists out. simpl. rewrite Hlb. repeat split; try done.
    + by rewrite HB, app_nil_r.
    + apply whole_lines_app; [done | by apply whole_lines_line].
    + apply not_elem_of_nil.
  - intros _. exact Hlb.
Qed.

Lemma Write_loop_integrity r0 fuel w (data : list byte) nn B w' n :
  calls.line_integrity r0 B w → calls.staging_ok w →
  logio.Write_loop fuel w data nn = Some (w', n, None) →
  calls.line_integrity r0 (B ++ data) w' ∧ calls.staging_ok w'.
Proof.
  revert w data nn B. induction fuel as [|fuel IH]; intros w data nn B Hi Hs.
  - destruct data; simpl; [|done]. intros [= <- _]. by rewrite app_nil_r.
  - destruct (chunk_cases data) as [-> | [[Hne Hnl] | (body & rest & -> & Hbody)]].
    + rewrite Write_loop_nil. intros [= <- _]. by rewrite app_nil_r.
    + rewrite Write_loop_tail by done. intros [= <- _].
      destruct Hi as (out & Hrec & HB & Hout & Hbuf & Hstaged). split; [|done].
      exists out. simpl. repeat split; try done.
      * by rewrite HB, <- !app_assoc.
      * rewrite elem_of_app. tauto.
    + rewrite Write_loop_line by done.
      destruct (logio.stage_line w (body ++ [nl])) as [[w1 l1] e1] eqn:Hstage.
      eapply stage_integrity in Hstage as [-> Hp]; [|done..].
      destruct (logio.make_room w1 l1) as [w2 [e|]] eqn:Hroom; [done|].
      eapply make_room_integrity in Hroom; [|done].
      destruct (logio.commit_line w2 l1) as [w3 e3] eqn:Hcommit.
      eapply commit_integrity in Hcommit as (-> & Hi3 & Hs3); [|done].
      intros Hw. eapply IH in Hw; [|done..].
      by rewrite (cons_middle nl body rest), !app_assoc, <- (app_assoc B).
Qed.

Lemma run_integrity r0 cs : ∀ w B w' errs,
  calls.line_integrity r0 B w → calls.staging_ok w →
  calls.run w cs = Some (w', errs) →
  Forall (λ err, err = None) errs →
  calls.line_integrity r0 (B ++ calls.submitted cs) w' ∧ calls.staging_ok w'.
Proof.
  induction cs as [|c cs IH]; intros w B w' errs Hi Hs; simpl.
  - intros [= <- _] _. by rewrite app_nil_r.
  - destruct (calls.do_call w c) as [[w1 err]|] eqn:Hc; [|done].
    destruct (calls.run w1 cs) as [[w2 errs2]|] eqn:Hrun; [|done].
    intros [= <- <-] Herrs. apply Forall_cons in Herrs as [-> Herrs].
    destruct c as [data|]; simpl in Hc.
    + destruct (logio.Write w data) as [[[w1' n] e]|] eqn:Hw; [|done].
      injection Hc as -> ->.
      apply (Write_loop_integrity r0 _ _ _ _ B) in Hw as [Hi1 Hs1]; [|done..].
      rewrite app_assoc. by eapply IH.
    + injection Hc as Hf.
      destruct (Flush_integrity r0 B w w1 Hi Hf) as (Hi1 & Hlb & Hfin).
      eapply IH; [exact Hi1 | | exact Hrun | exact Herrs].
      unfold calls.staging_ok. by rewrite Hlb, Hfin.
Qed.

(** A sequence of calls is carried out to its end. *)
Lemma run_returns cs : ∀ w, is_Some (calls.run w cs).
Proof.
  induction cs as [|c cs IH]; intros w; simpl; [by eexists|].
  assert (Hc : is_Some (calls.do_call w c)).
  { destruct c as [data|]; simpl; [|by eexists].
    destruct (Write_returns w data) as [[[w1 n] e] ->]. by eexists. }
  destruct Hc as [[w1 err] ->]. destruct (IH w1) as [[w2 errs] ->]. by eexists.
Qed.

(** C3, as amended. Line integrity: for every sequence of [Write] and
    [Flush] calls on a new writer, none of which returned an error, what the
    underlying writer has been handed is a prefix of the bytes submitted that
    is made of whole newline-terminated lines, and what is left of the bytes
    submitted is held by the writer: whole lines in the committed buffer, and
    after them at most one fragment without a newline in the staging area.
    (Every sequence of calls is carried out: [run_returns].) *)
Theorem line_integrity_of_calls k size w0 cs w errs :
  logio.NewWriterSize k size = Some w0 →
  calls.run w0 cs = Some (w, errs) →
  Forall (λ err, err = None) errs →
  calls.line_integrity (io.received k) (calls.submitted cs) w.
Proof.
  intros Hnew Hrun Herrs.
  unfold logio.NewWriterSize in Hnew. destruct (size <? 0); [done|].
  injection Hnew as <-.
  eapply (run_integrity (io.received k) cs _ [] w errs);
    [| | exact Hrun | exact Herrs]; [|done].
  exists []. simpl. rewrite app_nil_r. repeat split; try done.
  - apply whole_lines_nil.
  - apply whole_lines_nil.
  - apply not_elem_of_nil.
Qed.

Lemma line_integrity_of_calls_witness :
  logio.NewWriterSize samples.sink 4
    = Some (logio.mkWriter 4 samples.sink [] [] true 0 0 0 true)
  ∧ calls.run (logio.mkWriter 4 samples.sink [] [] true 0 0 0 true)
              samples.chunk_flushed
    = Some (samples.after_chunk_flushed, [None; None])
  ∧ Forall (λ err : option io.error, err = None) [None; None]
  ∧ calls.line_integrity (io.received samples.sink)
      (calls.submitted samples.chunk_flushed) samples.after_chunk_flushed.
Proof.
  assert (H1 : logio.NewWriterSize samples.sink 4
               = Some (logio.mkWriter 4 samples.sink [] [] true 0 0 0 true))
    by reflexivity.
  assert (H2 : calls.run (logio.mkWriter 4 samples.sink [] [] true 0 0 0 true)
                 samples.chunk_flushed
               = Some (samples.after_chunk_flushed, [None; None]))
    by (vm_compute; reflexivity).
  assert (H3 : Forall (λ err : option io.error, err = None) [None; None])
    by (repeat constructor).
  split; [exact H1|]. split; [exact H2|]. split; [exact H3|].
  exact (line_integrity_of_calls _ _ _ _ _ _ H1 H2 H3).
Defined.

(** C3, as it was stated, fails when the underlying writer fails: a
    writer that takes one byte of the line ["ab\n"] and returns an error has
    a torn line, and the rest of the line stays in the committed buffer. *)
Lemma line_integrity_torn_by_failed_write :
  ∃ w0 w errs,
    logio.NewWriterSize samples.full_sink 16 = Some w0
    ∧ calls.run w0 samples.one_line_flushed = Some (w, errs)
    ∧ io.received (logio.writer w) = bytes_of "a"
    ∧ logio.buffer w = bytes_of "b" ++ [nl]
    ∧ ¬ calls.line_integrity (io.received samples.full_sink)
          (calls.submitted samples.one_line_flushed) w.
Proof.
  eexists _, _, _. split; [reflexivity|]. split; [vm_compute; reflexivity|].
  split; [reflexivity|]. split; [reflexivity|].
  intros (out & Hrec & _ & Hout & _). simpl in Hrec. subst out.
  apply whole_lines_last in Hout as [Hnil | Hlast]; [done|].
  vm_compute in Hlast. discriminate.
Qed.

(** ** The capacity check *)

(** C6. In a round of [Write] on a complete line ([line] is the line after
    staging, [w1] the writer then): when the committed bytes and the line
    together are more than the capacity, the committed bytes are flushed
    with the hint cleared, and the line is appended only when that [Flush]
    returned nil, to a committed buffer that is then empty; in every case the
    committed buffer is not longer than the capacity when the line is
    appended, and the line is appended whole. *)
Theorem capacity_check_before_append fuel w (body rest : list byte) nn w1 line :
  nl ∉ body →
  0 <= logio.bufsize w →
  logio.stage_line w (body ++ [nl]) = (w1, line, None) →
  ∃ w2 err,
    logio.make_room w1 line = (w2, err)
    ∧ (bytes.Len (logio.buffer w1) + Z.of_nat (length line) > logio.bufsize w1 →
       (w2, err) = logio.Flush (logio.set_worthFlushing w1 false)
       ∧ logio.worthFlushing w2 = false)
    ∧ (bytes.Len (logio.buffer w1) + Z.of_nat (length line) <= logio.bufsize w1 →
       w2 = w1 ∧ err = None)
    ∧ match err with
      | Some e =>
          logio.Write_loop (S fuel) w (body ++ nl :: rest) nn = Some (w2, nn, Some e)
      | None =>
          bytes.Len (logio.buffer w2) <= logio.bufsize w2
          ∧ (bytes.Len (logio.buffer w1) + Z.of_nat (length line) > logio.bufsize w1 →
             logio.buffer w2 = []
             ∧ io.received (logio.writer w2)
               = io.received (logio.writer w1) ++ logio.buffer w1)
          ∧ logio.Write_loop (S fuel) w (body ++ nl :: rest) nn
            = logio.Write_loop fuel
                (logio.set_finished
                   (logio.set_lineCount
                      (logio.set_buffer w2 (logio.buffer w2 ++ line))
                      (int_wrap (logio.lineCount w2 + 1))) true)
                rest (nn + (Z.of_nat (length body) + 1))
      end.
Proof.
  intros Hbody Hsize Hstage.
  assert (Hsize1 : logio.bufsize w1 = logio.bufsize w).
  { rewrite stage_line_eq in Hstage.
    destruct (logio.finished w); by injection Hstage as <- _. }
  pose proof (Write_loop_line fuel w body rest nn Hbody) as Hround.
  rewrite Hstage in Hround.
  destruct (logio.make_room w1 line) as [w2 err] eqn:Hroom.
  exists w2, err. split; [done|].
  unfold logio.make_room in Hroom.
  destruct (_ >? _) eqn:Hfit.
  - apply Z.gtb_lt in Hfit.
    assert (Hflag : logio.worthFlushing w2 = false).
    { destruct err as [e|].
      - apply Flush_err in Hroom as (b & k & ->). done.
      - apply Flush_ok in Hroom as (k & -> & _). done. }
    split; [by intros _|]. split; [lia|].
    destruct err as [e|]; [exact Hround|].
    rewrite commit_line_eq in Hround.
    apply Flush_ok in Hroom as (k & -> & Hk).
    split; [unfold bytes.Len; simpl; lia|]. split; [by intros _|]. exact Hround.
  - rewrite Z.gtb_ltb in Hfit. apply Z.ltb_ge in Hfit.
    injection Hroom as <- <-.
    split; [lia|]. split; [by intros _|].
    rewrite commit_line_eq in Hround.
    split; [unfold bytes.Len in *; lia|]. split; [lia|]. exact Hround.
Qed.

Lemma capacity_check_before_append_witness :
  (nl ∉ bytes_of "3")
  ∧ 0 <= logio.bufsize samples.two_lines
  ∧ logio.stage_line samples.two_lines (bytes_of "3" ++ [nl])
    = (samples.two_lines, bytes_of "3" ++ [nl], None)
  ∧ ∃ w2 err,
      logio.make_room samples.two_lines (bytes_of "3" ++ [nl]) = (w2, err)
      ∧ (bytes.Len (logio.buffer samples.two_lines)
           + Z.of_nat (length (bytes_of "3" ++ [nl]))
         > logio.bufsize samples.two_lines →
         (w2, err) = logio.Flush (logio.set_worthFlushing samples.two_lines false)
         ∧ logio.worthFlushing w2 = false)
      ∧ (bytes.Len (logio.buffer samples.two_lines)
           + Z.of_nat (length (bytes_of "3" ++ [nl]))
         <= logio.bufsize samples.two_lines →
         w2 = samples.two_lines ∧ err = None)
      ∧ match err with
        | Some e =>
            logio.Write_loop 1 samples.two_lines
              (bytes_of "3" ++ nl :: bytes_of "456") 0 = Some (w2, 0, Some e)
        | None =>
            bytes.Len (logio.buffer w2) <= logio.bufsize w2
            ∧ (bytes.Len (logio.buffer samples.two_lines)
                 + Z.of_nat (length (bytes_of "3" ++ [nl]))
               > logio.bufsize samples.two_lines →
               logio.buffer w2 = []
               ∧ io.received (logio.writer w2)
                 = io.received (logio.writer samples.two_lines)
                   ++ logio.buffer samples.two_lines)
            ∧ logio.Write_loop 1 samples.two_lines
                (bytes_of "3" ++ nl :: bytes_of "456") 0
              = logio.Write_loop 0
                  (logio.set_finished
                     (logio.set_lineCount
                        (logio.set_buffer w2 (logio.buffer w2 ++ (bytes_of "3" ++ [nl])))
                        (int_wrap (logio.lineCount w2 + 1))) true)
                  (bytes_of "456") (0 + (Z.of_nat (length (bytes_of "3")) + 1))
        end.
Proof.
  assert (H1 : nl ∉ bytes_of "3").
  { intros H. apply list_elem_of_singleton in H. discriminate H. }
  assert (H2 : 0 <= logio.bufsize samples.two_lines) by (simpl; lia).
  assert (H3 : logio.stage_line samples.two_lines (bytes_of "3" ++ [nl])
               = (samples.two_lines, bytes_of "3" ++ [nl], None)) by reflexivity.
  split; [exact H1|]. split; [exact H2|]. split; [exact H3|].
  exact (capacity_check_before_append 0 samples.two_lines (bytes_of "3")
           (bytes_of "456") 0 samples.two_lines (bytes_of "3" ++ [nl]) H1 H2 H3).
Defined.

(** ** The fields of a checkpoint *)

Lemma Z_of_byte_bounded b : 0 <= bindec.Z_of_byte b < 256.
Proof.
  unfold bindec.Z_of_byte. pose proof (Byte.to_N_bounded b). lia.
Qed.

Lemma Z_of_byte_of_Z z : bindec.Z_of_byte (binenc.byte_of_Z z) = z mod 256.
Proof.
  unfold bindec.Z_of_byte, binenc.byte_of_Z.
  pose proof (Z.mod_pos_bound z 256 ltac:(lia)) as Hz.
  destruct (Byte.of_N (Z.to_N (z mod 256))) as [b|] eqn:Hb.
  - apply Byte.to_of_N in Hb. simpl. rewrite Hb. lia.
  - apply Byte.of_N_None_iff in Hb. lia.
Qed.

Lemma le_value_four b0 b1 b2 b3 :
  calls.le_value [b0; b1; b2; b3] =
    bindec.Z_of_byte b0 + 2 ^ 8 * bindec.Z_of_byte b1
    + 2 ^ 16 * bindec.Z_of_byte b2 + 2 ^ 24 * bindec.Z_of_byte b3.
Proof.
  cbn [calls.le_value].
  change (2 ^ 8) with 256. change (2 ^ 16) with 65536. change (2 ^ 24) with 16777216.
  lia.
Qed.

Lemma Uint32_field (f rest : list byte) :
  length f = 4%nat → bindec.Uint32 (f ++ rest) = (calls.le_value f, true, rest).
Proof.
  destruct f as [|b0 [|b1 [|b2 [|b3 [|]]]]]; try done. intros _.
  by rewrite le_value_four.
Qed.

Lemma Uint32_inv rr v rr' :
  bindec.Uint32 rr = (v, true, rr') →
  ∃ f, rr = f ++ rr' ∧ length f = 4%nat ∧ v = calls.le_value f.
Proof.
  destruct rr as [|b0 [|b1 [|b2 [|b3 rest]]]]; try done.
  intros [= <- <-]. exists [b0; b1; b2; b3]. by rewrite le_value_four.
Qed.

Lemma le_value_Uint32 v : 0 <= v < 2 ^ 32 → calls.le_value (binenc.Uint32 v) = v.
Proof.
  intros Hv. unfold binenc.Uint32. rewrite le_value_four, !Z_of_byte_of_Z.
  change (2 ^ 8) with 256. change (2 ^ 16) with 65536.
  change (2 ^ 24) with 16777216. change (2 ^ 32) with 4294967296 in Hv.
  Z.to_euclidean_division_equations. lia.
Qed.

Lemma Uint32_round v (rest : list byte) :
  0 <= v < 2 ^ 32 → bindec.Uint32 (binenc.Uint32 v ++ rest) = (v, true, rest).
Proof.
  intros Hv. rewrite Uint32_field by done. by rewrite le_value_Uint32.
Qed.

Lemma Bytes_field (bs rest : list byte) :
  bindec.Bytes (bs ++ rest) (Z.of_nat (length bs)) = (bs, true, rest).
Proof.
  unfold bindec.Bytes.
  assert (H : (Z.of_nat (length bs) <? 0) || (Z.of_nat (length (bs ++ rest)) <? Z.of_nat (length bs)) = false).
  { apply orb_false_iff. split; apply Z.ltb_ge; [lia|]. rewrite length_app. lia. }
  rewrite H, Nat2Z.id. by rewrite take_app_length, drop_app_length.
Qed.

Lemma Bytes_inv (rr : list byte) n bs rr' :
  bindec.Bytes rr n = (bs, true, rr') →
  rr = bs ++ rr' ∧ Z.of_nat (length bs) = n.
Proof.
  unfold bindec.Bytes.
  destruct ((n <? 0) || (Z.of_nat (length rr) <? n)) eqn:H; [done|].
  apply orb_false_iff in H as [H0 Hlen].
  apply Z.ltb_ge in H0. apply Z.ltb_ge in Hlen.
  intros [= <- <-]. split; [by rewrite take_drop|].
  rewrite length_take. lia.
Qed.

Lemma Bool_round b (rest : list byte) :
  bindec.Bool (binenc.Bool b ++ rest) = (b, true, rest).
Proof. by destruct b. Qed.

Lemma Bool_inv (rr : list byte) b rr' :
  bindec.Bool rr = (b, true, rr') → ∃ x, rr = x :: rr'.
Proof. destruct rr as [|x rest]; [done|]. intros [= _ <-]. by exists x. Qed.

Lemma uint32_small v : 0 <= v < 2 ^ 32 → uint32 v = v.
Proof. intros Hv. unfold uint32. by apply Z.mod_small. Qed.

(** [RestoreState] panics with the writer as it was, or the input holds a
    checkpoint. *)
Lemma RestoreState_cases w (src : list byte) :
  (∃ msg, logio.RestoreState w src = (w, Panicked msg)) ∨ calls.holds_checkpoint src.
Proof.
  unfold logio.RestoreState, bindec.New, bytes.Bytes.
  destruct (bindec.Uint32 src) as [[v1 [|]] r1] eqn:H1; [|left; eauto].
  destruct (bindec.Uint32 r1) as [[v2 [|]] r2] eqn:H2; [|left; eauto].
  destruct (bindec.Bytes r2 v2) as [[v3 [|]] r3] eqn:H3; [|left; eauto].
  destruct (bindec.Uint32 r3) as [[v4 [|]] r4] eqn:H4; [|left; eauto].
  destruct (bindec.Bytes r4 v4) as [[v5 [|]] r5] eqn:H5; [|left; eauto].
  destruct (bindec.Bool r5) as [[v6 [|]] r6] eqn:H6; [|left; eauto].
  destruct (bindec.Uint32 r6) as [[v7 [|]] r7] eqn:H7; [|left; eauto].
  destruct (bindec.Uint32 r7) as [[v8 [|]] r8] eqn:H8; [|left; eauto].
  destruct (bindec.Uint32 r8) as [[v9 [|]] r9] eqn:H9; [|left; eauto].
  destruct (bindec.Bool r9) as [[v10 [|]] r10] eqn:H10; [|left; eauto].
  right.
  apply Uint32_inv in H1 as (f1 & -> & Hl1 & _).
  apply Uint32_inv in H2 as (f2 & -> & Hl2 & ->).
  apply Bytes_inv in H3 as (-> & Hc).
  apply Uint32_inv in H4 as (f4 & -> & Hl4 & ->).
  apply Bytes_inv in H5 as (-> & Hs).
  apply Bool_inv in H6 as (x6 & ->).
  apply Uint32_inv in H7 as (f7 & -> & Hl7 & _).
  apply Uint32_inv in H8 as (f8 & -> & Hl8 & _).
  apply Uint32_inv in H9 as (f9 & -> & Hl9 & _).
  apply Bool_inv in H10 as (x10 & ->).
  exists f1, f2, v3, f4, v5, x6, f7, f8, f9, x10, r10.
  repeat split; done.
Qed.

(** C8. An input too short to hold the fields of a checkpoint makes
    [RestoreState] panic, and the writer is then as it was before the call:
    no field has been assigned. *)
Theorem RestoreState_short_input w (src : list byte) :
  ¬ calls.holds_checkpoint src →
  ∃ msg, logio.RestoreState w src = (w, Panicked msg).
Proof.
  intros Hshort. destruct (RestoreState_cases w src) as [Hp | Hc]; [exact Hp|].
  contradiction.
Qed.

Lemma RestoreState_short_input_witness :
  ¬ calls.holds_checkpoint samples.three_bytes
  ∧ ∃ msg, logio.RestoreState samples.fresh samples.three_bytes
           = (samples.fresh, Panicked msg).
Proof.
  assert (H : ¬ calls.holds_checkpoint samples.three_bytes).
  { intros (f1 & f2 & c & f4 & s & x6 & f7 & f8 & f9 & x10 & rest & Heq &
            Hl1 & _).
    apply (f_equal length) in Heq. rewrite length_app in Heq.
    simpl in Heq. lia. }
  split; [exact H|].
  exact (RestoreState_short_input samples.fresh samples.three_bytes H).
Defined.

(** ** Checkpoints *)

Lemma RestoreState_checkpoint w w' :
  calls.fits_u32 w →
  logio.RestoreState w' (calls.checkpoint w)
  = (logio.set_writer w (logio.writer w'), Returned).
Proof.
  intros (Hsize & Hbuf & Hlb & Hlc & Hsaved & Hprev).
  unfold logio.RestoreState, calls.checkpoint, bindec.New, bytes.Bytes.
  rewrite !uint32_small by lia.
  rewrite Uint32_round by lia. rewrite Uint32_round by lia.
  rewrite Bytes_field. rewrite Uint32_round by lia. rewrite Bytes_field.
  rewrite Bool_round. rewrite Uint32_round by lia. rewrite Uint32_round by lia.
  rewrite Uint32_round by lia. rewrite <- (app_nil_r (binenc.Bool _)), Bool_round.
  destruct w, w'. reflexivity.
Qed.

(** C4, as amended. For every state of a writer whose capacity, buffer
    lengths and counters are below 2^32, [DumpState] writes the fields of the
    checkpoint format in their order, [RestoreState] of these bytes into any
    writer gives back the eight fields, and the restored writer then does
    what the dumped one does: on the same underlying writer, the same calls
    have the same results. *)
Theorem checkpoint_round_trip w w' :
  calls.fits_u32 w →
  logio.DumpState w [] = (w, calls.checkpoint w)
  ∧ logio.RestoreState w' (logio.DumpState w []).2
    = (logio.set_writer w (logio.writer w'), Returned)
  ∧ ∀ k cs,
      calls.run (logio.set_writer (logio.RestoreState w' (logio.DumpState w []).2).1 k) cs
      = calls.run (logio.set_writer w k) cs.
Proof.
  intros Hfits. rewrite DumpState_frame. cbn [snd app].
  rewrite RestoreState_checkpoint by done. split; [done|]. split; [done|].
  intros k cs. reflexivity.
Qed.

Lemma checkpoint_round_trip_witness :
  calls.fits_u32 samples.hello_wor
  ∧ logio.DumpState samples.hello_wor [] = (samples.hello_wor, calls.checkpoint samples.hello_wor)
  ∧ logio.RestoreState samples.fresh (logio.DumpState samples.hello_wor []).2
    = (logio.set_writer samples.hello_wor (logio.writer samples.fresh), Returned)
  ∧ ∀ k cs,
      calls.run (logio.set_writer
                   (logio.RestoreState samples.fresh
                      (logio.DumpState samples.hello_wor []).2).1 k) cs
      = calls.run (logio.set_writer samples.hello_wor k) cs.
Proof.
  assert (H : calls.fits_u32 samples.hello_wor).
  { unfold calls.fits_u32. vm_compute. repeat split; (discriminate || reflexivity). }
  split; [exact H|].
  exact (checkpoint_round_trip samples.hello_wor samples.fresh H).
Defined.

(** The scenario of the specification: a dump after ["hello\nwor"], restored
    into a fresh writer, then ["ld\n"]: the committed buffer is
    ["hello\nworld\n"]. *)
Lemma checkpoint_hello_world :
  logio.Write samples.fresh (bytes_of "hello" ++ [nl] ++ bytes_of "wor")
  = Some (samples.hello_wor, 9, None)
  ∧ ∃ w n,
      logio.Write (logio.RestoreState samples.fresh
                     (logio.DumpState samples.hello_wor []).2).1
                  (bytes_of "ld" ++ [nl]) = Some (w, n, None)
      ∧ logio.buffer w = bytes_of "hello" ++ [nl] ++ bytes_of "world" ++ [nl].
Proof.
  split; [vm_compute; reflexivity|].
  eexists _, _. split; [vm_compute; reflexivity | reflexivity].
Qed.

(** C4, as it was stated, fails for a capacity of 2^32: the checkpoint of
    the new writer has capacity 0, and the restored writer flushes the first
    line when the second comes, while the dumped one holds both. *)
Lemma checkpoint_truncates_capacity :
  logio.NewWriterSize samples.sink (2 ^ 32) = Some samples.four_gigabytes
  ∧ calls.run samples.four_gigabytes [] = Some (samples.four_gigabytes, [])
  ∧ ∃ restored w1 w2,
      logio.RestoreState samples.fresh (logio.DumpState samples.four_gigabytes []).2
      = (restored, Returned)
      ∧ logio.bufsize restored = 0
      ∧ logio.bufsize restored ≠ logio.bufsize samples.four_gigabytes
      ∧ calls.run samples.four_gigabytes samples.two_short_lines = Some (w1, [None])
      ∧ calls.run restored samples.two_short_lines = Some (w2, [None])
      ∧ io.received (logio.writer w1) = []
      ∧ io.received (logio.writer w2) = bytes_of "a" ++ [nl].
Proof.
  split; [reflexivity|]. split; [reflexivity|].
  eexists _, _, _. split; [vm_compute; reflexivity|].
  split; [reflexivity|]. split; [vm_compute; discriminate|].
  split; [vm_compute; reflexivity|]. split; [vm_compute; reflexivity|].
  split; reflexivity.
Qed.

(** ** The file registry *)

Section registry.

Context {B St : Type} `{!bufferer.Bufferer B St}.

Implicit Types (f : main.FileOp B St) (σ : main.Heap B St) (buf : main.Buf B).

Lemma itemsLock_released f :
  main.itemsLock f = false →
  main.set_itemsLock (main.set_itemsLock f true) false = f.
Proof. destruct f. simpl. by intros ->. Qed.

Lemma itemsLock_released_insert f m :
  main.itemsLock f = false →
  main.set_itemsLock (main.set_items (main.set_itemsLock f true) m) false
  = main.set_items f m.
Proof. destruct f. simpl. by intros ->. Qed.

(** C9. [GetFile] with the registry mutex free: an entry that is there is
    returned as it is, and nothing else happens (the factory is not
    called); without an entry the factory is called once, its error is
    returned with the registry as it was, and its bufferer is entered under
    the key with a new mutex and returned. *)
Theorem GetFile_spec f name σ :
  main.itemsLock f = false →
  match main.items f !! name with
  | Some buf => main.GetFile f name σ = main.Done (buf, None) (f, σ)
  | None =>
      match main.factory f name (main.ext σ) with
      | (st, b, Some e) =>
          main.GetFile f name σ =
            main.Done (main.zero_Buf, Some e)
              (f, main.mkHeap (main.mutexes σ) st
                    (main.trace σ ++ [main.EvFactory name]))
      | (st, b, None) =>
          let buf := main.mkBuf name (Some (length (main.mutexes σ))) b in
          main.GetFile f name σ =
            main.Done (buf, None)
              (main.mkFileOp (<[name := buf]> (main.items f)) false
                 (main.factory f),
               main.mkHeap (main.mutexes σ ++ [false]) st
                 (main.trace σ ++ [main.EvFactory name]))
      end
  end.
Proof.
  intros Hfree. unfold main.GetFile. rewrite Hfree.
  cbn [main.items main.set_itemsLock].
  destruct (main.items f !! name) as [buf|] eqn:Hlook.
  - by rewrite itemsLock_released.
  - unfold main.call_factory. cbn [main.factory main.set_itemsLock].
    destruct (main.factory f name (main.ext σ)) as [[st b] [e|]].
    + cbn. by rewrite itemsLock_released.
    + cbn. reflexivity.
Qed.

(** [Logrotate] of an entry whose mutex is free and whose [Close] returns
    nil: the result is the one of the bufferer's [Logrotate], called after
    [Close] with the mutex held, and the mutex is released. *)
Lemma Logrotate_Close_ok f name newpath σ buf l b st st' err :
  main.itemsLock f = false →
  main.items f !! name = Some buf →
  main.Buf_Lock buf = Some l → main.Buf_Buf buf = Some b →
  main.mutexes σ !! l = Some false →
  bufferer.Close b (main.ext σ) = (st, None) →
  bufferer.Logrotate b newpath st = (st', err) →
  main.Logrotate f name newpath σ =
    main.Done err
      (f, main.mkHeap (main.mutexes σ) st'
            (main.trace σ ++ [main.EvLock l; main.EvClose b;
                              main.EvLogrotate b newpath; main.EvUnlock l])).
Proof.
  intros Hfree Hlook Hl Hb Hmutex Hclose Hrot.
  assert (Hlen : (l < length (main.mutexes σ))%nat) by by eapply lookup_lt_Some.
  unfold main.Logrotate. rewrite Hfree.
  cbn [main.items main.set_itemsLock]. rewrite Hlook, Hl, Hb.
  unfold main.Mutex_Lock. rewrite Hmutex.
  unfold main.call_Close, main.log. cbn [main.ext main.mutexes main.trace].
  rewrite Hclose.
  unfold main.call_Logrotate. cbn [main.ext main.mutexes main.trace]. rewrite Hrot.
  unfold main.Mutex_Unlock, main.log. cbn [main.ext main.mutexes main.trace].
  rewrite list_lookup_insert_eq by done.
  rewrite list_insert_insert_eq, list_insert_id by done.
  rewrite itemsLock_released by done. by rewrite <- !app_assoc.
Qed.

(** [Logrotate] of an entry whose mutex is free and whose [Close] returns
    an error: the bufferer's [Logrotate] is not called and the mutex is
    released, but what is returned is nil, not the error of [Close]. *)
Lemma Logrotate_Close_error f name newpath σ buf l b st e :
  main.itemsLock f = false →
  main.items f !! name = Some buf →
  main.Buf_Lock buf = Some l → main.Buf_Buf buf = Some b →
  main.mutexes σ !! l = Some false →
  bufferer.Close b (main.ext σ) = (st, Some e) →
  main.Logrotate f name newpath σ =
    main.Done None
      (f, main.mkHeap (main.mutexes σ) st
            (main.trace σ ++ [main.EvLock l; main.EvClose b; main.EvUnlock l])).
Proof.
  intros Hfree Hlook Hl Hb Hmutex Hclose.
  assert (Hlen : (l < length (main.mutexes σ))%nat) by by eapply lookup_lt_Some.
  unfold main.Logrotate. rewrite Hfree.
  cbn [main.items main.set_itemsLock]. rewrite Hlook, Hl, Hb.
  unfold main.Mutex_Lock. rewrite Hmutex.
  unfold main.call_Close, main.log. cbn [main.ext main.mutexes main.trace].
  rewrite Hclose.
  unfold main.Mutex_Unlock, main.log. cbn [main.ext main.mutexes main.trace].
  rewrite list_lookup_insert_eq by done.
  rewrite list_insert_insert_eq, list_insert_id by done.
  rewrite itemsLock_released by done. by rewrite <- !app_assoc.
Qed.

End registry.

Lemma GetFile_spec_witness :
  main.itemsLock samples.registry = false
  ∧ match main.items samples.registry !! "web.log" with
    | Some buf =>
        main.GetFile samples.registry "web.log" samples.heap
        = main.Done (buf, None) (samples.registry, samples.heap)
    | None =>
        match main.factory samples.registry "web.log" (main.ext samples.heap) with
        | (st, b, Some e) =>
            main.GetFile samples.registry "web.log" samples.heap =
              main.Done (main.zero_Buf, Some e)
                (samples.registry,
                 main.mkHeap (main.mutexes samples.heap) st
                   (main.trace samples.heap ++ [main.EvFactory "web.log"]))
        | (st, b, None) =>
            let buf := main.mkBuf "web.log"
                         (Some (length (main.mutexes samples.heap))) b in
            main.GetFile samples.registry "web.log" samples.heap =
              main.Done (buf, None)
                (main.mkFileOp
                   (<["web.log" := buf]> (main.items samples.registry)) false
                   (main.factory samples.registry),
                 main.mkHeap (main.mutexes samples.heap ++ [false]) st
                   (main.trace samples.heap ++ [main.EvFactory "web.log"]))
        end
    end
  ∧ main.items samples.registry !! "web.log" = None
  ∧ (main.factory samples.registry "web.log" (main.ext samples.heap)).2 = None.
Proof.
  split; [reflexivity|]. split; [|split; reflexivity].
  apply (GetFile_spec samples.registry "web.log" samples.heap). reflexivity.
Defined.

(** C2. [Logrotate] of an entry whose bufferer fails to close: [Close] is
    called with the mutex of the entry held, the bufferer's [Logrotate] is
    not called, the mutex is released, and [Logrotate] returns nil: the
    error of [Close] does not reach the caller. *)
Theorem Logrotate_drops_Close_error :
  bufferer.Close samples.failing_close (main.ext samples.heap)
  = (1%nat, Some (io.ErrExternal 5))
  ∧ main.Logrotate samples.registry "app.log" "app.log-20261030" samples.heap
    = main.Done None
        (samples.registry,
         main.mkHeap [false] 1%nat
           [main.EvLock 0; main.EvClose samples.failing_close; main.EvUnlock 0]).
Proof.
  split; [reflexivity|].
  apply (Logrotate_Close_error samples.registry "app.log" "app.log-20261030"
           samples.heap
           (main.mkBuf "app.log" (Some 0%nat) (Some samples.failing_close))
           0%nat samples.failing_close 1%nat (io.ErrExternal 5)); reflexivity.
Qed.

(** * Further properties of the code *)

(** ** Package logio: what Flush and Write do with the bytes *)

Lemma io_Write_taken k (p : list byte) k' m e :
  io.Write k p = (k', m, e) →
  io.received k' = io.received k ++ take (Z.to_nat m) p.
Proof.
  unfold io.Write. destruct (io.script k) as [|[|m0 e0] s]; intros [= <- <- <-]; simpl.
  - by rewrite Nat2Z.id, firstn_all.
  - by rewrite Nat2Z.id, firstn_all.
  - rewrite Nat2Z.id, length_take. f_equal.
    destruct (decide (m0 ≤ length p)%nat).
    + by rewrite Nat.min_l.
    + rewrite Nat.min_r by lia. rewrite firstn_all. rewrite take_ge; [done | lia].
Qed.

Lemma WriteTo_conserves (b : list byte) k b' k' m e :
  bytes.WriteTo b k = (b', k', m, e) →
  io.received k' ++ b' = io.received k ++ b.
Proof.
  unfold bytes.WriteTo. destruct (0 <? bytes.Len b) eqn:Hlen.
  - destruct (io.Write k b) as [[k1 m1] e1] eqn:Hw.
    pose proof (io_Write_taken _ _ _ _ _ Hw) as Hk.
    destruct e1 as [e1|].
    + intros [= <- <- <- <-]. by rewrite Hk, <- app_assoc, take_drop.
    + destruct (m1 =? bytes.Len b) eqn:Hm; simpl.
      * intros [= <- <- <- <-]. apply Z.eqb_eq in Hm. subst m1.
        unfold bytes.Len in Hk. rewrite Nat2Z.id, firstn_all in Hk.
        by rewrite Hk, app_nil_r.
      * intros [= <- <- <- <-]. by rewrite Hk, <- app_assoc, take_drop.
  - intros [= <- <- <- <-]. apply Z.ltb_ge in Hlen. unfold bytes.Len in Hlen.
    destruct b; [done | simpl in Hlen; lia].
Qed.

(** What [Flush] leaves as it was, and what it moves. *)
Lemma Flush_conserves w w' err :
  logio.Flush w = (w', err) →
  io.received (logio.writer w') ++ logio.buffer w'
    = io.received (logio.writer w) ++ logio.buffer w
  ∧ logio.linebuf w' = logio.linebuf w
  ∧ logio.finished w' = logio.finished w
  ∧ logio.worthFlushing w' = logio.worthFlushing w
  ∧ logio.prevLineCount w' = logio.prevLineCount w
  ∧ logio.bufsize w' = logio.bufsize w
  ∧ logio.lineCount w' = logio.lineCount w
  ∧ match err with
    | None => logio.buffer w' = [] ∧ logio.savedLineCount w' = logio.lineCount w
    | Some _ => logio.savedLineCount w' = logio.savedLineCount w
    end.
Proof.
  unfold logio.Flush.
  destruct (bytes.Len (logio.buffer w) >? 0) eqn:Hlen.
  - destruct (bytes.WriteTo (logio.buffer w) (logio.writer w))
      as [[[b k] m] e] eqn:Hw.
    pose proof (WriteTo_conserves _ _ _ _ _ _ Hw) as Hcons.
    destruct e as [e|].
    + intros [= <- <-]. simpl. by repeat split.
    + apply WriteTo_ok in Hw as [-> _]. intros [= <- <-]. simpl.
      rewrite app_nil_r in *. by repeat split.
  - intros [= <- <-]. simpl.
    assert (logio.buffer w = []) as ->; [|by repeat split].
    rewrite Z.gtb_ltb in Hlen. apply Z.ltb_ge in Hlen. unfold bytes.Len in Hlen.
    destruct (logio.buffer w); [done | simpl in Hlen; lia].
Qed.

(** X1. [Flush], whatever it returns, neither loses nor repeats a committed
    byte: what the underlying writer has and what is still committed are
    together what they were before; the staging area, the flags, the
    capacity and the line count are as before, and the saved count moves to
    the line count exactly when nil is returned, the committed buffer being
    empty then. *)
Theorem Flush_loses_nothing w w' err :
  logio.Flush w = (w', err) →
  io.received (logio.writer w') ++ logio.buffer w'
    = io.received (logio.writer w) ++ logio.buffer w
  ∧ logio.linebuf w' = logio.linebuf w
  ∧ logio.finished w' = logio.finished w
  ∧ logio.worthFlushing w' = logio.worthFlushing w
  ∧ logio.prevLineCount w' = logio.prevLineCount w
  ∧ logio.bufsize w' = logio.bufsize w
  ∧ logio.lineCount w' = logio.lineCount w
  ∧ match err with
    | None => logio.buffer w' = [] ∧ logio.savedLineCount w' = logio.lineCount w
    | Some _ => logio.savedLineCount w' = logio.savedLineCount w
    end.
Proof.
  unfold logio.Flush.
  destruct (bytes.Len (logio.buffer w) >? 0) eqn:Hlen.
  - destruct (bytes.WriteTo (logio.buffer w) (logio.writer w))
      as [[[b k] m] e] eqn:Hw.
    pose proof (WriteTo_conserves _ _ _ _ _ _ Hw) as Hcons.
    destruct e as [e|].
    + intros [= <- <-]. simpl. by repeat split.
    + apply WriteTo_ok in Hw as [-> _]. intros [= <- <-]. simpl.
      rewrite app_nil_r in *. by repeat split.
  - intros [= <- <-]. simpl.
    assert (logio.buffer w = []) as ->; [|by repeat split].
    rewrite Z.gtb_ltb in Hlen. apply Z.ltb_ge in Hlen. unfold bytes.Len in Hlen.
    destruct (logio.buffer w); [done | simpl in Hlen; lia].
Qed.

(** [FlushAll] that returns nil. *)
Lemma FlushAll_ok w w' :
  logio.FlushAll w = (w', None) →
  io.received (logio.writer w')
    = io.received (logio.writer w) ++ logio.buffer w ++ logio.linebuf w
  ∧ logio.buffer w' = [] ∧ logio.linebuf w' = []
  ∧ logio.finished w' = logio.finished w
  ∧ logio.savedLineCount w' = logio.lineCount w
  ∧ logio.lineCount w' = logio.lineCount w.
Proof.
  unfold logio.FlushAll.
  destruct (logio.Flush w) as [w1 [e|]] eqn:Hf; [done|].
  apply Flush_conserves in Hf
    as (Hcons & Hlb & Hfin & _ & _ & _ & Hlc & Hbuf & Hsaved).
  rewrite Hbuf, app_nil_r in Hcons.
  destruct (bytes.Len (logio.linebuf w1) >? 0) eqn:Hlen.
  - destruct (bytes.WriteTo (logio.linebuf w1) (logio.writer w1))
      as [[[b k] m] [e|]] eqn:Hw; [done|].
    apply WriteTo_ok in Hw as [-> Hk]. intros [= <-]. simpl.
    rewrite Hk, Hcons, Hlb, <- app_assoc. by repeat split.
  - intros [= <-]. simpl.
    assert (logio.linebuf w1 = []) as Hnil.
    { rewrite Z.gtb_ltb in Hlen. apply Z.ltb_ge in Hlen. unfold bytes.Len in Hlen.
      destruct (logio.linebuf w1); [done | simpl in Hlen; lia]. }
    rewrite <- Hlb, Hnil, app_nil_r. by repeat split.
Qed.

(** X2. [FlushAll] that returns nil has handed the committed bytes and then
    the staged bytes to the underlying writer and holds nothing; the
    [finished] flag is as it was. *)
Theorem FlushAll_drains w w' :
  logio.FlushAll w = (w', None) →
  io.received (logio.writer w')
    = io.received (logio.writer w) ++ logio.buffer w ++ logio.linebuf w
  ∧ logio.buffer w' = [] ∧ logio.linebuf w' = []
  ∧ logio.finished w' = logio.finished w
  ∧ logio.savedLineCount w' = logio.lineCount w
  ∧ logio.lineCount w' = logio.lineCount w.
Proof.
  unfold logio.FlushAll.
  destruct (logio.Flush w) as [w1 [e|]] eqn:Hf; [done|].
  apply Flush_conserves in Hf
    as (Hcons & Hlb & Hfin & _ & _ & _ & Hlc & Hbuf & Hsaved).
  rewrite Hbuf, app_nil_r in Hcons.
  destruct (bytes.Len (logio.linebuf w1) >? 0) eqn:Hlen.
  - destruct (bytes.WriteTo (logio.linebuf w1) (logio.writer w1))
      as [[[b k] m] [e|]] eqn:Hw; [done|].
    apply WriteTo_ok in Hw as [-> Hk]. intros [= <-]. simpl.
    rewrite Hk, Hcons, Hlb, <- app_assoc. by repeat split.
  - intros [= <-]. simpl.
    assert (logio.linebuf w1 = []) as Hnil.
    { rewrite Z.gtb_ltb in Hlen. apply Z.ltb_ge in Hlen. unfold bytes.Len in Hlen.
      destruct (logio.linebuf w1); [done | simpl in Hlen; lia]. }
    rewrite <- Hlb, Hnil, app_nil_r. by repeat split.
Qed.

Lemma Flush_loses_nothing_witness :
  logio.Flush samples.two_lines
  = (logio.mkWriter 4
       (io.mkWriter (bytes_of "1" ++ [nl] ++ bytes_of "2" ++ [nl]) [])
       [] [] true 2 2 0 true, None)
  ∧ io.received (io.mkWriter (bytes_of "1" ++ [nl] ++ bytes_of "2" ++ [nl]) []) ++ []
    = io.received (logio.writer samples.two_lines) ++ logio.buffer samples.two_lines.
Proof.
  assert (H : logio.Flush samples.two_lines
              = (logio.mkWriter 4
                   (io.mkWriter (bytes_of "1" ++ [nl] ++ bytes_of "2" ++ [nl]) [])
                   [] [] true 2 2 0 true, None)) by reflexivity.
  split; [exact H|].
  exact (proj1 (Flush_loses_nothing _ _ _ H)).
Defined.

Lemma FlushAll_drains_witness :
  logio.FlushAll samples.hello_wor
  = (logio.mkWriter logio.defaultBufferSize
       (io.mkWriter (bytes_of "hello" ++ [nl] ++ bytes_of "wor") [])
       [] [] false 1 1 0 true, None)
  ∧ io.received (io.mkWriter (bytes_of "hello" ++ [nl] ++ bytes_of "wor") [])
    = io.received (logio.writer samples.hello_wor)
      ++ logio.buffer samples.hello_wor ++ logio.linebuf samples.hello_wor.
Proof.
  assert (H : logio.FlushAll samples.hello_wor
              = (logio.mkWriter logio.defaultBufferSize
                   (io.mkWriter (bytes_of "hello" ++ [nl] ++ bytes_of "wor") [])
                   [] [] false 1 1 0 true, None)) by reflexivity.
  split; [exact H|].
  exact (proj1 (FlushAll_drains _ _ H)).
Defined.

(** X3. A [Write] that returns nil returns the length of its argument. *)
Theorem Write_nil_counts_all w (data : list byte) w' n :
  logio.Write w data = Some (w', n, None) → n = Z.of_nat (length data).
Proof. intros H. apply Write_loop_count in H. lia. Qed.

Lemma Write_nil_counts_all_witness :
  logio.Write samples.fresh samples.chunk_123456 = Some (samples.after_chunk, 9, None)
  ∧ 9 = Z.of_nat (length samples.chunk_123456).
Proof.
  assert (H : logio.Write samples.fresh samples.chunk_123456
              = Some (samples.after_chunk, 9, None)) by (vm_compute; reflexivity).
  split; [exact H|].
  exact (Write_nil_counts_all _ _ _ _ H).
Defined.

Lemma make_room_conserves w (line : list byte) w' err :
  logio.make_room w line = (w', err) →
  io.received (logio.writer w') ++ logio.buffer w'
    = io.received (logio.writer w) ++ logio.buffer w
  ∧ logio.linebuf w' = logio.linebuf w
  ∧ logio.finished w' = logio.finished w
  ∧ logio.bufsize w' = logio.bufsize w.
Proof.
  unfold logio.make_room. destruct (_ >? _).
  - intros Hf. apply Flush_conserves in Hf as (? & ? & ? & _ & _ & ? & _).
    by repeat split.
  - by intros [= <- <-].
Qed.

Lemma Write_loop_error fuel w (data : list byte) nn w' n e :
  calls.staging_ok w →
  logio.Write_loop fuel w data nn = Some (w', n, Some e) →
  ∃ pre rest,
    data = pre ++ rest ∧ rest ≠ [] ∧ n = nn + Z.of_nat (length pre)
    ∧ calls.whole_lines pre
    ∧ logio.linebuf w' = []
    ∧ io.received (logio.writer w') ++ logio.buffer w'
      = io.received (logio.writer w) ++ logio.buffer w
        ++ (if decide (pre = []) then [] else logio.linebuf w ++ pre).
Proof.
  revert w data nn. induction fuel as [|fuel IH]; intros w data nn Hst.
  - destruct data; simpl; done.
  - destruct (chunk_cases data) as [-> | [[Hne Hnl] | (body & rest & -> & Hbody)]].
    + by rewrite Write_loop_nil.
    + by rewrite Write_loop_tail.
    + rewrite Write_loop_line by done. rewrite stage_line_eq.
      set (w1 := logio.set_linebuf w []).
      set (l1 := logio.linebuf w ++ body ++ [nl]).
      assert (Hstage : (if logio.finished w then (w, body ++ [nl], None)
                        else (w1, l1, None))
                       = (w1, l1, (None : option io.error))).
      { unfold w1, l1. destruct (logio.finished w) eqn:Hfin; [|done].
        pose proof (Hst Hfin) as Hnil. destruct w; simpl in *. by subst. }
      rewrite Hstage. clear Hstage.
      destruct (logio.make_room w1 l1) as [w2 [e2|]] eqn:Hroom.
      * intros [= <- <- <-].
        apply make_room_conserves in Hroom as (Hc & Hlb & _).
        exists [], (body ++ nl :: rest). simpl. repeat split.
        -- by destruct body.
        -- lia.
        -- apply whole_lines_nil.
        -- by rewrite Hlb.
        -- by rewrite Hc, app_nil_r.
      * apply make_room_conserves in Hroom as (Hc & Hlb & _).
        rewrite commit_line_eq. intros Hw.
        apply IH in Hw as (pre & rest' & -> & Hne & -> & Hwhole & Hlb' & Hc');
          [|by intros _].
        exists (body ++ [nl] ++ pre), rest'. repeat split.
        -- by rewrite (cons_middle nl body), <- !app_assoc.
        -- done.
        -- rewrite !length_app. simpl length. lia.
        -- rewrite app_assoc. apply whole_lines_app; [|done].
           apply whole_lines_line. by exists body.
        -- done.
        -- rewrite Hc'. simpl. unfold w1 in Hlb, Hc. simpl in Hlb, Hc.
           rewrite Hlb. rewrite <- (app_assoc (logio.buffer w2)).
           rewrite (app_assoc (io.received _)), Hc. unfold l1.
           assert (Hnonnil : body ++ [nl] ++ pre ≠ []).
           { intros Hnil. apply (f_equal length) in Hnil.
             rewrite !length_app in Hnil. simpl in Hnil. lia. }
           rewrite (decide_False _ _ Hnonnil).
           destruct (decide (pre = [])) as [->|_]; simpl;
             by rewrite <- ?app_assoc, ?app_nil_r.
Qed.

(** X4. A [Write] that returns an error (the capacity flush failed) returns
    the count of the lines of its argument committed before the failure:
    fewer bytes than the argument, ending with a newline if there are any.
    The staging area is then empty.  With a count above zero the writer and
    the underlying writer together hold what they held plus the staged bytes
    and the bytes counted; with a count of zero they hold only what was
    committed before: staged bytes of earlier calls are dropped with the
    line that could not be committed. *)
Theorem Write_error_count w (data : list byte) w' n e :
  calls.staging_ok w →
  logio.Write w data = Some (w', n, Some e) →
  0 <= n < Z.of_nat (length data)
  ∧ calls.whole_lines (take (Z.to_nat n) data)
  ∧ logio.linebuf w' = []
  ∧ io.received (logio.writer w') ++ logio.buffer w'
    = io.received (logio.writer w) ++ logio.buffer w
      ++ (if decide (n = 0) then []
          else logio.linebuf w ++ take (Z.to_nat n) data).
Proof.
  intros Hst Hw.
  apply Write_loop_error in Hw
    as (pre & rest & -> & Hne & -> & Hwhole & Hlb & Hc); [|done].
  rewrite Z.add_0_l, Nat2Z.id, take_app_length, length_app.
  repeat split; try done.
  - lia.
  - destruct rest; [done | simpl; lia].
  - rewrite Hc. destruct (decide (pre = [])) as [->|Hd].
    + by rewrite decide_True by done.
    + rewrite decide_False; [done|]. destruct pre; [done | simpl; lia].
Qed.


Lemma Write_error_count_witness :
  calls.staging_ok samples.staged_on_full_sink
  ∧ logio.Write samples.staged_on_full_sink (bytes_of "c" ++ [nl])
    = Some (logio.mkWriter 4 (io.mkWriter (bytes_of "1") []) [nl] []
              false 1 0 0 false, 0, Some (io.ErrExternal 28))
  ∧ 0 <= 0 < Z.of_nat (length (bytes_of "c" ++ [nl]))
  ∧ calls.whole_lines (take (Z.to_nat 0) (bytes_of "c" ++ [nl]))
  ∧ logio.linebuf (logio.mkWriter 4 (io.mkWriter (bytes_of "1") []) [nl] []
                     false 1 0 0 false) = []
  ∧ io.received (io.mkWriter (bytes_of "1") []) ++ [nl]
    = io.received (logio.writer samples.staged_on_full_sink)
      ++ logio.buffer samples.staged_on_full_sink
      ++ (if decide (0 = 0) then []
          else logio.linebuf samples.staged_on_full_sink
               ++ take (Z.to_nat 0) (bytes_of "c" ++ [nl])).
Proof.
  assert (H1 : calls.staging_ok samples.staged_on_full_sink) by (intros H; discriminate H).
  assert (H2 : logio.Write samples.staged_on_full_sink (bytes_of "c" ++ [nl])
               = Some (logio.mkWriter 4 (io.mkWriter (bytes_of "1") []) [nl] []
                         false 1 0 0 false, 0, Some (io.ErrExternal 28)))
    by (vm_compute; reflexivity).
  split; [exact H1|]. split; [exact H2|].
  exact (Write_error_count _ _ _ _ _ H1 H2).
Defined.

(** ** Package logio: what holds in every state of a writer *)

Lemma Flush_empty w :
  logio.buffer w = [] →
  logio.Flush w = (logio.set_savedLineCount w (logio.lineCount w), None).
Proof.
  intros Hb. unfold logio.Flush. rewrite Hb. simpl.
  destruct w; simpl in *. by subst.
Qed.

Lemma Flush_settled w w' err :
  calls.settled w → logio.Flush w = (w', err) → calls.settled w'.
Proof.
  unfold calls.settled. intros Hs Hf.
  pose proof (Flush_conserves _ _ _ Hf) as (_ & _ & _ & _ & _ & _ & Hlc & Herr).
  destruct err as [e|].
  - rewrite Herr, Hlc. intros Heq. rewrite Flush_empty in Hf by auto. done.
  - by destruct Herr.
Qed.

Lemma Write_loop_staging fuel w (data : list byte) nn w' n err :
  calls.staging_ok w → nl ∉ logio.linebuf w →
  logio.Write_loop fuel w data nn = Some (w', n, err) →
  calls.staging_ok w' ∧ (nl ∉ logio.linebuf w')
  ∧ logio.bufsize w' = logio.bufsize w.
Proof.
  revert w data nn. induction fuel as [|fuel IH]; intros w data nn Hst Hnl.
  - destruct data; simpl; [|done]. by intros [= <- _ _].
  - destruct (chunk_cases data) as [-> | [[Hne Hdata] | (body & rest & -> & Hbody)]].
    + rewrite Write_loop_nil. by intros [= <- _ _].
    + rewrite Write_loop_tail by done. intros [= <- _ _]. simpl.
      split; [done|]. split; [|done]. rewrite elem_of_app. tauto.
    + rewrite Write_loop_line by done. rewrite stage_line_eq.
      set (w1 := if logio.finished w then w else logio.set_linebuf w []).
      set (l1 := if logio.finished w then body ++ [nl]
                 else logio.linebuf w ++ body ++ [nl]).
      assert (H1 : logio.linebuf w1 = [] ∧ logio.bufsize w1 = logio.bufsize w).
      { unfold w1. destruct (logio.finished w) eqn:Hfin; [|by split].
        split; [apply Hst; exact Hfin | reflexivity]. }
      destruct H1 as [Hlb1 Hsz1].
      assert (Hstep :
        match logio.make_room w1 l1 with
        | (w2, Some e) => Some (w2, nn, Some e)
        | (w2, None) =>
            match logio.commit_line w2 l1 with
            | (w3, Some e) => Some (w3, nn, Some e)
            | (w3, None) =>
                logio.Write_loop fuel w3 rest (nn + (Z.of_nat (length body) + 1))
            end
        end = Some (w', n, err) →
        calls.staging_ok w' ∧ (nl ∉ logio.linebuf w')
        ∧ logio.bufsize w' = logio.bufsize w).
      { destruct (logio.make_room w1 l1) as [w2 [e|]] eqn:Hroom;
          apply make_room_conserves in Hroom as (_ & Hlb2 & Hfin2 & Hsz2).
        - intros [= <- _ _]. split; [intros _; by rewrite Hlb2|].
          rewrite Hlb2, Hlb1, Hsz2, Hsz1.
          split; [apply not_elem_of_nil | done].
        - rewrite commit_line_eq. intros Hw. apply IH in Hw.
          + simpl in Hw. by rewrite Hsz2, Hsz1 in Hw.
          + intros _. simpl. by rewrite Hlb2.
          + simpl. rewrite Hlb2, Hlb1. apply not_elem_of_nil. }
      unfold w1, l1 in Hstep. destruct (logio.finished w); exact Hstep.
Qed.

Lemma Write_loop_settled fuel w (data : list byte) nn w' n err :
  calls.counters_ok w → calls.settled w →
  logio.lineCount w + calls.count_nl data <= max_int →
  logio.Write_loop fuel w data nn = Some (w', n, err) →
  calls.settled w'.
Proof.
  revert w data nn. induction fuel as [|fuel IH]; intros w data nn Hc Hs Hmax.
  - destruct data; simpl; [|done]. by intros [= <- _ _].
  - destruct (chunk_cases data) as [-> | [[Hne Hdata] | (body & rest & -> & Hbody)]].
    + rewrite Write_loop_nil. by intros [= <- _ _].
    + rewrite Write_loop_tail by done. by intros [= <- _ _].
    + rewrite Write_loop_line by done. rewrite stage_line_eq.
      rewrite count_nl_line in Hmax.
      pose proof (count_nl_nonneg body). pose proof (count_nl_nonneg rest).
      set (w1 := if logio.finished w then w else logio.set_linebuf w []).
      set (l1 := if logio.finished w then body ++ [nl]
                 else logio.linebuf w ++ body ++ [nl]).
      assert (H1 : calls.counters_ok w1 ∧ calls.settled w1
                   ∧ logio.lineCount w1 = logio.lineCount w).
      { unfold w1. by destruct (logio.finished w). }
      destruct H1 as (Hc1 & Hs1 & Hl1).
      assert (Hstep :
        match logio.make_room w1 l1 with
        | (w2, Some e) => Some (w2, nn, Some e)
        | (w2, None) =>
            match logio.commit_line w2 l1 with
            | (w3, Some e) => Some (w3, nn, Some e)
            | (w3, None) =>
                logio.Write_loop fuel w3 rest (nn + (Z.of_nat (length body) + 1))
            end
        end = Some (w', n, err) → calls.settled w').
      { destruct (logio.make_room w1 l1) as [w2 err2] eqn:Hroom.
        assert (Hs2 : calls.settled w2).
        { unfold logio.make_room in Hroom. destruct (_ >? _).
          - eapply Flush_settled; [|exact Hroom]. exact Hs1.
          - by injection Hroom as <- _. }
        apply make_room_counters in Hroom as [Hc2 Hl2]; [|done].
        destruct err2 as [e|]; [by intros [= <- _ _]|].
        rewrite commit_line_eq. intros Hw. unfold calls.counters_ok in Hc2.
        apply IH in Hw; [done | | |].
        - unfold calls.counters_ok. simpl.
          rewrite int_wrap_small by (unfold max_int in *; lia). lia.
        - unfold calls.settled. simpl.
          rewrite int_wrap_small by (unfold max_int in *; lia). lia.
        - simpl. rewrite int_wrap_small by (unfold max_int in *; lia). lia. }
      unfold w1, l1 in Hstep. destruct (logio.finished w); exact Hstep.
Qed.

Lemma FlushAll_frame w w' err :
  logio.FlushAll w = (w', err) →
  ∃ w1 err1 lb,
    logio.Flush w = (w1, err1)
    ∧ w' = logio.set_writer (logio.set_linebuf w1 lb) (logio.writer w')
    ∧ (lb = logio.linebuf w ∨ lb = [] ∨ ∃ m, lb = drop m (logio.linebuf w))
    ∧ (logio.finished w = true → logio.linebuf w = [] → lb = []).
Proof.
  unfold logio.FlushAll.
  destruct (logio.Flush w) as [w1 err1] eqn:Hf.
  pose proof (Flush_conserves _ _ _ Hf) as (_ & Hlb & _).
  destruct err1 as [e|].
  - intros [= <- _]. exists w1, (Some e), (logio.linebuf w1). split; [done|].
    split; [by destruct w1|]. rewrite Hlb. split; [by left | by intros _ ->].
  - destruct (bytes.Len (logio.linebuf w1) >? 0).
    + unfold bytes.WriteTo. destruct (0 <? bytes.Len (logio.linebuf w1)).
      * destruct (io.Write (logio.writer w1) (logio.linebuf w1)) as [[k m] [e|]].
        -- intros [= <- _]. eexists w1, None, _. split; [done|].
           split; [reflexivity|]. rewrite Hlb. split; [right; right; by eexists|].
           intros _ ->. by rewrite drop_nil.
        -- destruct (negb (m =? bytes.Len (logio.linebuf w1))).
           ++ intros [= <- _]. eexists w1, None, _. split; [done|].
              split; [reflexivity|]. rewrite Hlb.
              split; [right; right; by eexists|]. intros _ ->. by rewrite drop_nil.
           ++ intros [= <- _]. eexists w1, None, _. split; [done|].
              split; [reflexivity|]. split; [by right; left | done].
      * intros [= <- _]. eexists w1, None, _. split; [done|].
        split; [reflexivity|]. split; [by right; left | done].
    + intros [= <- _]. eexists w1, None, _. split; [done|].
      split; [reflexivity|]. split; [by right; left | done].
Qed.

(** The invariants of the states of a writer. *)
Lemma Reachable_inv w :
  calls.Reachable w →
  0 <= logio.bufsize w
  ∧ (nl ∉ logio.linebuf w)
  ∧ calls.staging_ok w
  ∧ calls.counters_ok w
  ∧ calls.settled w.
Proof.
  induction 1 as [k size w Hnew | w data w' n err _ IH Hmax Hw
                 | w w' err _ IH Hf | w w' err _ IH Hf
                 | w res w' _ IH Hwf | w dest w' dest' _ IH Hd].
  - unfold logio.NewWriterSize in Hnew. destruct (size <? 0) eqn:Hsz; [done|].
    apply Z.ltb_ge in Hsz. injection Hnew as <-.
    unfold calls.staging_ok, calls.counters_ok, calls.settled. simpl.
    repeat split; try done; try lia. apply not_elem_of_nil.
  - destruct IH as (Hsz & Hnl & Hst & Hc & Hs).
    pose proof (Write_loop_staging _ _ _ _ _ _ _ Hst Hnl Hw) as (? & ? & Hsz').
    pose proof (Write_loop_counters _ _ _ _ _ _ _ Hc Hmax Hw) as [? _].
    pose proof (Write_loop_settled _ _ _ _ _ _ _ Hc Hs Hmax Hw).
    rewrite Hsz'. by split_and!.
  - destruct IH as (Hsz & Hnl & Hst & Hc & Hs).
    pose proof (Flush_conserves _ _ _ Hf) as (_ & Hlb & Hfin & _ & _ & Hsz' & _).
    pose proof (Flush_counters _ _ _ Hc Hf) as [? _].
    pose proof (Flush_settled _ _ _ Hs Hf).
    unfold calls.staging_ok. rewrite Hsz', Hlb, Hfin. by split_and!.
  - destruct IH as (Hsz & Hnl & Hst & Hc & Hs).
    pose proof (FlushAll_counters _ _ _ Hc Hf) as Hc'.
    apply FlushAll_frame in Hf as (w1 & err1 & lb & Hf1 & Hw' & Hlb & Hfin).
    pose proof (Flush_conserves _ _ _ Hf1) as (_ & _ & Hfin1 & _ & _ & Hsz1 & _).
    pose proof (Flush_settled _ _ _ Hs Hf1) as Hs1.
    assert (Hfields : logio.linebuf w' = lb ∧ logio.finished w' = logio.finished w1
                      ∧ logio.bufsize w' = logio.bufsize w1
                      ∧ logio.buffer w' = logio.buffer w1
                      ∧ logio.savedLineCount w' = logio.savedLineCount w1
                      ∧ logio.lineCount w' = logio.lineCount w1).
    { rewrite Hw'. by split_and!. }
    destruct Hfields as (Hl & Hfn & Hb & Hbuf & Hsv & Hlc).
    unfold calls.staging_ok, calls.settled in *.
    rewrite Hl, Hfn, Hb, Hbuf, Hsv, Hlc, Hsz1, Hfin1. split_and!; try done.
    + destruct Hlb as [-> | [-> | [m ->]]]; [done | apply not_elem_of_nil |].
      intros Hin. apply Hnl. rewrite <- (take_drop m (logio.linebuf w)).
      apply elem_of_app. by right.
    + intros Htrue. apply Hfin; [done | by apply Hst].
  - unfold logio.WorthFlushing in Hwf. by injection Hwf as _ <-.
  - rewrite DumpState_frame in Hd. by injection Hd as <- _.
Qed.

(** X6. In every state a writer goes through, whatever its calls returned:
    the capacity is not negative; the staging area holds no newline, and is
    empty when [finished] is set; the saved line count is between zero and
    the line count; and with as many lines saved as counted, the committed
    buffer is empty. *)
Theorem Reachable_invariants w :
  calls.Reachable w →
  0 <= logio.bufsize w
  ∧ (nl ∉ logio.linebuf w)
  ∧ calls.staging_ok w
  ∧ calls.counters_ok w
  ∧ calls.settled w.
Proof.
  induction 1 as [k size w Hnew | w data w' n err _ IH Hmax Hw
                 | w w' err _ IH Hf | w w' err _ IH Hf
                 | w res w' _ IH Hwf | w dest w' dest' _ IH Hd].
  - unfold logio.NewWriterSize in Hnew. destruct (size <? 0) eqn:Hsz; [done|].
    apply Z.ltb_ge in Hsz. injection Hnew as <-.
    unfold calls.staging_ok, calls.counters_ok, calls.settled. simpl.
    repeat split; try done; try lia. apply not_elem_of_nil.
  - destruct IH as (Hsz & Hnl & Hst & Hc & Hs).
    pose proof (Write_loop_staging _ _ _ _ _ _ _ Hst Hnl Hw) as (? & ? & Hsz').
    pose proof (Write_loop_counters _ _ _ _ _ _ _ Hc Hmax Hw) as [? _].
    pose proof (Write_loop_settled _ _ _ _ _ _ _ Hc Hs Hmax Hw).
    rewrite Hsz'. by split_and!.
  - destruct IH as (Hsz & Hnl & Hst & Hc & Hs).
    pose proof (Flush_conserves _ _ _ Hf) as (_ & Hlb & Hfin & _ & _ & Hsz' & _).
    pose proof (Flush_counters _ _ _ Hc Hf) as [? _].
    pose proof (Flush_settled _ _ _ Hs Hf).
    unfold calls.staging_ok. rewrite Hsz', Hlb, Hfin. by split_and!.
  - destruct IH as (Hsz & Hnl & Hst & Hc & Hs).
    pose proof (FlushAll_counters _ _ _ Hc Hf) as Hc'.
    apply FlushAll_frame in Hf as (w1 & err1 & lb & Hf1 & Hw' & Hlb & Hfin).
    pose proof (Flush_conserves _ _ _ Hf1) as (_ & _ & Hfin1 & _ & _ & Hsz1 & _).
    pose proof (Flush_settled _ _ _ Hs Hf1) as Hs1.
    assert (Hfields : logio.linebuf w' = lb ∧ logio.finished w' = logio.finished w1
                      ∧ logio.bufsize w' = logio.bufsize w1
                      ∧ logio.buffer w' = logio.buffer w1
                      ∧ logio.savedLineCount w' = logio.savedLineCount w1
                      ∧ logio.lineCount w' = logio.lineCount w1).
    { rewrite Hw'. by split_and!. }
    destruct Hfields as (Hl & Hfn & Hb & Hbuf & Hsv & Hlc).
    unfold calls.staging_ok, calls.settled in *.
    rewrite Hl, Hfn, Hb, Hbuf, Hsv, Hlc, Hsz1, Hfin1. split_and!; try done.
    + destruct Hlb as [-> | [-> | [m ->]]]; [done | apply not_elem_of_nil |].
      intros Hin. apply Hnl. rewrite <- (take_drop m (logio.linebuf w)).
      apply elem_of_app. by right.
    + intros Htrue. apply Hfin; [done | by apply Hst].
  - unfold logio.WorthFlushing in Hwf. by injection Hwf as _ <-.
  - rewrite DumpState_frame in Hd. by injection Hd as <- _.
Qed.

Lemma Reachable_invariants_witness :
  calls.Reachable samples.after_chunk
  ∧ 0 <= logio.bufsize samples.after_chunk
  ∧ (nl ∉ logio.linebuf samples.after_chunk)
  ∧ calls.staging_ok samples.after_chunk
  ∧ calls.counters_ok samples.after_chunk
  ∧ calls.settled samples.after_chunk.
Proof.
  assert (Hr : calls.Reachable samples.after_chunk).
  { apply (calls.reach_Write samples.fresh samples.chunk_123456 _ 9 None).
    - apply (calls.reach_new samples.sink logio.defaultBufferSize). reflexivity.
    - vm_compute. discriminate.
    - vm_compute. reflexivity. }
  split; [exact Hr|]. exact (Reachable_invariants samples.after_chunk Hr).
Defined.

(** ** Package logio: the line counters *)

Lemma count_nl_app (a b : list byte) :
  calls.count_nl (a ++ b) = calls.count_nl a + calls.count_nl b.
Proof. unfold calls.count_nl. rewrite filter_app, length_app. lia. Qed.

Lemma count_nl_none (a : list byte) : nl ∉ a → calls.count_nl a = 0.
Proof.
  unfold calls.count_nl. induction a as [|x a IH]; [done|].
  intros Hx. apply not_elem_of_cons in Hx as [Hne Ha].
  rewrite filter_cons_False by congruence. by apply IH.
Qed.

Lemma count_nl_staged_line (staged body : list byte) :
  nl ∉ staged → nl ∉ body → calls.count_nl (staged ++ body ++ [nl]) = 1.
Proof.
  intros Hs Hb. rewrite !count_nl_app, !count_nl_none by done. reflexivity.
Qed.

Lemma Write_loop_counts_lines r0 fuel w (data : list byte) nn w' n :
  calls.counts_lines r0 w → nl ∉ logio.linebuf w → calls.staging_ok w →
  0 <= logio.lineCount w →
  logio.lineCount w + calls.count_nl data <= max_int →
  logio.Write_loop fuel w data nn = Some (w', n, None) →
  calls.counts_lines r0 w'
  ∧ logio.lineCount w' = logio.lineCount w + calls.count_nl data.
Proof.
  revert w data nn. induction fuel as [|fuel IH]; intros w data nn Hi Hnl Hst Hpos Hmax.
  - destruct data; simpl; [|done]. intros [= <- _]. split; [done|].
    unfold calls.count_nl. simpl. lia.
  - destruct (chunk_cases data) as [-> | [[Hne Hdata] | (body & rest & -> & Hbody)]].
    + rewrite Write_loop_nil. intros [= <- _]. split; [done|].
      unfold calls.count_nl. simpl. lia.
    + rewrite Write_loop_tail by done. intros [= <- _]. split; [done|].
      simpl. rewrite count_nl_none by done. lia.
    + rewrite Write_loop_line by done. rewrite stage_line_eq.
      rewrite count_nl_line in *. rewrite (count_nl_none body) in * by done.
      pose proof (count_nl_nonneg rest).
      set (w1 := if logio.finished w then w else logio.set_linebuf w []).
      set (l1 := if logio.finished w then body ++ [nl]
                 else logio.linebuf w ++ body ++ [nl]).
      assert (H1 : calls.counts_lines r0 w1 ∧ logio.linebuf w1 = []
                   ∧ logio.lineCount w1 = logio.lineCount w
                   ∧ calls.count_nl l1 = 1).
      { unfold w1, l1. destruct (logio.finished w) eqn:Hfin.
        - split_and!; [done | by apply Hst | done |].
          apply (count_nl_staged_line [] body); [apply not_elem_of_nil | done].
        - split_and!; [done | done | done |]. by apply count_nl_staged_line. }
      destruct H1 as (Hi1 & Hlb1 & Hlc1 & Hl1).
      assert (Hstep :
        match logio.make_room w1 l1 with
        | (w2, Some e) => Some (w2, nn, Some e)
        | (w2, None) =>
            match logio.commit_line w2 l1 with
            | (w3, Some e) => Some (w3, nn, Some e)
            | (w3, None) =>
                logio.Write_loop fuel w3 rest (nn + (Z.of_nat (length body) + 1))
            end
        end = Some (w', n, None) →
        calls.counts_lines r0 w'
        ∧ logio.lineCount w' = logio.lineCount w + (0 + 1 + calls.count_nl rest)).
      { destruct (logio.make_room w1 l1) as [w2 [e|]] eqn:Hroom; [done|].
        assert (Hi2 : calls.counts_lines r0 w2
                      ∧ logio.lineCount w2 = logio.lineCount w1
                      ∧ logio.linebuf w2 = []).
        { unfold logio.make_room in Hroom. destruct (_ >? _).
          - destruct Hi1 as (out & Hrec & Hsv & Hlc).
            apply Flush_ok in Hroom as (k & -> & Hk). simpl.
            split_and!; [|done|done].
            exists (out ++ logio.buffer w1). simpl in *.
            rewrite Hk, Hrec, count_nl_app, <- app_assoc.
            split_and!; [done | lia |]. unfold calls.count_nl at 3. simpl. lia.
          - injection Hroom as <-. by split_and!. }
        destruct Hi2 as (Hi2 & Hlc2 & Hlb2).
        rewrite commit_line_eq. intros Hw.
        assert (Hwrap : int_wrap (logio.lineCount w2 + 1) = logio.lineCount w2 + 1).
        { apply int_wrap_small. unfold max_int in *. lia. }
        apply IH in Hw.
        - simpl in Hw. rewrite Hwrap in Hw. destruct Hw as [? ->].
          split; [done | lia].
        - destruct Hi2 as (out & Hrec & Hsv & Hlc). exists out. simpl.
          rewrite Hwrap, count_nl_app, Hl1. split_and!; [done | done | lia].
        - simpl. rewrite Hlb2. apply not_elem_of_nil.
        - intros _. exact Hlb2.
        - simpl. rewrite Hwrap. lia.
        - simpl. rewrite Hwrap. lia. }
      unfold w1, l1 in Hstep. destruct (logio.finished w); exact Hstep.
Qed.

Lemma run_counts_lines r0 cs : ∀ w w' errs,
  calls.counts_lines r0 w → nl ∉ logio.linebuf w → calls.staging_ok w →
  0 <= logio.lineCount w →
  logio.lineCount w + calls.count_nl (calls.submitted cs) <= max_int →
  calls.run w cs = Some (w', errs) →
  Forall (λ err, err = None) errs →
  calls.counts_lines r0 w' ∧ 0 <= logio.lineCount w' <= max_int.
Proof.
  induction cs as [|c cs IH]; intros w w' errs Hi Hnl Hst Hpos Hmax; simpl.
  - intros [= <- _] _. split; [done|]. simpl in Hmax.
    unfold calls.count_nl in Hmax. simpl in Hmax. lia.
  - destruct (calls.do_call w c) as [[w1 err]|] eqn:Hc; [|done].
    destruct (calls.run w1 cs) as [[w2 errs2]|] eqn:Hrun; [|done].
    intros [= <- <-] Herrs. apply Forall_cons in Herrs as [-> Herrs].
    destruct c as [data|]; simpl in Hc, Hmax.
    + destruct (logio.Write w data) as [[[w1' n] e]|] eqn:Hw; [|done].
      injection Hc as -> ->. rewrite count_nl_app in Hmax.
      pose proof (count_nl_nonneg data).
      pose proof (count_nl_nonneg (calls.submitted cs)).
      pose proof (Write_loop_staging _ _ _ _ _ _ _ Hst Hnl Hw) as (Hst1 & Hnl1 & _).
      apply (Write_loop_counts_lines r0) in Hw as [Hi1 Hlc1]; [|done|done|done|done|lia].
      eapply IH; [exact Hi1 | done | done | lia | lia | exact Hrun | exact Herrs].
    + injection Hc as Hf.
      pose proof (Flush_conserves _ _ _ Hf) as (_ & Hlb & Hfin & _ & _ & _ & Hlc & _).
      eapply IH; [ | | | | | exact Hrun | exact Herrs].
      * destruct Hi as (out & Hrec & Hsv & Hlcw).
        apply Flush_ok in Hf as (k & -> & Hk). exists (out ++ logio.buffer w).
        simpl. rewrite Hk, Hrec, count_nl_app, <- app_assoc.
        split_and!; [done | lia |]. unfold calls.count_nl at 3. simpl. lia.
      * by rewrite Hlb.
      * unfold calls.staging_ok. by rewrite Hlb, Hfin.
      * lia.
      * lia.
Qed.

(** X8. After any sequence of [Write] and [Flush] calls on a new writer,
    none of which returned an error and which submitted no more than 2^63-1
    lines: [LinesWritten] is the number of lines handed to the underlying
    writer, and [LinesBuffered] the number of lines in the committed
    buffer. *)
Theorem Lines_counted k size w0 cs w errs :
  logio.NewWriterSize k size = Some w0 →
  calls.run w0 cs = Some (w, errs) →
  Forall (λ err, err = None) errs →
  calls.count_nl (calls.submitted cs) <= max_int →
  ∃ out, io.received (logio.writer w) = io.received k ++ out
         ∧ logio.LinesWritten w = calls.count_nl out
         ∧ logio.LinesBuffered w = calls.count_nl (logio.buffer w).
Proof.
  intros Hnew Hrun Herrs Hmax.
  unfold logio.NewWriterSize in Hnew. destruct (size <? 0); [done|].
  injection Hnew as <-.
  eapply (run_counts_lines (io.received k)) in Hrun
    as [(out & Hrec & Hsv & Hlc) Hrange]; [| | | | | | exact Herrs].
  - exists out. split; [done|]. split; [done|].
    unfold logio.LinesBuffered. rewrite Hlc, Hsv.
    pose proof (count_nl_nonneg out). pose proof (count_nl_nonneg (logio.buffer w)).
    rewrite int_wrap_small; [lia|]. unfold max_int in *. lia.
  - exists []. simpl. rewrite app_nil_r. by split_and!.
  - apply not_elem_of_nil.
  - done.
  - simpl. lia.
  - simpl. lia.
Qed.

Lemma Lines_counted_witness :
  logio.NewWriterSize samples.sink 4
    = Some (logio.mkWriter 4 samples.sink [] [] true 0 0 0 true)
  ∧ calls.run (logio.mkWriter 4 samples.sink [] [] true 0 0 0 true)
              samples.chunk_flushed
    = Some (samples.after_chunk_flushed, [None; None])
  ∧ Forall (λ err : option io.error, err = None) [None; None]
  ∧ calls.count_nl (calls.submitted samples.chunk_flushed) <= max_int
  ∧ ∃ out, io.received (logio.writer samples.after_chunk_flushed)
           = io.received samples.sink ++ out
           ∧ logio.LinesWritten samples.after_chunk_flushed = calls.count_nl out
           ∧ logio.LinesBuffered samples.after_chunk_flushed
             = calls.count_nl (logio.buffer samples.after_chunk_flushed).
Proof.
  assert (H1 : logio.NewWriterSize samples.sink 4
               = Some (logio.mkWriter 4 samples.sink [] [] true 0 0 0 true))
    by reflexivity.
  assert (H2 : calls.run (logio.mkWriter 4 samples.sink [] [] true 0 0 0 true)
                 samples.chunk_flushed
               = Some (samples.after_chunk_flushed, [None; None]))
    by (vm_compute; reflexivity).
  assert (H3 : Forall (λ err : option io.error, err = None) [None; None])
    by (repeat constructor).
  assert (H4 : calls.count_nl (calls.submitted samples.chunk_flushed) <= max_int)
    by (vm_compute; discriminate).
  split; [exact H1|]. split; [exact H2|]. split; [exact H3|]. split; [exact H4|].
  exact (Lines_counted _ _ _ _ _ _ H1 H2 H3 H4).
Defined.

(** X9. [FlushAll] after a sequence of [Write] and [Flush] calls on a
    new writer, no call having returned an error: the underlying writer has
    been handed exactly the bytes submitted, in their order, and the writer
    holds nothing. *)
Theorem FlushAll_delivers k size w0 cs w errs w' :
  logio.NewWriterSize k size = Some w0 →
  calls.run w0 cs = Some (w, errs) →
  Forall (λ err, err = None) errs →
  logio.FlushAll w = (w', None) →
  io.received (logio.writer w') = io.received k ++ calls.submitted cs
  ∧ logio.buffer w' = [] ∧ logio.linebuf w' = [].
Proof.
  intros Hnew Hrun Herrs Hall.
  unfold logio.NewWriterSize in Hnew. destruct (size <? 0); [done|].
  injection Hnew as <-.
  eapply (run_integrity (io.received k) cs _ [] w errs) in Hrun
    as [(out & Hrec & HB & _) _]; [| | done | exact Herrs].
  - apply FlushAll_ok in Hall as (Hall & ? & ? & _).
    split; [|done]. simpl in HB. by rewrite Hall, Hrec, HB, <- app_assoc.
  - exists []. simpl. rewrite app_nil_r. split_and!; try done.
    + apply whole_lines_nil.
    + apply whole_lines_nil.
    + apply not_elem_of_nil.
Qed.

Lemma FlushAll_delivers_witness :
  logio.NewWriterSize samples.sink 4
    = Some (logio.mkWriter 4 samples.sink [] [] true 0 0 0 true)
  ∧ calls.run (logio.mkWriter 4 samples.sink [] [] true 0 0 0 true)
              samples.chunk_flushed
    = Some (samples.after_chunk_flushed, [None; None])
  ∧ Forall (λ err : option io.error, err = None) [None; None]
  ∧ logio.FlushAll samples.after_chunk_flushed
    = (logio.mkWriter 4 (io.mkWriter samples.chunk_123456 []) [] []
         false 3 3 0 false, None)
  ∧ io.received (io.mkWriter samples.chunk_123456 [])
    = io.received samples.sink ++ calls.submitted samples.chunk_flushed.
Proof.
  assert (H1 : logio.NewWriterSize samples.sink 4
               = Some (logio.mkWriter 4 samples.sink [] [] true 0 0 0 true))
    by reflexivity.
  assert (H2 : calls.run (logio.mkWriter 4 samples.sink [] [] true 0 0 0 true)
                 samples.chunk_flushed
               = Some (samples.after_chunk_flushed, [None; None]))
    by (vm_compute; reflexivity).
  assert (H3 : Forall (λ err : option io.error, err = None) [None; None])
    by (repeat constructor).
  assert (H4 : logio.FlushAll samples.after_chunk_flushed
               = (logio.mkWriter 4 (io.mkWriter samples.chunk_123456 []) [] []
                    false 3 3 0 false, None)) by reflexivity.
  split; [exact H1|]. split; [exact H2|]. split; [exact H3|]. split; [exact H4|].
  exact (proj1 (FlushAll_delivers _ _ _ _ _ _ _ H1 H2 H3 H4)).
Defined.

(** ** Package logio: checkpoints *)

(** X10. [RestoreState] of an input that starts with the ten fields of
    a checkpoint, the two flags being the bytes 0 or 1, returns, and the
    writer then has the values of the fields: the capacity and the three
    counters are the little-endian values of their four bytes, the two
    buffers hold the bytes after their length prefixes, the flags are set
    where the byte is 1, and the underlying writer is the receiver's own.
    What follows the ten fields is not looked at. *)
Theorem RestoreState_reads_fields w
    (fsize flen committed fllen staging : list byte) (fin : byte)
    (fcount fsaved fprev : list byte) (worth : byte) (rest : list byte) :
  length fsize = 4%nat → length flen = 4%nat → length fllen = 4%nat →
  length fcount = 4%nat → length fsaved = 4%nat → length fprev = 4%nat →
  Z.of_nat (length committed) = calls.le_value flen →
  Z.of_nat (length staging) = calls.le_value fllen →
  fin = Byte.x00 ∨ fin = Byte.x01 →
  worth = Byte.x00 ∨ worth = Byte.x01 →
  logio.RestoreState w
    (fsize ++ flen ++ committed ++ fllen ++ staging ++ [fin]
       ++ fcount ++ fsaved ++ fprev ++ [worth] ++ rest)
  = (logio.mkWriter (calls.le_value fsize) (logio.writer w) committed staging
       (bool_decide (fin = Byte.x01))
       (calls.le_value fcount) (calls.le_value fsaved) (calls.le_value fprev)
       (bool_decide (worth = Byte.x01)),
     Returned).
Proof.
  intros Hl1 Hl2 Hl4 Hl7 Hl8 Hl9 Hc Hs Hfin Hworth.
  unfold logio.RestoreState, bindec.New, bytes.Bytes.
  rewrite Uint32_field by done. rewrite Uint32_field by done.
  rewrite <- Hc, Bytes_field. rewrite Uint32_field by done.
  rewrite <- Hs, Bytes_field. cbn [app bindec.Bool].
  rewrite Uint32_field by done. rewrite Uint32_field by done.
  rewrite Uint32_field by done. cbn [app bindec.Bool].
  destruct Hfin as [-> | ->], Hworth as [-> | ->]; reflexivity.
Qed.

Lemma RestoreState_reads_fields_witness :
  logio.RestoreState samples.fresh
    ([Byte.x04; Byte.x00; Byte.x00; Byte.x00]
       ++ [Byte.x02; Byte.x00; Byte.x00; Byte.x00] ++ (bytes_of "1" ++ [nl])
       ++ [Byte.x01; Byte.x00; Byte.x00; Byte.x00] ++ bytes_of "4"
       ++ [Byte.x01]
       ++ [Byte.x03; Byte.x01; Byte.x00; Byte.x00]
       ++ [Byte.x02; Byte.x00; Byte.x00; Byte.x00]
       ++ [Byte.x01; Byte.x00; Byte.x00; Byte.x00]
       ++ [Byte.x00] ++ [Byte.x07; Byte.x07])
  = (logio.mkWriter 4 samples.sink (bytes_of "1" ++ [nl]) (bytes_of "4")
       true 259 2 1 false, Returned).
Proof.
  apply (RestoreState_reads_fields samples.fresh
           [Byte.x04; Byte.x00; Byte.x00; Byte.x00]
           [Byte.x02; Byte.x00; Byte.x00; Byte.x00] (bytes_of "1" ++ [nl])
           [Byte.x01; Byte.x00; Byte.x00; Byte.x00] (bytes_of "4")
           Byte.x01
           [Byte.x03; Byte.x01; Byte.x00; Byte.x00]
           [Byte.x02; Byte.x00; Byte.x00; Byte.x00]
           [Byte.x01; Byte.x00; Byte.x00; Byte.x00]
           Byte.x00 [Byte.x07; Byte.x07]);
    try reflexivity; (by left) || (by right).
Defined.

(** X11. A [RestoreState] that returns has assigned all eight fields
    from its input: the same input restored into any other writer gives the
    same fields, and only the underlying writer is the receiver's own.  The
    restored capacity and counters are those of [u32] fields. *)
Theorem RestoreState_assigns_all w w' (src : list byte) w1 :
  logio.RestoreState w src = (w1, Returned) →
  logio.RestoreState w' src = (logio.set_writer w1 (logio.writer w'), Returned)
  ∧ logio.writer w1 = logio.writer w
  ∧ 0 <= logio.bufsize w1 < 2 ^ 32
  ∧ 0 <= logio.lineCount w1 < 2 ^ 32
  ∧ 0 <= logio.savedLineCount w1 < 2 ^ 32
  ∧ 0 <= logio.prevLineCount w1 < 2 ^ 32.
Proof.
  unfold logio.RestoreState, bindec.New, bytes.Bytes.
  destruct (bindec.Uint32 src) as [[v1 [|]] r1] eqn:H1; [|done].
  destruct (bindec.Uint32 r1) as [[v2 [|]] r2] eqn:H2; [|done].
  destruct (bindec.Bytes r2 v2) as [[v3 [|]] r3] eqn:H3; [|done].
  destruct (bindec.Uint32 r3) as [[v4 [|]] r4] eqn:H4; [|done].
  destruct (bindec.Bytes r4 v4) as [[v5 [|]] r5] eqn:H5; [|done].
  destruct (bindec.Bool r5) as [[v6 [|]] r6] eqn:H6; [|done].
  destruct (bindec.Uint32 r6) as [[v7 [|]] r7] eqn:H7; [|done].
  destruct (bindec.Uint32 r7) as [[v8 [|]] r8] eqn:H8; [|done].
  destruct (bindec.Uint32 r8) as [[v9 [|]] r9] eqn:H9; [|done].
  destruct (bindec.Bool r9) as [[v10 [|]] r10] eqn:H10; [|done].
  intros [= <-]. simpl.
  assert (Hrange : ∀ rr v rr', bindec.Uint32 rr = (v, true, rr') → 0 <= v < 2 ^ 32).
  { intros rr v rr' Hu.
    destruct rr as [|b0 [|b1 [|b2 [|b3 rest]]]]; try done.
    injection Hu as <- _.
    pose proof (Z_of_byte_bounded b0). pose proof (Z_of_byte_bounded b1).
    pose proof (Z_of_byte_bounded b2). pose proof (Z_of_byte_bounded b3).
    change (2 ^ 8) with 256. change (2 ^ 16) with 65536.
    change (2 ^ 24) with 16777216. change (2 ^ 32) with 4294967296. lia. }
  split_and!; try done; eapply Hrange; eauto.
Qed.

Lemma RestoreState_assigns_all_witness :
  logio.RestoreState samples.fresh (calls.checkpoint samples.hello_wor)
  = (samples.hello_wor, Returned)
  ∧ logio.RestoreState samples.two_lines (calls.checkpoint samples.hello_wor)
    = (logio.set_writer samples.hello_wor (logio.writer samples.two_lines), Returned).
Proof.
  assert (H : logio.RestoreState samples.fresh (calls.checkpoint samples.hello_wor)
              = (samples.hello_wor, Returned)) by (vm_compute; reflexivity).
  split; [exact H|].
  exact (proj1 (RestoreState_assigns_all samples.fresh samples.two_lines _ _ H)).
Defined.

(** X12. [RestoreState] of what [DumpState] wrote, for any writer whose
    two buffers are shorter than 2^32 bytes: the buffers and the flags are
    those of the dumped writer, and the capacity and the three counters are
    the dumped ones reduced modulo 2^32. *)
Theorem RestoreState_DumpState w w' :
  Z.of_nat (length (logio.buffer w)) < 2 ^ 32 →
  Z.of_nat (length (logio.linebuf w)) < 2 ^ 32 →
  logio.RestoreState w' (logio.DumpState w []).2
  = (logio.mkWriter (uint32 (logio.bufsize w)) (logio.writer w')
       (logio.buffer w) (logio.linebuf w) (logio.finished w)
       (uint32 (logio.lineCount w)) (uint32 (logio.savedLineCount w))
       (uint32 (logio.prevLineCount w)) (logio.worthFlushing w), Returned).
Proof.
  intros Hbuf Hlb. rewrite DumpState_frame. cbn [snd app].
  assert (Hu : ∀ v, 0 <= uint32 v < 2 ^ 32).
  { intros v. unfold uint32. apply Z.mod_pos_bound. lia. }
  unfold logio.RestoreState, calls.checkpoint, bindec.New, bytes.Bytes.
  rewrite (uint32_small (Z.of_nat (length (logio.buffer w)))) by lia.
  rewrite (uint32_small (Z.of_nat (length (logio.linebuf w)))) by lia.
  rewrite Uint32_round by apply Hu. rewrite Uint32_round by lia.
  rewrite Bytes_field. rewrite Uint32_round by lia. rewrite Bytes_field.
  rewrite Bool_round. rewrite Uint32_round by apply Hu.
  rewrite Uint32_round by apply Hu. rewrite Uint32_round by apply Hu.
  rewrite <- (app_nil_r (binenc.Bool _)), Bool_round.
  reflexivity.
Qed.

Lemma RestoreState_DumpState_witness :
  Z.of_nat (length (logio.buffer samples.four_gigabytes)) < 2 ^ 32
  ∧ Z.of_nat (length (logio.linebuf samples.four_gigabytes)) < 2 ^ 32
  ∧ logio.RestoreState samples.fresh (logio.DumpState samples.four_gigabytes []).2
    = (logio.mkWriter (uint32 (logio.bufsize samples.four_gigabytes))
         (logio.writer samples.fresh)
         (logio.buffer samples.four_gigabytes)
         (logio.linebuf samples.four_gigabytes)
         (logio.finished samples.four_gigabytes)
         (uint32 (logio.lineCount samples.four_gigabytes))
         (uint32 (logio.savedLineCount samples.four_gigabytes))
         (uint32 (logio.prevLineCount samples.four_gigabytes))
         (logio.worthFlushing samples.four_gigabytes), Returned).
Proof.
  assert (H1 : Z.of_nat (length (logio.buffer samples.four_gigabytes)) < 2 ^ 32)
    by reflexivity.
  assert (H2 : Z.of_nat (length (logio.linebuf samples.four_gigabytes)) < 2 ^ 32)
    by reflexivity.
  split; [exact H1|]. split; [exact H2|].
  exact (RestoreState_DumpState samples.four_gigabytes samples.fresh H1 H2).
Defined.

(** ** Package bufferer: the raw bufferer *)

Section raw.

Context {File : Type} (File_Close : File → File * option io.error).

Implicit Types b : bufferer.RawBufferer File.

(** X13. Two [Flush] calls of a raw bufferer in a row that return
    nil, with no [Write] in between, leave no line behind.  If the writer
    was worth flushing at the first call, that call hands all committed
    bytes to the underlying writer and the second call leaves the
    underlying writer alone; if not, the first call hands nothing over and
    only renews the hint (the flag set, the previous count the saved one),
    and the second call hands the committed bytes over.  Either way the
    staging area and the file are as they were. *)
Theorem RawBufferer_Flush_twice b b1 b2 :
  calls.Reachable (bufferer.l b) →
  bufferer.RawBufferer_Flush b = (b1, None) →
  bufferer.RawBufferer_Flush b1 = (b2, None) →
  (if (logio.WorthFlushing (bufferer.l b)).1
   then io.received (logio.writer (bufferer.l b1))
        = io.received (logio.writer (bufferer.l b)) ++ logio.buffer (bufferer.l b)
        ∧ logio.buffer (bufferer.l b1) = []
        ∧ logio.writer (bufferer.l b2) = logio.writer (bufferer.l b1)
   else logio.writer (bufferer.l b1) = logio.writer (bufferer.l b)
        ∧ logio.buffer (bufferer.l b1) = logio.buffer (bufferer.l b)
        ∧ logio.worthFlushing (bufferer.l b1) = true
        ∧ logio.prevLineCount (bufferer.l b1)
          = logio.savedLineCount (bufferer.l b))
  ∧ logio.buffer (bufferer.l b2) = []
  ∧ io.received (logio.writer (bufferer.l b2))
    = io.received (logio.writer (bufferer.l b)) ++ logio.buffer (bufferer.l b)
  ∧ logio.linebuf (bufferer.l b2) = logio.linebuf (bufferer.l b)
  ∧ bufferer.d b2 = bufferer.d b.
Proof.
  intros Hr. apply Reachable_inv in Hr as (_ & _ & _ & Hc & Hs).
  unfold calls.counters_ok, calls.settled in *.
  unfold bufferer.RawBufferer_Flush, logio.WorthFlushing.
  destruct b as [w f]. cbn [bufferer.l bufferer.d fst snd] in *.
  set (w1 := logio.set_worthFlushing
               (logio.set_prevLineCount w (logio.savedLineCount w)) true).
  destruct (logio.worthFlushing w && negb (logio.savedLineCount w =? logio.lineCount w)
            && (logio.savedLineCount w =? logio.prevLineCount w)) eqn:Hworth.
  - destruct (logio.Flush w1) as [w2 [e|]] eqn:Hf; [done|].
    intros [= <-]. cbn [bufferer.l bufferer.d].
    apply Flush_ok in Hf as (k & -> & Hk). simpl in *.
    rewrite Z.eqb_refl. simpl.
    intros [= <-]. simpl. by rewrite Hk.
  - intros [= <-]. cbn [bufferer.l bufferer.d]. unfold w1 at 1 2 3. simpl.
    rewrite Z.eqb_refl, andb_true_r.
    destruct (logio.savedLineCount w =? logio.lineCount w) eqn:Heq; simpl.
    + intros [= <-]. simpl. apply Z.eqb_eq in Heq.
      rewrite (Hs Heq). by rewrite app_nil_r.
    + destruct (logio.Flush _) as [w2 [e|]] eqn:Hf; [done|].
      intros [= <-]. simpl.
      apply Flush_ok in Hf as (k & -> & Hk). simpl in *. by rewrite Hk.
Qed.

(** X14. [Close] of a raw bufferer flushes the committed lines and
    closes the file only when they were all taken: if the flush fails its
    error is returned and the file is left as it was; in every case no byte
    is lost or repeated, and the staging area is as it was: a partial line
    is not written by [Close]. *)
Theorem RawBufferer_Close_spec b b' err :
  bufferer.RawBufferer_Close File_Close b = (b', err) →
  io.received (logio.writer (bufferer.l b')) ++ logio.buffer (bufferer.l b')
    = io.received (logio.writer (bufferer.l b)) ++ logio.buffer (bufferer.l b)
  ∧ logio.linebuf (bufferer.l b') = logio.linebuf (bufferer.l b)
  ∧ match logio.Flush (bufferer.l b) with
    | (_, Some e) => err = Some e ∧ bufferer.d b' = bufferer.d b
    | (_, None) =>
        logio.buffer (bufferer.l b') = []
        ∧ (bufferer.d b', err) = File_Close (bufferer.d b)
    end.
Proof.
  unfold bufferer.RawBufferer_Close.
  destruct (logio.Flush (bufferer.l b)) as [w1 err1] eqn:Hf.
  pose proof (Flush_conserves _ _ _ Hf) as (Hcons & Hlb & _ & _ & _ & _ & _ & Herr).
  destruct err1 as [e|].
  - intros [= <- <-]. by split_and!.
  - destruct Herr as [Hnil _].
    destruct (File_Close (bufferer.d b)) as [d' [e|]]; intros [= <- <-];
      by split_and!.
Qed.

End raw.

Lemma RawBufferer_Flush_twice_witness :
  (calls.Reachable (bufferer.l samples.raw_busy)
   ∧ (logio.WorthFlushing (bufferer.l samples.raw_busy)).1 = false
   ∧ bufferer.RawBufferer_Flush samples.raw_busy
     = (bufferer.mkRawBufferer
          (logio.mkWriter 4
             (io.mkWriter (bytes_of "1" ++ [nl] ++ bytes_of "2" ++ [nl]) [])
             (bytes_of "3" ++ [nl]) [] true 3 2 2 true)
          0%nat, None)
   ∧ bufferer.RawBufferer_Flush
       (bufferer.mkRawBufferer
          (logio.mkWriter 4
             (io.mkWriter (bytes_of "1" ++ [nl] ++ bytes_of "2" ++ [nl]) [])
             (bytes_of "3" ++ [nl]) [] true 3 2 2 true)
          0%nat)
     = (bufferer.mkRawBufferer
          (logio.mkWriter 4
             (io.mkWriter
                (bytes_of "1" ++ [nl] ++ bytes_of "2" ++ [nl]
                 ++ bytes_of "3" ++ [nl]) [])
             [] [] true 3 3 2 true)
          0%nat, None)
   ∧ io.received
       (io.mkWriter
          (bytes_of "1" ++ [nl] ++ bytes_of "2" ++ [nl] ++ bytes_of "3" ++ [nl])
          [])
     = io.received (logio.writer (bufferer.l samples.raw_busy))
       ++ logio.buffer (bufferer.l samples.raw_busy))
  ∧ (calls.Reachable (bufferer.l samples.raw_two_lines)
     ∧ (logio.WorthFlushing (bufferer.l samples.raw_two_lines)).1 = true
     ∧ bufferer.RawBufferer_Flush samples.raw_two_lines
       = (bufferer.mkRawBufferer
            (logio.mkWriter 4
               (io.mkWriter (bytes_of "1" ++ [nl] ++ bytes_of "2" ++ [nl]) [])
               [] [] true 2 2 0 true)
            0%nat, None)
     ∧ bufferer.RawBufferer_Flush
         (bufferer.mkRawBufferer
            (logio.mkWriter 4
               (io.mkWriter (bytes_of "1" ++ [nl] ++ bytes_of "2" ++ [nl]) [])
               [] [] true 2 2 0 true)
            0%nat)
       = (bufferer.mkRawBufferer
            (logio.mkWriter 4
               (io.mkWriter (bytes_of "1" ++ [nl] ++ bytes_of "2" ++ [nl]) [])
               [] [] true 2 2 2 true)
            0%nat, None)
     ∧ io.received (io.mkWriter (bytes_of "1" ++ [nl] ++ bytes_of "2" ++ [nl]) [])
       = io.received (logio.writer (bufferer.l samples.raw_two_lines))
         ++ logio.buffer (bufferer.l samples.raw_two_lines)).
Proof.
  assert (Hr : calls.Reachable (bufferer.l samples.raw_busy)).
  { apply (calls.reach_Write
             (logio.mkWriter 4 samples.sink [] [] true 0 0 0 true)
             (bytes_of "1" ++ [nl] ++ bytes_of "2" ++ [nl] ++ bytes_of "3" ++ [nl])
             _ 6 None).
    - apply (calls.reach_new samples.sink 4). reflexivity.
    - vm_compute. discriminate.
    - vm_compute. reflexivity. }
  assert (H1 : bufferer.RawBufferer_Flush samples.raw_busy
     = (bufferer.mkRawBufferer
          (logio.mkWriter 4
             (io.mkWriter (bytes_of "1" ++ [nl] ++ bytes_of "2" ++ [nl]) [])
             (bytes_of "3" ++ [nl]) [] true 3 2 2 true)
          0%nat, None)) by reflexivity.
  assert (H2 : bufferer.RawBufferer_Flush
       (bufferer.mkRawBufferer
          (logio.mkWriter 4
             (io.mkWriter (bytes_of "1" ++ [nl] ++ bytes_of "2" ++ [nl]) [])
             (bytes_of "3" ++ [nl]) [] true 3 2 2 true)
          0%nat)
     = (bufferer.mkRawBufferer
          (logio.mkWriter 4
             (io.mkWriter
                (bytes_of "1" ++ [nl] ++ bytes_of "2" ++ [nl]
                 ++ bytes_of "3" ++ [nl]) [])
             [] [] true 3 3 2 true)
          0%nat, None)) by reflexivity.
  assert (Hr' : calls.Reachable (bufferer.l samples.raw_two_lines)).
  { apply (calls.reach_Write
             (logio.mkWriter 4 samples.sink [] [] true 0 0 0 true)
             (bytes_of "1" ++ [nl] ++ bytes_of "2" ++ [nl]) _ 4 None).
    - apply (calls.reach_new samples.sink 4). reflexivity.
    - vm_compute. discriminate.
    - vm_compute. reflexivity. }
  assert (H1' : bufferer.RawBufferer_Flush samples.raw_two_lines
    = (bufferer.mkRawBufferer
         (logio.mkWriter 4
            (io.mkWriter (bytes_of "1" ++ [nl] ++ bytes_of "2" ++ [nl]) [])
            [] [] true 2 2 0 true)
         0%nat, None)) by reflexivity.
  assert (H2' : bufferer.RawBufferer_Flush
      (bufferer.mkRawBufferer
         (logio.mkWriter 4
            (io.mkWriter (bytes_of "1" ++ [nl] ++ bytes_of "2" ++ [nl]) [])
            [] [] true 2 2 0 true)
         0%nat)
    = (bufferer.mkRawBufferer
         (logio.mkWriter 4
            (io.mkWriter (bytes_of "1" ++ [nl] ++ bytes_of "2" ++ [nl]) [])
            [] [] true 2 2 2 true)
         0%nat, None)) by reflexivity.
  split.
  - split; [exact Hr|]. split; [reflexivity|].
    split; [exact H1|]. split; [exact H2|].
    exact (proj1 (proj2 (proj2
             (RawBufferer_Flush_twice _ _ _ Hr H1 H2)))).
  - split; [exact Hr'|]. split; [reflexivity|].
    split; [exact H1'|]. split; [exact H2'|].
    exact (proj1 (proj2 (proj2
             (RawBufferer_Flush_twice _ _ _ Hr' H1' H2')))).
Defined.

Lemma RawBufferer_Close_spec_witness :
  bufferer.RawBufferer_Close samples.close_file samples.raw_two_lines
  = (bufferer.mkRawBufferer
       (logio.mkWriter 4
          (io.mkWriter (bytes_of "1" ++ [nl] ++ bytes_of "2" ++ [nl]) [])
          [] [] true 2 2 0 true)
       1%nat, None)
  ∧ logio.linebuf
      (logio.mkWriter 4
         (io.mkWriter (bytes_of "1" ++ [nl] ++ bytes_of "2" ++ [nl]) [])
         [] [] true 2 2 0 true)
    = logio.linebuf (bufferer.l samples.raw_two_lines).
Proof.
  assert (H : bufferer.RawBufferer_Close samples.close_file samples.raw_two_lines
    = (bufferer.mkRawBufferer
         (logio.mkWriter 4
            (io.mkWriter (bytes_of "1" ++ [nl] ++ bytes_of "2" ++ [nl]) [])
            [] [] true 2 2 0 true)
         1%nat, None)) by reflexivity.
  split; [exact H|].
  exact (proj1 (proj2 (RawBufferer_Close_spec samples.close_file _ _ _ H))).
Defined.

(** ** Package main: more of the registry *)

Section registry_calls.

Context {B St : Type} `{!bufferer.Bufferer B St}.

Implicit Types (f : main.FileOp B St) (σ : main.Heap B St) (buf v : main.Buf B).

(** X15. [Logrotate] of a key that is not in the registry returns
    the error "file `key` not found" and does nothing else: no mutex is
    taken, no bufferer is touched, and the registry is as it was. *)
Theorem Logrotate_missing_key f name newpath σ :
  main.itemsLock f = false →
  main.items f !! name = None →
  main.Logrotate f name newpath σ
  = main.Done (Some (io.Errorf ("file `" +:+ name +:+ "` not found"))) (f, σ).
Proof.
  intros Hfree Hnone. unfold main.Logrotate. rewrite Hfree.
  cbn [main.items main.set_itemsLock]. rewrite Hnone.
  by rewrite itemsLock_released.
Qed.

(** X16. [Logrotate] of an entry whose mutex is free and whose [Close]
    returns nil: the bufferer's [Close] and then its [Logrotate] are called
    with the mutex held, the mutex is released, and what [Logrotate] of the
    bufferer returned is returned; the registry is as it was. *)
Theorem Logrotate_rotates f name newpath σ buf a b st st' err :
  main.itemsLock f = false →
  main.items f !! name = Some buf →
  main.Buf_Lock buf = Some a → main.Buf_Buf buf = Some b →
  main.mutexes σ !! a = Some false →
  bufferer.Close b (main.ext σ) = (st, None) →
  bufferer.Logrotate b newpath st = (st', err) →
  main.Logrotate f name newpath σ =
    main.Done err
      (f, main.mkHeap (main.mutexes σ) st'
            (main.trace σ ++ [main.EvLock a; main.EvClose b;
                              main.EvLogrotate b newpath; main.EvUnlock a])).
Proof.
  intros Hfree Hlook Hl Hb Hmutex Hclose Hrot.
  assert (Hlen : (a < length (main.mutexes σ))%nat) by by eapply lookup_lt_Some.
  unfold main.Logrotate. rewrite Hfree.
  cbn [main.items main.set_itemsLock]. rewrite Hlook, Hl, Hb.
  unfold main.Mutex_Lock. rewrite Hmutex.
  unfold main.call_Close, main.log. cbn [main.ext main.mutexes main.trace].
  rewrite Hclose.
  unfold main.call_Logrotate. cbn [main.ext main.mutexes main.trace]. rewrite Hrot.
  unfold main.Mutex_Unlock, main.log. cbn [main.ext main.mutexes main.trace].
  rewrite list_lookup_insert_eq by done.
  rewrite list_insert_insert_eq, list_insert_id by done.
  rewrite itemsLock_released by done. by rewrite <- !app_assoc.
Qed.

Lemma Mutex_Lock_done (l : option nat) σ u σ' :
  main.Mutex_Lock l σ = main.Done u σ' →
  ∃ a, l = Some a ∧ main.mutexes σ !! a = Some false
       ∧ σ' = main.mkHeap (<[a := true]> (main.mutexes σ)) (main.ext σ)
                (main.trace σ ++ [main.EvLock a]).
Proof.
  unfold main.Mutex_Lock. destruct l as [a|]; [|done].
  destruct (main.mutexes σ !! a) as [[|]|] eqn:Hm; try done.
  intros [= _ <-]. by exists a.
Qed.

Lemma Mutex_Unlock_done (l : option nat) σ u σ' :
  main.Mutex_Unlock l σ = main.Done u σ' →
  ∃ a, l = Some a ∧ main.mutexes σ !! a = Some true
       ∧ σ' = main.mkHeap (<[a := false]> (main.mutexes σ)) (main.ext σ)
                (main.trace σ ++ [main.EvUnlock a]).
Proof.
  unfold main.Mutex_Unlock. destruct l as [a|]; [|done].
  destruct (main.mutexes σ !! a) as [[|]|] eqn:Hm; try done.
  intros [= _ <-]. by exists a.
Qed.

Lemma call_Close_mutexes (b : option B) σ err σ' :
  main.call_Close b σ = main.Done err σ' → main.mutexes σ' = main.mutexes σ.
Proof.
  unfold main.call_Close. destruct b as [b|]; [|done].
  destruct (bufferer.Close b (main.ext σ)). by intros [= _ <-].
Qed.

Lemma call_Logrotate_mutexes (b : option B) newpath σ err σ' :
  main.call_Logrotate b newpath σ = main.Done err σ' →
  main.mutexes σ' = main.mutexes σ.
Proof.
  unfold main.call_Logrotate. destruct b as [b|]; [|done].
  destruct (bufferer.Logrotate b newpath (main.ext σ)). by intros [= _ <-].
Qed.

Lemma relock (m : list bool) a :
  m !! a = Some false → <[a := false]> (<[a := true]> m) = m.
Proof. intros Hm. by rewrite list_insert_insert_eq, list_insert_id. Qed.

(** What a [Logrotate] that returns leaves as it was. *)
Lemma Logrotate_done f name newpath σ err f' σ' :
  main.Logrotate f name newpath σ = main.Done err (f', σ') →
  f' = f ∧ main.itemsLock f' = false ∧ main.mutexes σ' = main.mutexes σ.
Proof.
  unfold main.Logrotate.
  destruct (main.itemsLock f) eqn:Hfree; [done|].
  cbn [main.items main.set_itemsLock]. rewrite itemsLock_released by done.
  destruct (main.items f !! name) as [buf|]; [|by intros [= _ <- <-]].
  destruct (main.Mutex_Lock (main.Buf_Lock buf) σ) as [u σ1| |] eqn:Hlock; try done.
  apply Mutex_Lock_done in Hlock as (a & Ha & Hm & ->).
  destruct (main.call_Close (main.Buf_Buf buf) _) as [errc σ2| |] eqn:Hclose; try done.
  apply call_Close_mutexes in Hclose. simpl in Hclose.
  assert (Hexit : ∀ e σ3, main.mutexes σ3 = <[a := true]> (main.mutexes σ) →
            match main.Mutex_Unlock (main.Buf_Lock buf) σ3 with
            | main.Done _ σ4 => main.Done e (f, σ4)
            | main.Blocked => main.Blocked
            | main.Crashed => main.Crashed
            end = main.Done err (f', σ') →
            f' = f ∧ main.itemsLock f' = false ∧ main.mutexes σ' = main.mutexes σ).
  { intros e σ3 Hm3.
    destruct (main.Mutex_Unlock (main.Buf_Lock buf) σ3) as [u' σ4| |] eqn:Hun; try done.
    apply Mutex_Unlock_done in Hun as (a' & Ha' & _ & ->).
    rewrite Ha in Ha'. injection Ha' as <-.
    intros [= _ <- <-]. simpl. rewrite Hm3. by rewrite relock. }
  destruct errc as [e|].
  - by apply Hexit.
  - destruct (main.call_Logrotate (main.Buf_Buf buf) newpath σ2)
      as [errl σ3| |] eqn:Hrot; try done.
    apply call_Logrotate_mutexes in Hrot. apply Hexit. congruence.
Qed.

(** X17. Whenever [Logrotate] returns, with an error or without, the
    registry is as it was and every mutex is in the state it was in: the
    mutex of the entry, if it was taken, has been released. *)
Theorem Logrotate_releases f name newpath σ err f' σ' :
  main.Logrotate f name newpath σ = main.Done err (f', σ') →
  f' = f ∧ main.itemsLock f' = false ∧ main.mutexes σ' = main.mutexes σ.
Proof.
  unfold main.Logrotate.
  destruct (main.itemsLock f) eqn:Hfree; [done|].
  cbn [main.items main.set_itemsLock]. rewrite itemsLock_released by done.
  destruct (main.items f !! name) as [buf|]; [|by intros [= _ <- <-]].
  destruct (main.Mutex_Lock (main.Buf_Lock buf) σ) as [u σ1| |] eqn:Hlock; try done.
  apply Mutex_Lock_done in Hlock as (a & Ha & Hm & ->).
  destruct (main.call_Close (main.Buf_Buf buf) _) as [errc σ2| |] eqn:Hclose; try done.
  apply call_Close_mutexes in Hclose. simpl in Hclose.
  assert (Hexit : ∀ e σ3, main.mutexes σ3 = <[a := true]> (main.mutexes σ) →
            match main.Mutex_Unlock (main.Buf_Lock buf) σ3 with
            | main.Done _ σ4 => main.Done e (f, σ4)
            | main.Blocked => main.Blocked
            | main.Crashed => main.Crashed
            end = main.Done err (f', σ') →
            f' = f ∧ main.itemsLock f' = false ∧ main.mutexes σ' = main.mutexes σ).
  { intros e σ3 Hm3.
    destruct (main.Mutex_Unlock (main.Buf_Lock buf) σ3) as [u' σ4| |] eqn:Hun; try done.
    apply Mutex_Unlock_done in Hun as (a' & Ha' & _ & ->).
    rewrite Ha in Ha'. injection Ha' as <-.
    intros [= _ <- <-]. simpl. rewrite Hm3. by rewrite relock. }
  destruct errc as [e|].
  - by apply Hexit.
  - destruct (main.call_Logrotate (main.Buf_Buf buf) newpath σ2)
      as [errl σ3| |] eqn:Hrot; try done.
    apply call_Logrotate_mutexes in Hrot. apply Hexit. congruence.
Qed.

(** What a [GetFile] that returns has done. *)
Lemma GetFile_done f name σ r f' σ' :
  main.GetFile f name σ = main.Done r (f', σ') →
  main.itemsLock f = false
  ∧ ((∃ buf, main.items f !! name = Some buf ∧ r = (buf, None)
             ∧ f' = f ∧ σ' = σ)
     ∨ (main.items f !! name = None
        ∧ ∃ st b e, main.factory f name (main.ext σ) = (st, b, Some e)
             ∧ r = (main.zero_Buf, Some e) ∧ f' = f
             ∧ σ' = main.mkHeap (main.mutexes σ) st
                      (main.trace σ ++ [main.EvFactory name]))
     ∨ (main.items f !! name = None
        ∧ ∃ st b, main.factory f name (main.ext σ) = (st, b, None)
             ∧ r = (main.mkBuf name (Some (length (main.mutexes σ))) b, None)
             ∧ f' = main.set_items f
                      (<[name := main.mkBuf name (Some (length (main.mutexes σ))) b]>
                         (main.items f))
             ∧ σ' = main.mkHeap (main.mutexes σ ++ [false]) st
                      (main.trace σ ++ [main.EvFactory name]))).
Proof.
  unfold main.GetFile. destruct (main.itemsLock f) eqn:Hfree; [done|].
  cbn [main.items main.set_itemsLock]. intros Hget. split; [done|].
  destruct (main.items f !! name) as [buf|] eqn:Hlook.
  - rewrite itemsLock_released in Hget by done. injection Hget as <- <- <-.
    left. by exists buf.
  - right. unfold main.call_factory in Hget.
    cbn [main.factory main.set_itemsLock] in Hget.
    destruct (main.factory f name (main.ext σ)) as [[st b] [e|]] eqn:Hfac.
    + cbn in Hget. rewrite itemsLock_released in Hget by done.
      injection Hget as <- <- <-. left. split; [done|]. by exists st, b, e.
    + cbn in Hget. rewrite itemsLock_released_insert in Hget by done.
      injection Hget as <- <- <-. right. split; [done|]. by exists st, b.
Qed.

(** X18. After a [GetFile] that returned an entry, [GetFile] of the
    same key returns that entry again and changes nothing: the factory is
    called once for a key. *)
Theorem GetFile_again f name σ buf f' σ' :
  main.GetFile f name σ = main.Done (buf, None) (f', σ') →
  main.GetFile f' name σ' = main.Done (buf, None) (f', σ').
Proof.
  intros Hget. pose proof Hget as Hget'.
  apply GetFile_done in Hget'
    as (Hfree & [(buf' & Hlook & Hr & -> & ->)
                | [(_ & st & b & e & _ & Hr & _) | (Hnone & st & b & Hfac & Hr & -> & ->)]]);
    [done | done |].
  injection Hr as ->.
  unfold main.GetFile. cbn [main.itemsLock main.set_items main.items main.set_itemsLock].
  rewrite Hfree, lookup_insert_eq. f_equal. f_equal.
  destruct f. simpl in *. by subst.
Qed.

Lemma NewFileOp_ok (fac : string → St → St * option B * option io.error) σ :
  main.registry_ok (main.NewFileOp fac) σ.
Proof.
  split; [done|]. intros name buf Hlook. simpl in Hlook.
  by rewrite lookup_empty in Hlook.
Qed.

(** X19. The registry stays in order: after [GetFile] or [Logrotate]
    has returned on a registry in order (as a new registry is), the registry
    mutex is free, every entry is under its own name, no two entries share a
    mutex, and the entries that were there are there unchanged. *)
Theorem registry_ok_kept f σ :
  main.registry_ok f σ →
  (∀ name r f' σ', main.GetFile f name σ = main.Done r (f', σ') →
     main.registry_ok f' σ' ∧ main.items f ⊆ main.items f')
  ∧ (∀ name newpath err f' σ',
       main.Logrotate f name newpath σ = main.Done err (f', σ') →
       main.registry_ok f' σ' ∧ main.items f' = main.items f).
Proof.
  intros [Hfree Hok]. split.
  - intros name r f' σ' Hget.
    apply GetFile_done in Hget
      as (_ & [(buf' & _ & _ & -> & ->)
              | [(_ & st & b & e & _ & _ & -> & ->)
                | (Hnone & st & b & Hfac & _ & -> & ->)]]).
    + split; [by split | done].
    + split; [by split | done].
    + split; [|by apply insert_subseteq].
      split; [done|]. cbn [main.items main.set_items main.mutexes].
      intros n buf Hlook. destruct (decide (n = name)) as [->|Hne].
      * rewrite lookup_insert_eq in Hlook. injection Hlook as <-.
        split; [done|]. exists (length (main.mutexes σ)).
        split; [done|]. split; [rewrite length_app; simpl; lia|].
        intros n' buf' Hlook' Hlock'.
        destruct (decide (n' = name)) as [|Hne']; [done|].
        rewrite lookup_insert_ne in Hlook' by done.
        destruct (Hok _ _ Hlook') as (_ & a & Ha & Hlt & _).
        rewrite Ha in Hlock'. injection Hlock' as ->. lia.
      * rewrite lookup_insert_ne in Hlook by done.
        destruct (Hok _ _ Hlook) as (Hname & a & Ha & Hlt & Huniq).
        split; [done|]. exists a. split; [done|].
        split; [rewrite length_app; simpl; lia|].
        intros n' buf' Hlook' Hlock'.
        destruct (decide (n' = name)) as [->|Hne'].
        -- rewrite lookup_insert_eq in Hlook'. injection Hlook' as <-.
           simpl in Hlock'. injection Hlock' as <-. lia.
        -- rewrite lookup_insert_ne in Hlook' by done. by eapply Huniq.
  - intros name newpath err f' σ' Hrot.
    apply Logrotate_done in Hrot as (-> & _ & Hm).
    split; [|done]. split; [done|]. intros n buf Hlook. rewrite Hm. by apply Hok.
Qed.

End registry_calls.

Lemma Logrotate_missing_key_witness :
  main.itemsLock samples.registry = false
  ∧ main.items samples.registry !! "web.log" = None
  ∧ main.Logrotate samples.registry "web.log" "web.log-20261030" samples.heap
    = main.Done (Some (io.Errorf ("file `" +:+ "web.log" +:+ "` not found")))
        (samples.registry, samples.heap).
Proof.
  assert (H1 : main.itemsLock samples.registry = false) by reflexivity.
  assert (H2 : main.items samples.registry !! "web.log" = None)
    by (vm_compute; reflexivity).
  split; [exact H1|]. split; [exact H2|].
  exact (Logrotate_missing_key samples.registry "web.log" "web.log-20261030"
           samples.heap H1 H2).
Defined.

Lemma Logrotate_rotates_witness :
  main.itemsLock samples.web_registry = false
  ∧ main.items samples.web_registry !! "web.log" = Some samples.web_entry
  ∧ main.Buf_Lock samples.web_entry = Some 0%nat
  ∧ main.Buf_Buf samples.web_entry = Some samples.well_behaved
  ∧ main.mutexes samples.heap !! 0%nat = Some false
  ∧ bufferer.Close samples.well_behaved (main.ext samples.heap) = (1%nat, None)
  ∧ bufferer.Logrotate samples.well_behaved "web.log-20261030" 1%nat = (2%nat, None)
  ∧ main.Logrotate samples.web_registry "web.log" "web.log-20261030" samples.heap
    = main.Done None
        (samples.web_registry,
         main.mkHeap (main.mutexes samples.heap) 2%nat
           (main.trace samples.heap
            ++ [main.EvLock 0; main.EvClose samples.well_behaved;
                main.EvLogrotate samples.well_behaved "web.log-20261030";
                main.EvUnlock 0])).
Proof.
  assert (H1 : main.itemsLock samples.web_registry = false) by reflexivity.
  assert (H2 : main.items samples.web_registry !! "web.log" = Some samples.web_entry)
    by (vm_compute; reflexivity).
  assert (H3 : main.Buf_Lock samples.web_entry = Some 0%nat) by reflexivity.
  assert (H4 : main.Buf_Buf samples.web_entry = Some samples.well_behaved)
    by reflexivity.
  assert (H5 : main.mutexes samples.heap !! 0%nat = Some false) by reflexivity.
  assert (H6 : bufferer.Close samples.well_behaved (main.ext samples.heap)
               = (1%nat, None)) by reflexivity.
  assert (H7 : bufferer.Logrotate samples.well_behaved "web.log-20261030" 1%nat
               = (2%nat, None)) by reflexivity.
  split_and!; [exact H1 | exact H2 | exact H3 | exact H4 | exact H5 | exact H6
              | exact H7 |].
  exact (Logrotate_rotates samples.web_registry "web.log" "web.log-20261030"
           samples.heap samples.web_entry 0%nat samples.well_behaved
           1%nat 2%nat None H1 H2 H3 H4 H5 H6 H7).
Defined.

Lemma Logrotate_releases_witness :
  main.Logrotate samples.registry "app.log" "app.log-20261030" samples.heap
  = main.Done None
      (samples.registry,
       main.mkHeap [false] 1%nat
         [main.EvLock 0; main.EvClose samples.failing_close; main.EvUnlock 0])
  ∧ samples.registry = samples.registry
  ∧ main.itemsLock samples.registry = false
  ∧ main.mutexes
      (main.mkHeap [false] 1%nat
         [main.EvLock 0; main.EvClose samples.failing_close; main.EvUnlock 0])
    = main.mutexes samples.heap.
Proof.
  assert (H : main.Logrotate samples.registry "app.log" "app.log-20261030" samples.heap
    = main.Done None
        (samples.registry,
         main.mkHeap [false] 1%nat
           [main.EvLock 0; main.EvClose samples.failing_close; main.EvUnlock 0]))
    by (vm_compute; reflexivity).
  split; [exact H|].
  exact (Logrotate_releases _ _ _ _ _ _ _ H).
Defined.

Lemma GetFile_again_witness :
  main.GetFile samples.registry "web.log" samples.heap
  = main.Done (main.mkBuf "web.log" (Some 1%nat) (Some samples.well_behaved), None)
      (main.set_items samples.registry
         (<["web.log" := main.mkBuf "web.log" (Some 1%nat) (Some samples.well_behaved)]>
            (main.items samples.registry)),
       main.mkHeap [false; false] 1%nat [main.EvFactory "web.log"])
  ∧ main.GetFile
      (main.set_items samples.registry
         (<["web.log" := main.mkBuf "web.log" (Some 1%nat) (Some samples.well_behaved)]>
            (main.items samples.registry)))
      "web.log" (main.mkHeap [false; false] 1%nat [main.EvFactory "web.log"])
    = main.Done (main.mkBuf "web.log" (Some 1%nat) (Some samples.well_behaved), None)
        (main.set_items samples.registry
           (<["web.log" := main.mkBuf "web.log" (Some 1%nat) (Some samples.well_behaved)]>
              (main.items samples.registry)),
         main.mkHeap [false; false] 1%nat [main.EvFactory "web.log"]).
Proof.
  assert (H : main.GetFile samples.registry "web.log" samples.heap
    = main.Done (main.mkBuf "web.log" (Some 1%nat) (Some samples.well_behaved), None)
        (main.set_items samples.registry
           (<["web.log" := main.mkBuf "web.log" (Some 1%nat) (Some samples.well_behaved)]>
              (main.items samples.registry)),
         main.mkHeap [false; false] 1%nat [main.EvFactory "web.log"]))
    by (vm_compute; reflexivity).
  split; [exact H|].
  exact (GetFile_again _ _ _ _ _ _ H).
Defined.

Lemma registry_ok_kept_witness :
  main.registry_ok samples.registry samples.heap
  ∧ (∀ name r f' σ',
       main.GetFile samples.registry name samples.heap = main.Done r (f', σ') →
       main.registry_ok f' σ' ∧ main.items samples.registry ⊆ main.items f')
  ∧ (∀ name newpath err f' σ',
       main.Logrotate samples.registry name newpath samples.heap
       = main.Done err (f', σ') →
       main.registry_ok f' σ' ∧ main.items f' = main.items samples.registry).
Proof.
  assert (H : main.registry_ok samples.registry samples.heap).
  { split; [reflexivity|]. intros name buf Hlook.
    unfold samples.registry in *. cbn [main.items] in *.
    apply lookup_singleton_Some in Hlook as [<- <-].
    split; [reflexivity|]. exists 0%nat. split; [reflexivity|].
    split; [simpl; lia|]. intros name' buf' Hlook' _.
    by apply lookup_singleton_Some in Hlook' as [<- _]. }
  split; [exact H|]. exact (registry_ok_kept samples.registry samples.heap H).
Defined.

(** ** Package main: the flusher *)

Section flusher.

Context {B St : Type} `{!bufferer.Bufferer B St}.

Implicit Types (f : main.FileOp B St) (σ : main.Heap B St) (v : main.Buf B).

Lemma usable_mutexes σ σ' v :
  main.mutexes σ' = main.mutexes σ → main.usable σ v → main.usable σ' v.
Proof. unfold main.usable. by intros ->. Qed.

Lemma held_mutexes σ σ' v :
  main.mutexes σ' = main.mutexes σ → main.held σ' v = main.held σ v.
Proof. unfold main.held. by intros ->. Qed.

Lemma filter_held_mutexes σ σ' (bufs : list (main.Buf B)) h :
  main.mutexes σ' = main.mutexes σ →
  filter (λ v, main.held σ' v = h) bufs = filter (λ v, main.held σ v = h) bufs.
Proof.
  intros Hm. apply list_filter_iff. intros v. by rewrite (held_mutexes σ σ' v Hm).
Qed.

Lemma flush_entries_spec (bufs : list (main.Buf B)) : ∀ σ flushed wereLocked flushErrors,
  Forall (main.usable σ) bufs →
  ∃ flushed' flushErrors' σ',
    main.flush_entries bufs σ flushed wereLocked flushErrors
    = main.Done (flushed',
                 (wereLocked + length (filter (λ v, main.held σ v = true) bufs))%nat,
                 flushErrors') σ'
    ∧ (flushed' + flushErrors'
       = flushed + flushErrors
         + length (filter (λ v, main.held σ v = false) bufs))%nat
    ∧ (length (filter (λ v, main.held σ v = true) bufs)
       + length (filter (λ v, main.held σ v = false) bufs) = length bufs)%nat
    ∧ main.mutexes σ' = main.mutexes σ
    ∧ main.ext σ'
      = foldl main.flushed_state (main.ext σ) (filter (λ v, main.held σ v = false) bufs).
Proof.
  induction bufs as [|v bufs IH]; intros σ fl lk er Hus.
  - exists fl, er, σ. simpl. rewrite !Nat.add_0_r. by split_and!.
  - apply Forall_cons in Hus as [((a & h & Ha & Hm) & [b Hb]) Hus].
    cbn [main.flush_entries]. unfold main.Mutex_TryLock. rewrite Ha, Hm.
    assert (Hheld : main.held σ v = h).
    { unfold main.held. rewrite Ha, Hm. by destruct h. }
    destruct h.
    + destruct (IH σ fl (S lk) er Hus) as (fl' & er' & σ' & -> & Hsum & Hlen & Hmx & Hext).
      exists fl', er', σ'.
      rewrite (filter_cons_True (λ v, main.held σ v = true)) by done.
      rewrite (filter_cons_False (λ v, main.held σ v = false)) by (by rewrite Hheld).
      split_and!; try done.
      * do 3 f_equal. rewrite ?length_cons; lia.
      * rewrite ?length_cons; lia.
    + unfold main.call_Flush, main.log.
      cbn [main.ext main.mutexes main.trace]. rewrite Hb.
      destruct (bufferer.Flush b (main.ext σ)) as [st err] eqn:Hfl.
      unfold main.Mutex_Unlock, main.log.
      cbn [main.ext main.mutexes main.trace].
      rewrite list_lookup_insert_eq by by eapply lookup_lt_Some.
      rewrite relock by done.
      set (σ1 := main.mkHeap (main.mutexes σ) st
                   ((main.trace σ ++ [main.EvLock a]) ++ [main.EvUnlock a])).
      assert (Hm1 : main.mutexes σ1 = main.mutexes σ) by done.
      assert (Hus1 : Forall (main.usable σ1) bufs).
      { eapply Forall_impl; [exact Hus|]. intros v'. by apply usable_mutexes. }
      rewrite (filter_cons_False (λ v, main.held σ v = true)) by (by rewrite Hheld).
      rewrite (filter_cons_True (λ v, main.held σ v = false)) by done.
      assert (Hst : st = main.flushed_state (main.ext σ) v).
      { unfold main.flushed_state. by rewrite Hb, Hfl. }
      destruct err as [e|].
      * destruct (IH σ1 fl lk (S er) Hus1)
          as (fl' & er' & σ' & -> & Hsum & Hlen & Hmx & Hext).
        rewrite (filter_held_mutexes σ σ1 bufs true),
          (filter_held_mutexes σ σ1 bufs false) in * by done.
        exists fl', er', σ'. split_and!; try done.
        -- rewrite ?length_cons; lia.
        -- rewrite ?length_cons; lia.
        -- simpl. by rewrite <- Hst.
      * destruct (IH σ1 (S fl) lk er Hus1)
          as (fl' & er' & σ' & -> & Hsum & Hlen & Hmx & Hext).
        rewrite (filter_held_mutexes σ σ1 bufs true),
          (filter_held_mutexes σ σ1 bufs false) in * by done.
        exists fl', er', σ'. split_and!; try done.
        -- rewrite ?length_cons; lia.
        -- rewrite ?length_cons; lia.
        -- simpl. by rewrite <- Hst.
Qed.

(** X20. A tick of the flusher on a registry whose mutex is free and
    whose entries have a mutex and a bufferer: it returns the numbers of
    entries flushed, found locked and failed, which add up to the size of the
    registry; the entries found locked are those whose mutex is held, and
    their bufferers are not touched: [Flush] is called on the others, in
    the order of the copy; all mutexes are afterwards as they were, and so is
    the registry. *)
Theorem flusher_tick_spec f bufs σ :
  main.itemsLock f = false →
  main.snapshot f bufs →
  Forall (main.usable σ) bufs →
  ∃ flushed flushErrors σ',
    main.flusher_tick f bufs σ
    = main.Done (flushed, length (filter (λ v, main.held σ v = true) bufs),
                 flushErrors) (f, σ')
    ∧ (flushed + length (filter (λ v, main.held σ v = true) bufs) + flushErrors
       = size (main.items f))%nat
    ∧ main.mutexes σ' = main.mutexes σ
    ∧ main.ext σ'
      = foldl main.flushed_state (main.ext σ) (filter (λ v, main.held σ v = false) bufs).
Proof.
  intros Hfree Hsnap Hus. unfold main.flusher_tick. rewrite Hfree.
  destruct (flush_entries_spec bufs σ 0 0 0 Hus)
    as (fl & er & σ' & -> & Hsum & Hlen & Hmx & Hext).
  exists fl, er, σ'. rewrite itemsLock_released by done. split_and!; try done.
  assert (Hsize : length bufs = size (main.items f)).
  { unfold main.snapshot in Hsnap. rewrite Hsnap, length_fmap.
    apply length_map_to_list. }
  lia.
Qed.

Lemma close_entries_spec (bufs : list (main.Buf B)) : ∀ σ,
  Forall (λ v, is_Some (main.Buf_Buf v)) bufs →
  ∃ σ', main.close_entries bufs σ = main.Done () σ'
        ∧ main.trace σ' = main.trace σ ++ (main.EvClose <$> omap main.Buf_Buf bufs)
        ∧ main.mutexes σ' = main.mutexes σ
        ∧ main.ext σ' = foldl main.closed_state (main.ext σ) bufs.
Proof.
  induction bufs as [|v bufs IH]; intros σ Hall.
  - exists σ. simpl. by rewrite app_nil_r.
  - apply Forall_cons in Hall as [[b Hb] Hall].
    cbn [main.close_entries]. unfold main.call_Close. rewrite Hb.
    destruct (bufferer.Close b (main.ext σ)) as [st err] eqn:Hcl.
    destruct (IH (main.log (main.mkHeap (main.mutexes σ) st (main.trace σ))
                           (main.EvClose b)) Hall)
      as (σ' & -> & Htr & Hmx & Hext).
    exists σ'. split; [done|]. simpl in *. rewrite Hb. simpl.
    split_and!; [by rewrite Htr, <- app_assoc | done |].
    rewrite Hext. f_equal. unfold main.closed_state. by rewrite Hb, Hcl.
Qed.

(** X21. The flusher ordered to stop, on a registry whose mutex is free
    and whose entries have a bufferer, going through the entries of the
    registry in some order: [Close] is called once on the bufferer of every
    entry of the registry, in that order, whatever the earlier calls
    returned, so there are as many calls as the registry has entries; no
    entry mutex is taken, and the registry mutex is free again
    afterwards. *)
Theorem flusher_stop_spec f bufs σ :
  main.itemsLock f = false →
  main.snapshot f bufs →
  Forall (λ v, is_Some (main.Buf_Buf v)) bufs →
  ∃ σ', main.flusher_stop f bufs σ = main.Done () (f, σ')
        ∧ main.trace σ' = main.trace σ ++ (main.EvClose <$> omap main.Buf_Buf bufs)
        ∧ length (omap main.Buf_Buf bufs) = size (main.items f)
        ∧ (∀ name buf b,
             main.items f !! name = Some buf → main.Buf_Buf buf = Some b →
             main.EvClose b ∈ drop (length (main.trace σ)) (main.trace σ'))
        ∧ main.mutexes σ' = main.mutexes σ
        ∧ main.ext σ' = foldl main.closed_state (main.ext σ) bufs.
Proof.
  intros Hfree Hsnap Hall. unfold main.flusher_stop. rewrite Hfree.
  destruct (close_entries_spec bufs σ Hall) as (σ' & -> & Htr & Hmx & Hext).
  exists σ'. rewrite itemsLock_released by done. split_and!; try done.
  - assert (Hlen : length (omap main.Buf_Buf bufs) = length bufs).
    { clear -Hall. induction Hall as [|v l [b Hb] _ IH]; [done|].
      cbn [omap list_omap]. rewrite Hb. simpl. f_equal. exact IH. }
    rewrite Hlen. unfold main.snapshot in Hsnap.
    rewrite Hsnap, length_fmap. apply length_map_to_list.
  - intros name buf b Hlook Hb. rewrite Htr, drop_app_length.
    apply list_elem_of_fmap. exists b. split; [done|].
    apply list_elem_of_omap. exists buf. split; [|done].
    unfold main.snapshot in Hsnap. rewrite Hsnap.
    apply list_elem_of_fmap. exists (name, buf). split; [done|].
    by apply elem_of_map_to_list.
Qed.

End flusher.

Lemma flusher_tick_spec_witness :
  main.itemsLock samples.web_registry = false
  ∧ main.snapshot samples.web_registry [samples.web_entry]
  ∧ Forall (main.usable samples.heap) [samples.web_entry]
  ∧ ∃ flushed flushErrors σ',
      main.flusher_tick samples.web_registry [samples.web_entry] samples.heap
      = main.Done (flushed,
                   length (filter (λ v, main.held samples.heap v = true)
                             [samples.web_entry]),
                   flushErrors) (samples.web_registry, σ')
      ∧ (flushed
         + length (filter (λ v, main.held samples.heap v = true) [samples.web_entry])
         + flushErrors
         = size (main.items samples.web_registry))%nat
      ∧ main.mutexes σ' = main.mutexes samples.heap
      ∧ main.ext σ'
        = foldl main.flushed_state (main.ext samples.heap)
            (filter (λ v, main.held samples.heap v = false) [samples.web_entry]).
Proof.
  assert (H1 : main.itemsLock samples.web_registry = false) by reflexivity.
  assert (H2 : main.snapshot samples.web_registry [samples.web_entry]).
  { unfold main.snapshot, samples.web_registry. cbn [main.items].
    by rewrite map_to_list_singleton. }
  assert (H3 : Forall (main.usable samples.heap) [samples.web_entry]).
  { apply Forall_singleton. split; [|by eexists].
    exists 0%nat, false. split; reflexivity. }
  split; [exact H1|]. split; [exact H2|]. split; [exact H3|].
  exact (flusher_tick_spec samples.web_registry [samples.web_entry] samples.heap
           H1 H2 H3).
Defined.

Lemma flusher_stop_spec_witness :
  main.itemsLock samples.registry = false
  ∧ main.snapshot samples.registry
      [main.mkBuf "app.log" (Some 0%nat) (Some samples.failing_close)]
  ∧ Forall (λ v : main.Buf samples.Scripted, is_Some (main.Buf_Buf v))
      [main.mkBuf "app.log" (Some 0%nat) (Some samples.failing_close)]
  ∧ ∃ σ',
      main.flusher_stop samples.registry
        [main.mkBuf "app.log" (Some 0%nat) (Some samples.failing_close)]
        samples.heap
      = main.Done () (samples.registry, σ')
      ∧ main.trace σ'
        = main.trace samples.heap
          ++ (main.EvClose <$>
                omap main.Buf_Buf
                  [main.mkBuf "app.log" (Some 0%nat) (Some samples.failing_close)])
      ∧ length
          (omap main.Buf_Buf
             [main.mkBuf "app.log" (Some 0%nat) (Some samples.failing_close)])
        = size (main.items samples.registry)
      ∧ (∀ name buf b,
           main.items samples.registry !! name = Some buf →
           main.Buf_Buf buf = Some b →
           main.EvClose b ∈ drop (length (main.trace samples.heap)) (main.trace σ'))
      ∧ main.mutexes σ' = main.mutexes samples.heap
      ∧ main.ext σ'
        = foldl main.closed_state (main.ext samples.heap)
            [main.mkBuf "app.log" (Some 0%nat) (Some samples.failing_close)].
Proof.
  assert (H1 : main.itemsLock samples.registry = false) by reflexivity.
  assert (H2 : main.snapshot samples.registry
                 [main.mkBuf "app.log" (Some 0%nat) (Some samples.failing_close)]).
  { unfold main.snapshot, samples.registry. cbn [main.items].
    by rewrite map_to_list_singleton. }
  assert (H3 : Forall (λ v : main.Buf samples.Scripted, is_Some (main.Buf_Buf v))
                 [main.mkBuf "app.log" (Some 0%nat) (Some samples.failing_close)]).
  { repeat constructor; by eexists. }
  split; [exact H1|]. split; [exact H2|]. split; [exact H3|].
  exact (flusher_stop_spec samples.registry _ samples.heap H1 H2 H3).
Defined.

(** ** Package logio: the capacity *)

Lemma Write_loop_quiet fuel w (data : list byte) nn w' n err :
  calls.staging_ok w →
  bytes.Len (logio.buffer w) + bytes.Len (logio.linebuf w)
    + Z.of_nat (length data) <= logio.bufsize w →
  logio.Write_loop fuel w data nn = Some (w', n, err) →
  err = None ∧ logio.writer w' = logio.writer w
  ∧ logio.worthFlushing w' = logio.worthFlushing w
  ∧ logio.buffer w' ++ logio.linebuf w'
    = logio.buffer w ++ logio.linebuf w ++ data.
Proof.
  unfold bytes.Len.
  revert w data nn. induction fuel as [|fuel IH]; intros w data nn Hst Hfit.
  - destruct data; simpl; [|done]. intros [= <- _ <-]. by rewrite app_nil_r.
  - destruct (chunk_cases data) as [-> | [[Hne Hdata] | (body & rest & -> & Hbody)]].
    + rewrite Write_loop_nil. intros [= <- _ <-]. by rewrite app_nil_r.
    + rewrite Write_loop_tail by done. by intros [= <- _ <-].
    + rewrite Write_loop_line by done. rewrite stage_line_eq.
      rewrite length_app in Hfit. simpl length in Hfit.
      set (w1 := logio.set_linebuf w []).
      set (l1 := logio.linebuf w ++ body ++ [nl]).
      assert (Hstage : (if logio.finished w then (w, body ++ [nl], None)
                        else (w1, l1, None))
                       = (w1, l1, (None : option io.error))).
      { unfold w1, l1. destruct (logio.finished w) eqn:Hfin; [|done].
        pose proof (Hst Hfin) as Hnil. destruct w; simpl in *. by subst. }
      rewrite Hstage. clear Hstage.
      assert (Hroom : logio.make_room w1 l1 = (w1, None)).
      { unfold logio.make_room, bytes.Len.
        assert (Hno : (Z.of_nat (length (logio.buffer w1)) + Z.of_nat (length l1)
                       >? logio.bufsize w1) = false).
        { rewrite Z.gtb_ltb. apply Z.ltb_ge. unfold w1, l1. simpl.
          rewrite !length_app. simpl length. lia. }
        by rewrite Hno. }
      rewrite Hroom, commit_line_eq. intros Hw. apply IH in Hw.
      * destruct Hw as (-> & Hwr & Hfl & Hbytes). split_and!; try done.
        rewrite Hbytes. unfold w1, l1. simpl.
        by rewrite <- !app_assoc.
      * by intros _.
      * unfold w1, l1. simpl. rewrite !length_app. simpl length. lia.
Qed.

(** X5. A [Write] of data that fits, with what is committed and
    staged, into the capacity returns nil and the length of the data, and
    hands nothing to the underlying writer: the data is only added to what
    the writer holds, and the flush hint is not touched. *)
Theorem Write_within_capacity w (data : list byte) :
  calls.staging_ok w →
  bytes.Len (logio.buffer w) + bytes.Len (logio.linebuf w)
    + Z.of_nat (length data) <= logio.bufsize w →
  ∃ w', logio.Write w data = Some (w', Z.of_nat (length data), None)
        ∧ logio.writer w' = logio.writer w
        ∧ logio.worthFlushing w' = logio.worthFlushing w
        ∧ logio.buffer w' ++ logio.linebuf w'
          = logio.buffer w ++ logio.linebuf w ++ data.
Proof.
  intros Hst Hfit. destruct (Write_returns w data) as [[[w' n] err] Hw].
  pose proof (Write_loop_quiet _ _ _ _ _ _ _ Hst Hfit Hw) as (-> & Hwr & Hfl & Hb).
  pose proof (Write_loop_count _ _ _ _ _ _ Hw) as ->.
  exists w'. rewrite Hw, Z.add_0_l. by split_and!.
Qed.

Lemma Write_within_capacity_witness :
  calls.staging_ok samples.hello_wor
  ∧ bytes.Len (logio.buffer samples.hello_wor)
      + bytes.Len (logio.linebuf samples.hello_wor)
      + Z.of_nat (length (bytes_of "ld" ++ [nl]))
    <= logio.bufsize samples.hello_wor
  ∧ ∃ w', logio.Write samples.hello_wor (bytes_of "ld" ++ [nl])
          = Some (w', Z.of_nat (length (bytes_of "ld" ++ [nl])), None)
          ∧ logio.writer w' = logio.writer samples.hello_wor
          ∧ logio.worthFlushing w' = logio.worthFlushing samples.hello_wor
          ∧ logio.buffer w' ++ logio.linebuf w'
            = logio.buffer samples.hello_wor ++ logio.linebuf samples.hello_wor
              ++ (bytes_of "ld" ++ [nl]).
Proof.
  assert (H1 : calls.staging_ok samples.hello_wor) by (intros H; discriminate H).
  assert (H2 : bytes.Len (logio.buffer samples.hello_wor)
                 + bytes.Len (logio.linebuf samples.hello_wor)
                 + Z.of_nat (length (bytes_of "ld" ++ [nl]))
               <= logio.bufsize samples.hello_wor) by (vm_compute; discriminate).
  split; [exact H1|]. split; [exact H2|].
  exact (Write_within_capacity samples.hello_wor (bytes_of "ld" ++ [nl]) H1 H2).
Defined.

Lemma Flush_err_drop w w' e :
  logio.Flush w = (w', Some e) →
  ∃ m, logio.buffer w' = drop m (logio.buffer w).
Proof.
  unfold logio.Flush. destruct (bytes.Len (logio.buffer w) >? 0); [|done].
  unfold bytes.WriteTo. destruct (0 <? bytes.Len (logio.buffer w)); [|done].
  destruct (io.Write (logio.writer w) (logio.buffer w)) as [[k m] [e'|]].
  - intros [= <- _]. by eexists.
  - destruct (negb (m =? bytes.Len (logio.buffer w))); [|done].
    intros [= <- _]. by eexists.
Qed.

Lemma Flush_bounded w w' err :
  0 <= logio.bufsize w → calls.bounded w →
  logio.Flush w = (w', err) → calls.bounded w'.
Proof.
  intros Hsz Hb Hf.
  pose proof (Flush_conserves _ _ _ Hf) as (_ & _ & _ & _ & _ & Hsz' & _ & Herr).
  unfold calls.bounded in *. rewrite Hsz'. destruct err as [e|].
  - apply Flush_err_drop in Hf as [m ->]. destruct Hb as [Hlen | [pre Hline]].
    + left. unfold bytes.Len in *. rewrite length_drop. lia.
    + right. exists (pre ++ take m (logio.buffer w)).
      by rewrite <- app_assoc, take_drop.
  - destruct Herr as [-> _]. left. unfold bytes.Len. simpl. lia.
Qed.

Lemma Write_loop_bounded fuel w (data : list byte) nn w' n err :
  0 <= logio.bufsize w → calls.bounded w →
  calls.staging_ok w → nl ∉ logio.linebuf w →
  logio.Write_loop fuel w data nn = Some (w', n, err) →
  calls.bounded w'.
Proof.
  revert w data nn. induction fuel as [|fuel IH]; intros w data nn Hsz Hb Hst Hnl.
  - destruct data; simpl; [|done]. by intros [= <- _ _].
  - destruct (chunk_cases data) as [-> | [[Hne Hdata] | (body & rest & -> & Hbody)]].
    + rewrite Write_loop_nil. by intros [= <- _ _].
    + rewrite Write_loop_tail by done. by intros [= <- _ _].
    + rewrite Write_loop_line by done. rewrite stage_line_eq.
      set (w1 := logio.set_linebuf w []).
      set (l1 := logio.linebuf w ++ body ++ [nl]).
      assert (Hstage : (if logio.finished w then (w, body ++ [nl], None)
                        else (w1, l1, None))
                       = (w1, l1, (None : option io.error))).
      { unfold w1, l1. destruct (logio.finished w) eqn:Hfin; [|done].
        pose proof (Hst Hfin) as Hnil. destruct w; simpl in *. by subst. }
      rewrite Hstage. clear Hstage.
      assert (Hl1 : calls.line l1) by by apply staged_line.
      destruct (logio.make_room w1 l1) as [w2 err2] eqn:Hroom.
      assert (H2 : calls.bounded w2 ∧ logio.bufsize w2 = logio.bufsize w
                   ∧ logio.linebuf w2 = []
                   ∧ (err2 = None →
                      bytes.Len (logio.buffer w2) + Z.of_nat (length l1)
                        <= logio.bufsize w2
                      ∨ logio.buffer w2 = [])).
      { unfold logio.make_room in Hroom. destruct (_ >? _) eqn:Hfit.
        - pose proof (Flush_conserves _ _ _ Hroom)
            as (_ & Hlb & _ & _ & _ & Hsz' & _ & Herr).
          split_and!; [| done | done |].
          + eapply Flush_bounded; [| |exact Hroom]; done.
          + intros ->. right. by destruct Herr.
        - injection Hroom as <- <-. split_and!; [done | done | done |].
          intros _. left. rewrite Z.gtb_ltb in Hfit. by apply Z.ltb_ge in Hfit. }
      destruct H2 as (Hb2 & Hsz2 & Hlb2 & Hfits).
      destruct err2 as [e|]; [by intros [= <- _ _]|].
      rewrite commit_line_eq. intros Hw. apply IH in Hw; [done | | | |].
      * simpl. lia.
      * unfold calls.bounded. simpl.
        destruct (Hfits eq_refl) as [Hlen | ->].
        -- left. unfold bytes.Len in *. rewrite length_app. lia.
        -- right. by exists [].
      * by intros _.
      * simpl. rewrite Hlb2. apply not_elem_of_nil.
Qed.

(** X7. In every state a writer goes through, the committed buffer is
    not longer than the capacity, unless it holds one single line, or what
    is left of one after a failed flush: lines are only gathered up to the
    capacity. *)
Theorem Reachable_bounded w :
  calls.Reachable w → calls.bounded w.
Proof.
  intros Hr. pose proof (Reachable_inv w Hr) as (Hsz & _).
  induction Hr as [k size w Hnew | w data w' n err Hr IH Hmax Hw
                  | w w' err Hr IH Hf | w w' err Hr IH Hf
                  | w res w' Hr IH Hwf | w dest w' dest' Hr IH Hd].
  - unfold logio.NewWriterSize in Hnew. destruct (size <? 0); [done|].
    injection Hnew as <-. left. done.
  - pose proof (Reachable_inv w Hr) as (Hsz0 & Hnl & Hst & _).
    eapply Write_loop_bounded; [| | | |exact Hw]; auto.
  - pose proof (Reachable_inv w Hr) as (Hsz0 & _).
    eapply Flush_bounded; [| |exact Hf]; auto.
  - pose proof (Reachable_inv w Hr) as (Hsz0 & _).
    apply FlushAll_frame in Hf as (w1 & err1 & lb & Hf1 & Hw' & _).
    pose proof (Flush_bounded _ _ _ Hsz0 (IH Hsz0) Hf1) as Hb1.
    rewrite Hw'. exact Hb1.
  - unfold logio.WorthFlushing in Hwf. injection Hwf as _ <-. by apply IH.
  - rewrite DumpState_frame in Hd. injection Hd as <- _. by apply IH.
Qed.

Lemma Reachable_bounded_witness :
  calls.Reachable samples.after_chunk ∧ calls.bounded samples.after_chunk.
Proof.
  assert (Hr : calls.Reachable samples.after_chunk).
  { apply (calls.reach_Write samples.fresh samples.chunk_123456 _ 9 None).
    - apply (calls.reach_new samples.sink logio.defaultBufferSize). reflexivity.
    - vm_compute. discriminate.
    - vm_compute. reflexivity. }
  split; [exact Hr|]. exact (Reachable_bounded samples.after_chunk Hr).
Defined.
